(** * dgmjs core: replication bridge and constraint resolution

    A shallow embedding of
    - [packages/core/src/plugins/plugin-yjs-sync.ts] (class [YjsSyncPlugin]),
    - the yjs utility module ([getYChildren], [getParentOrder], [objToYObj],
      [setParent], [applyTransaction], [unapplyTransaction], [applyYjsEvent]),
    - [packages/core/src/macro.ts] ([resolveShapeConstraints],
      [resolveAllConstraints] and the z-order macros),
    followed by the properties of these functions.

    Conventions of the embedding.
    - JavaScript numbers are exact rationals ([Q], kept in lowest terms by
      every arithmetic operation) plus [VNaN]; rounding of IEEE doubles is
      outside the model, and a statement that depends on it is made for
      keys doubles hold exactly ([exact_keys]).
    - [Value] holds values a [Y.Map] stores; a value [Y.Map.set] rejects
      is a [JsValue].
    - A handler is read as the transformation of the store it performs;
      calls that leave the sources at hand ([onObjCreate], [setDoc],
      [setCurrentPage], [repaint]) are not part of it.
    - Objects live in a heap indexed by locations; [parent] and [children]
      hold locations, so that two references to one object alias.
    - A [Y.Map] is an association list in first-insertion order of its keys,
      which is the order [forEach] visits them in.
    - A function that can raise a [TypeError] (a property read or a method
      call on [undefined]/[null]) returns a [Result]. *)

From Stdlib Require Import ZArith QArith Lia Lqa.
From stdpp Require Import gmap strings list.

Local Open Scope string_scope.
Local Open Scope list_scope.
Local Open Scope Z_scope.

(* ------------------------------------------------------------------ *)
(** ** JavaScript values *)

Inductive Value : Type :=
| VUndefined
| VNull
| VBool (b : bool)
| VNum (q : Q)
| VNaN
| VStr (s : string).

(** [if (v)] *)
Definition truthy (v : Value) : bool :=
  match v with
  | VUndefined | VNull | VNaN => false
  | VBool b => b
  | VNum q => negb (Qeq_bool q 0)
  | VStr s => negb (String.eqb s "")
  end.

(** Numeric reading of a field that this code only ever writes with a
    number: a missing field reads [undefined], which arithmetic turns into
    [NaN]; values of another type are read as [NaN] too. *)
Definition toNumber (v : Value) : option Q :=
  match v with
  | VNum q => Some q
  | _ => None
  end.

Definition ofNumber (n : option Q) : Value :=
  match n with
  | Some q => VNum (Qred q)
  | None => VNaN
  end.

Definition num_binop (f : Q -> Q -> Q) (a b : Value) : Value :=
  match toNumber a, toNumber b with
  | Some x, Some y => ofNumber (Some (f x y))
  | _, _ => VNaN
  end.

Definition js_add : Value -> Value -> Value := num_binop Qplus.
Definition js_sub : Value -> Value -> Value := num_binop Qminus.
Definition js_div : Value -> Value -> Value := num_binop Qdiv.

(** [a >= b] on order keys, which this code writes as numbers: false as
    soon as one side is not a number (the coercion of other values is not
    modelled) *)
Definition js_ge (a b : Value) : bool :=
  match toNumber a, toNumber b with
  | Some x, Some y => Qle_bool y x
  | _, _ => false
  end.

(** [a === b] *)
Definition strict_eq (a b : Value) : bool :=
  match a, b with
  | VUndefined, VUndefined | VNull, VNull => true
  | VBool x, VBool y => Bool.eqb x y
  | VNum x, VNum y => Qeq_bool x y
  | VStr x, VStr y => String.eqb x y
  | _, _ => false
  end.

(* ------------------------------------------------------------------ *)
(** ** Exceptions *)

Inductive JsError : Type :=
| TypeError (msg : string)
(** [new Error(msg)] *)
| GenericError (msg : string).

Inductive Result (A : Type) : Type :=
| Ok (a : A)
| Throw (e : JsError).
Arguments Ok {A} a.
Arguments Throw {A} e.

#[global] Instance Result_ret : MRet Result := fun A a => Ok a.
#[global] Instance Result_bind : MBind Result := fun A B f m =>
  match m with
  | Ok a => f a
  | Throw e => Throw e
  end.

Definition returns {A} (r : Result A) : Prop := exists a, r = Ok a.

(* ------------------------------------------------------------------ *)
(** ** JavaScript arrays *)

Section Arrays.
Context {A : Type}.

Definition js_length (l : list A) : Z := Z.of_nat (length l).

(** [l[i]], [undefined] out of range *)
Definition js_index (l : list A) (i : Z) : option A :=
  if i <? 0 then None else nth_error l (Z.to_nat i).

(** [l.findIndex(p)] *)
Fixpoint findIndex_from (p : A -> bool) (l : list A) (i : Z) : Z :=
  match l with
  | [] => -1
  | x :: l' => if p x then i else findIndex_from p l' (i + 1)
  end.
Definition findIndex (p : A -> bool) (l : list A) : Z := findIndex_from p l 0.

(** The index [splice(start, ...)] really starts at. *)
Definition splice_start (l : list A) (start : Z) : nat :=
  Z.to_nat (if start <? 0 then Z.max (js_length l + start) 0
            else Z.min start (js_length l)).

(** [l.splice(start, 1)] *)
Definition splice_delete1 (l : list A) (start : Z) : list A :=
  let k := splice_start l start in firstn k l ++ skipn (S k) l.

(** [l.splice(start, 0, x)] *)
Definition splice_insert (l : list A) (start : Z) (x : A) : list A :=
  let k := splice_start l start in firstn k l ++ x :: skipn k l.

(** [l.push(x)] *)
Definition push (l : list A) (x : A) : list A := l ++ [x].
End Arrays.

(** [l.indexOf(x)] on an array of object references *)
Definition indexOf (l : list nat) (x : nat) : Z := findIndex (Nat.eqb x) l.

(* ------------------------------------------------------------------ *)
(** ** Y.Map *)

Section YMap.
Context {V : Type}.

Fixpoint ymap_get (m : list (string * V)) (k : string) : option V :=
  match m with
  | [] => None
  | (k', v) :: m' => if String.eqb k' k then Some v else ymap_get m' k
  end.

(** [set] keeps the place of a key that is already there. *)
Fixpoint ymap_set (m : list (string * V)) (k : string) (v : V) : list (string * V) :=
  match m with
  | [] => [(k, v)]
  | (k', v') :: m' =>
      if String.eqb k' k then (k, v) :: m' else (k', v') :: ymap_set m' k v
  end.

(** [delete]; the place in the iteration order that a key deleted and
    set again takes is not tracked: here it is the end. *)
Definition ymap_delete (m : list (string * V)) (k : string) : list (string * V) :=
  List.filter (fun kv => negb (String.eqb (fst kv) k)) m.

Definition ymap_has (m : list (string * V)) (k : string) : bool :=
  match ymap_get m k with Some _ => true | None => false end.
End YMap.

(** The flat field map of one entity. *)
Definition YObj : Type := list (string * Value).
(** The replicated map: entity id to field map. *)
Definition YStore : Type := list (string * YObj).

(** A reference to a nested field map that lives in the replicated map:
    the key it is stored under. *)
Definition YRef : Type := string.

(** [yStore.get(key)] *)
Definition ystore_get (y : YStore) (key : string) : option YRef :=
  if ymap_has y key then Some key else None.

Definition fields_of (y : YStore) (r : YRef) : YObj :=
  match ymap_get y r with Some f => f | None => [] end.

Definition field_get (f : YObj) (k : string) : Value :=
  match ymap_get f k with Some v => v | None => VUndefined end.

(** [yObj.get(k)]; a [TypeError] when [yObj] is [undefined] or [null] *)
Definition yobj_get (y : YStore) (yObj : option YRef) (k : string) : Result Value :=
  match yObj with
  | Some r => Ok (field_get (fields_of y r) k)
  | None => Throw (TypeError "get of undefined")
  end.

(** [yObj.set(k, v)] *)
Definition yobj_set (y : YStore) (yObj : option YRef) (k : string) (v : Value)
  : Result YStore :=
  match yObj with
  | Some r => Ok (ymap_set y r (ymap_set (fields_of y r) k v))
  | None => Throw (TypeError "set of undefined")
  end.

(** [yObj.delete(k)] *)
Definition yobj_delete (y : YStore) (yObj : option YRef) (k : string) : Result YStore :=
  match yObj with
  | Some r => Ok (ymap_set y r (ymap_delete (fields_of y r) k))
  | None => Throw (TypeError "delete of undefined")
  end.

(** Truthiness of an object reference or [undefined]. *)
Definition defined {A} (o : option A) : bool :=
  match o with Some _ => true | None => false end.

(** [getYChildren(yStore, parent)]: the field maps whose [parent] field is
    [parent], in the iteration order of the replicated map. *)
Definition getYChildren (y : YStore) (parent : Value) : list YObj :=
  map snd (List.filter (fun kv => strict_eq (field_get (snd kv) "parent") parent) y).

(* ------------------------------------------------------------------ *)
(** ** The local object store *)

Definition loc : Type := nat.

Record Obj : Type := mkObj {
  obj_id : string;
  obj_parent : option loc;
  obj_children : list loc;
  (** the flat projection [toJSON()] returns, also the duck-typed fields *)
  obj_json : YObj;
  (** resolved reference fields ([head], [tail]) *)
  obj_refs : list (string * option loc)
}.

#[global] Instance Obj_inhabited : Inhabited Obj :=
  populate (mkObj "" None [] [] []).

Record Store : Type := mkStore {
  heap : gmap loc Obj;
  idIndex : gmap string loc;
  nextLoc : loc
}.

Definition set_parent (p : option loc) (o : Obj) : Obj :=
  mkObj (obj_id o) p (obj_children o) (obj_json o) (obj_refs o).
Definition set_children (c : list loc) (o : Obj) : Obj :=
  mkObj (obj_id o) (obj_parent o) c (obj_json o) (obj_refs o).
(** [(obj as any)[k] = v] for a key [k] that names a field of the JSON
    projection; the structural properties [id], [parent] and [children],
    which this assignment would overwrite on the entity itself, are not
    written through it. *)
Definition set_field (k : string) (v : Value) (o : Obj) : Obj :=
  mkObj (obj_id o) (obj_parent o) (obj_children o) (ymap_set (obj_json o) k v) (obj_refs o).
Definition set_ref (k : string) (r : option loc) (o : Obj) : Obj :=
  mkObj (obj_id o) (obj_parent o) (obj_children o) (obj_json o) (ymap_set (obj_refs o) k r).

Definition deref (s : Store) (l : loc) : Obj := heap s !!! l.

Definition update (s : Store) (l : loc) (f : Obj -> Obj) : Store :=
  mkStore (<[l := f (deref s l)]> (heap s)) (idIndex s) (nextLoc s).

(** Modelled from the spec: [Store.getById], [Store.addToIndex] and
    [Store.removeFromIndex] are declared outside the sources at hand; the
    index is the id-to-entity mapping, and the two updates touch the index
    only. *)
Definition getById (s : Store) (id : Value) : option loc :=
  match id with
  | VStr k => idIndex s !! k
  | _ => None
  end.

Definition addToIndex (s : Store) (l : loc) : Store :=
  mkStore (heap s) (<[obj_id (deref s l) := l]> (idIndex s)) (nextLoc s).

Definition removeFromIndex (s : Store) (l : loc) : Store :=
  mkStore (heap s) (delete (obj_id (deref s l)) (idIndex s)) (nextLoc s).

(** Modelled from the spec: [instantiator.createFromJson] and
    [Obj.resolveRefs] are declared outside the sources at hand.  Decoding a
    flat field map gives a new entity that carries these fields, has the id
    the map names, no parent and no children; resolving looks the
    connector end references [head] and [tail] up in the index. *)
Definition createFromJson (s : Store) (json : YObj) : Store * loc :=
  let l := nextLoc s in
  let i := match field_get json "id" with VStr i => i | _ => "" end in
  (mkStore (<[l := mkObj i None [] json []]> (heap s)) (idIndex s) (S l), l).

Definition resolveRefs (s : Store) (l : loc) : Store :=
  update s l (fun o =>
    set_ref "tail" (getById s (field_get (obj_json o) "tail"))
      (set_ref "head" (getById s (field_get (obj_json o) "head")) o)).

(* ------------------------------------------------------------------ *)
(** ** Mutations, transactions, actions *)

Inductive Mutation : Type :=
| CREATE (obj : loc)
| DELETE (obj : loc)
| ASSIGN (obj : loc) (field : string) (oldValue newValue : Value)
| ASSIGN_REF (obj : loc) (field : string) (oldValue newValue : option loc)
| INSERT_CHILD (parent obj : loc) (position : Z)
| REMOVE_CHILD (parent obj : loc) (position : Z)
| REORDER_CHILD (parent obj : loc) (position : Z).

Record Transaction : Type := mkTx { mutations : list Mutation }.
Record Action : Type := mkAction { transactions : list Transaction }.

(** [ref.id]; a [TypeError] when the reference is [null] *)
Definition id_of (s : Store) (o : option loc) : Result string :=
  match o with
  | Some l => Ok (obj_id (deref s l))
  | None => Throw (TypeError "id of null")
  end.

(** A use of a reference that needs it defined. *)
Definition expect {A : Type} (o : option A) : Result A :=
  match o with
  | Some a => Ok a
  | None => Throw (TypeError "read of undefined")
  end.

(** [obj?.parent] *)
Definition parent_opt (s : Store) (obj : option loc) : option loc :=
  match obj with
  | Some o => obj_parent (deref s o)
  | None => None
  end.

(** [yStore.get(id)] for an id read from a field *)
Definition ystore_get_v (y : YStore) (id : Value) : option YRef :=
  match id with
  | VStr k => ystore_get y k
  | _ => None
  end.

(** [for (const x of l) step(x)] and [l.forEach(step)] *)
Fixpoint forM {A St : Type} (step : St -> A -> Result St) (l : list A) (s : St) : Result St :=
  match l with
  | [] => Ok s
  | x :: l' => s' ← step s x; forM step l' s'
  end.

(** [for (let i = from; i < from + count; i++) body(i)] *)
Fixpoint for_up_from {St : Type} (from count : nat) (body : nat -> St -> Result St) (s : St)
  : Result St :=
  match count with
  | O => Ok s
  | S count' => s' ← body from s; for_up_from (S from) count' body s'
  end.

(** [for (let i = 0; i < n; i++) body(i)] *)
Definition for_up {St : Type} (n : nat) (body : nat -> St -> Result St) (s : St) : Result St :=
  for_up_from 0 n body s.

(** [for (let i = n - 1; i >= 0; i--) body(i)] *)
Fixpoint for_down {St : Type} (n : nat) (body : nat -> St -> Result St) (s : St) : Result St :=
  match n with
  | O => Ok s
  | S i => s' ← body i s; for_down i body s'
  end.

(** [const x = l[i]] followed by a use of [x] that needs it defined *)
Definition at_index {A St : Type} (l : list A) (i : nat) (k : A -> Result St) : Result St :=
  match nth_error l i with
  | Some x => k x
  | None => Throw (TypeError "read of undefined")
  end.

(* ------------------------------------------------------------------ *)
(** ** plugin-yjs-sync.ts: class YjsSyncPlugin *)

Module YjsSyncPlugin.

(** [getParentOrder(yObjMap, parent, position)].  The local store has
    the mutation applied already: [parent.children[position]] is the
    inserted object, its neighbours sit at [position - 1] and
    [position + 1]. *)
Definition getParentOrder (s : Store) (yObjMap : YStore) (parent : loc) (position : Z)
  : Result Value :=
  let children := obj_children (deref s parent) in
  let objPrev := if 0 <? position then js_index children (position - 1) else None in
  let objNext :=
    if position <? js_length children then js_index children (position + 1) else None in
  let yObjPrev :=
    match objPrev with
    | Some o => ystore_get yObjMap (obj_id (deref s o))
    | None => None
    end in
  let yObjNext :=
    match objNext with
    | Some o => ystore_get yObjMap (obj_id (deref s o))
    | None => None
    end in
  if defined yObjNext && defined yObjPrev then
    prev ← yobj_get yObjMap yObjPrev "parent:order";
    next ← yobj_get yObjMap yObjNext "parent:order";
    mret (js_div (js_add prev next) (VNum 2))
  else if defined yObjNext then
    next ← yobj_get yObjMap yObjNext "parent:order";
    mret (js_sub next (VNum 1))
  else if defined yObjPrev then
    prev ← yobj_get yObjMap yObjPrev "parent:order";
    mret (js_add prev (VNum 1))
  else mret (VNum 0).

(** [objToYMap(obj)] *)
Definition objToYMap (o : Obj) : YObj :=
  fold_left (fun yMap kv => ymap_set yMap (fst kv) (snd kv)) (obj_json o) [].

(** One turn of the loop of [applyTransaction]. *)
Definition applyMutation (s : Store) (y : YStore) (mutation : Mutation) : Result YStore :=
  match mutation with
  | CREATE obj =>
      let yObj := objToYMap (deref s obj) in
      mret (ymap_set y (obj_id (deref s obj)) yObj)
  | DELETE obj =>
      mret (ymap_delete y (obj_id (deref s obj)))
  | ASSIGN obj field _ newValue =>
      let yObj := ystore_get y (obj_id (deref s obj)) in
      if defined yObj then yobj_set y yObj field newValue else mret y
  | ASSIGN_REF obj field _ newValue =>
      let yObj := ystore_get y (obj_id (deref s obj)) in
      if defined yObj && defined newValue then
        i ← id_of s newValue;
        yobj_set y yObj field (VStr i)
      else mret y
  | INSERT_CHILD parent obj position =>
      let yParent := ystore_get y (obj_id (deref s parent)) in
      let yObj := ystore_get y (obj_id (deref s obj)) in
      if defined yParent && defined yObj then
        y1 ← yobj_set y yObj "parent" (VStr (obj_id (deref s parent)));
        order ← getParentOrder s y1 parent position;
        yobj_set y1 yObj "parent:order" order
      else mret y
  | REMOVE_CHILD parent obj _ =>
      let yParent := ystore_get y (obj_id (deref s parent)) in
      let yObj := ystore_get y (obj_id (deref s obj)) in
      if defined yParent && defined yObj then
        y1 ← yobj_delete y yObj "parent";
        yobj_delete y1 yObj "parent:order"
      else mret y
  | REORDER_CHILD parent obj _ =>
      let yParent := ystore_get y (obj_id (deref s parent)) in
      let yObj := ystore_get y (obj_id (deref s obj)) in
      if defined yParent && defined yObj then mret y (* TODO: parent order *)
      else mret y
  end.

Definition applyTransaction (s : Store) (tx : Transaction) (y : YStore) : Result YStore :=
  if (js_length (mutations tx) =? 0) then mret y
  else for_up (length (mutations tx))
         (fun i y => at_index (mutations tx) i (applyMutation s y)) y.

(** One turn of the loop of [unapplyTransaction]. *)
Definition unapplyMutation (s : Store) (y : YStore) (mutation : Mutation) : Result YStore :=
  match mutation with
  | CREATE obj =>
      mret (ymap_delete y (obj_id (deref s obj)))
  | DELETE obj =>
      let yObj := objToYMap (deref s obj) in
      mret (ymap_set y (obj_id (deref s obj)) yObj)
  | ASSIGN obj field oldValue _ =>
      let yObj := ystore_get y (obj_id (deref s obj)) in
      if defined yObj then yobj_set y yObj field oldValue else mret y
  | ASSIGN_REF obj field oldValue _ =>
      let yObj := ystore_get y (obj_id (deref s obj)) in
      if defined yObj && defined oldValue then
        i ← id_of s oldValue;
        yobj_set y yObj field (VStr i)
      else mret y
  | INSERT_CHILD parent obj _ =>
      let yParent := ystore_get y (obj_id (deref s parent)) in
      let yObj := ystore_get y (obj_id (deref s obj)) in
      if defined yParent && defined yObj then
        y1 ← yobj_delete y yObj "parent";
        yobj_delete y1 yObj "parent:order"
      else mret y
  | REMOVE_CHILD parent obj position =>
      let yParent := ystore_get y (obj_id (deref s parent)) in
      let yObj := ystore_get y (obj_id (deref s obj)) in
      if defined yParent && defined yObj then
        y1 ← yobj_set y yObj "parent" (VStr (obj_id (deref s parent)));
        order ← getParentOrder s y1 parent position;
        yobj_set y1 yObj "parent:order" order
      else mret y
  | REORDER_CHILD parent obj _ =>
      let yParent := ystore_get y (obj_id (deref s parent)) in
      let yObj := ystore_get y (obj_id (deref s obj)) in
      if defined yParent && defined yObj then mret y (* TODO: parent order *)
      else mret y
  end.

Definition unapplyTransaction (s : Store) (tx : Transaction) (y : YStore) : Result YStore :=
  if (js_length (mutations tx) =? 0) then mret y
  else for_down (length (mutations tx))
         (fun i y => at_index (mutations tx) i (unapplyMutation s y)) y.

(** The [onTransaction] listener. *)
Definition onTransaction (s : Store) (tx : Transaction) (y : YStore) : Result YStore :=
  applyTransaction s tx y.

(** The [onUndo] listener. *)
Definition onUndo (s : Store) (action : Action) (y : YStore) : Result YStore :=
  for_down (length (transactions action))
    (fun i y => at_index (transactions action) i (fun tx => unapplyTransaction s tx y)) y.

(** The [onRedo] listener. *)
Definition onRedo (s : Store) (action : Action) (y : YStore) : Result YStore :=
  for_up (length (transactions action))
    (fun i y => at_index (transactions action) i (fun tx => applyTransaction s tx y)) y.

(** *** The observer of remote changes *)

(** [yMapToObj(yMap)] *)
Definition yMapToObj (s : Store) (y : YStore) (yObj : YRef) : Store * loc :=
  createFromJson s (fields_of y yObj).

(** A changed key of the replicated map itself whose entry is there. *)
Definition onKeyAdded (y : YStore) (s : Store) (key : string) (yObj : option YRef)
  : Result Store :=
  if negb (defined (getById s (VStr key))) then
    r ← expect yObj;
    let '(s1, obj) := yMapToObj s y r in
    let s2 := resolveRefs s1 obj in
    let s3 := addToIndex s2 obj in
    parentId ← yobj_get y yObj "parent";
    let parent := getById s3 parentId in
    if defined parent then
      p ← expect parent;
      let s4 := update s3 obj (set_parent (Some p)) in
      order ← yobj_get y yObj "parent:order";
      let yChildren := getYChildren y parentId in
      let orders := map (fun yChild => field_get yChild "parent:order") yChildren in
      let position := findIndex (fun o => js_ge o order) orders in
      mret (update s4 p (fun po =>
              set_children (splice_insert (obj_children po) position obj) po))
    else mret s3
  else mret s.

(** A changed key of the replicated map itself whose entry is gone. *)
Definition onKeyRemoved (s : Store) (key : string) : Result Store :=
  let obj := getById s (VStr key) in
  s1 ← (if defined (parent_opt s obj) then
          o ← expect obj;
          p ← expect (obj_parent (deref s o));
          let s' := update s p (fun po =>
                      set_children
                        (splice_delete1 (obj_children po) (indexOf (obj_children po) o))
                        po) in
          mret (update s' o (set_parent None))
        else mret s);
  if defined obj then o ← expect obj; mret (removeFromIndex s1 o) else mret s1.

Definition onMapKeyChanged (y : YStore) (s : Store) (key : string) : Result Store :=
  let yObj := ystore_get y key in
  if defined yObj then onKeyAdded y s key yObj else onKeyRemoved s key.

(** One changed key of the field map of entity [obj]. *)
Definition onFieldChanged (y : YStore) (obj : loc) (yObj : option YRef)
    (s : Store) (key : string) : Result Store :=
  value ← yobj_get y yObj key;
  if String.eqb key "parent" then
    parentId ← yobj_get y yObj "parent";
    let parent := getById s parentId in
    if defined parent then
      p ← expect parent;
      let s1 := update s p (fun po => set_children (push (obj_children po) obj) po) in
      mret (update s1 obj (set_parent (Some p)))
    else
      s1 ← (if defined (obj_parent (deref s obj)) then
              p ← expect (obj_parent (deref s obj));
              mret (update s p (fun po =>
                      set_children
                        (splice_delete1 (obj_children po) (indexOf (obj_children po) obj))
                        po))
            else mret s);
      mret (update s1 obj (set_parent None))
  else if String.eqb key "head" || String.eqb key "tail" then
    value ← yobj_get y yObj key;
    let ref := getById s value in
    mret (update s obj (set_ref key ref))
  else
    value ← yobj_get y yObj key;
    mret (update s obj (set_field key value)).

(** A change of the field map [target] of one entity. *)
Definition onObjChanged (y : YStore) (s : Store) (target : YRef) (keysChanged : list string)
  : Result Store :=
  let id := field_get (fields_of y target) "id" in
  let obj := getById s id in
  let yObj := ystore_get_v y id in
  if defined obj && defined yObj then
    o ← expect obj;
    forM (onFieldChanged y o yObj) keysChanged s
  else mret s.

End YjsSyncPlugin.

(* ------------------------------------------------------------------ *)
(** ** The yjs utility module *)

Module YjsUtils.

(** [arr[i]] of an array of numbers *)
Definition at_order (siblingOrders : list Value) (i : Z) : Value :=
  match js_index siblingOrders i with
  | Some v => v
  | None => VUndefined
  end.

(** [getParentOrder(yStore, parentId, position)] *)
Definition getParentOrder (yStore : YStore) (parentId : Value) (position : Z) : Value :=
  let siblings := getYChildren yStore parentId in
  let siblingOrders := map (fun yChild => field_get yChild "parent:order") siblings in
  if js_length siblingOrders =? 0 then VNum 0
  else if position =? 0 then js_sub (at_order siblingOrders 0) (VNum 1)
  else if js_length siblingOrders <=? position then
    js_add (at_order siblingOrders (js_length siblingOrders - 1)) (VNum 1)
  else
    js_div (js_add (at_order siblingOrders (position - 1)) (at_order siblingOrders position))
           (VNum 2).

(** [yObjToObj(store, yObj)] *)
Definition yObjToObj (s : Store) (yStore : YStore) (yObj : YRef) : Store * loc :=
  createFromJson s (fields_of yStore yObj).

(** [objToYObj(yStore, obj)] *)
Definition objToYObj (s : Store) (yStore : YStore) (obj : loc) : YObj :=
  let yObj :=
    fold_left (fun yObj kv => ymap_set yObj (fst kv) (snd kv)) (obj_json (deref s obj)) [] in
  match obj_parent (deref s obj) with
  | Some parent =>
      let position := indexOf (obj_children (deref s parent)) obj in
      let order := getParentOrder yStore (VStr (obj_id (deref s parent))) position in
      ymap_set yObj "parent:order" order
  | None => yObj
  end.

(** [setParent(store, yStore, obj, parentId, parentOrder)] *)
Definition setParent (s : Store) (yStore : YStore) (obj : loc)
    (parentId parentOrder : Value) : Store :=
  (* remove from old parent *)
  let s1 :=
    match obj_parent (deref s obj) with
    | Some old =>
        if negb (strict_eq (VStr (obj_id (deref s old))) parentId) then
          update s old (fun po =>
            set_children (splice_delete1 (obj_children po) (indexOf (obj_children po) obj)) po)
        else s
    | None => s
    end in
  (* add to new parent *)
  if truthy parentId then
    match getById s1 parentId with
    | Some parent =>
        let s2 := update s1 obj (set_parent (Some parent)) in
        if indexOf (obj_children (deref s2 parent)) obj <? 0 then
          let siblings := getYChildren yStore parentId in
          let siblingOrders := map (fun yChild => field_get yChild "parent:order") siblings in
          let position := findIndex (fun o => js_ge o parentOrder) siblingOrders in
          if position <? 0 then
            update s2 parent (fun po => set_children (push (obj_children po) obj) po)
          else
            update s2 parent (fun po =>
              set_children (splice_insert (obj_children po) position obj) po)
        else s2
    | None => update s1 obj (set_parent None)
    end
  else update s1 obj (set_parent None).

(** One turn of the loop of [applyTransaction]. *)
Definition applyMutation (s : Store) (y : YStore) (mutation : Mutation) : Result YStore :=
  match mutation with
  | CREATE obj =>
      let yObj := objToYObj s y obj in
      mret (ymap_set y (obj_id (deref s obj)) yObj)
  | DELETE obj =>
      mret (ymap_delete y (obj_id (deref s obj)))
  | ASSIGN obj field _ newValue =>
      let yObj := ystore_get y (obj_id (deref s obj)) in
      if defined yObj then yobj_set y yObj field newValue else mret y
  | ASSIGN_REF obj field _ newValue =>
      let yObj := ystore_get y (obj_id (deref s obj)) in
      if defined yObj && defined newValue then
        i ← id_of s newValue;
        yobj_set y yObj field (VStr i)
      else mret y
  | INSERT_CHILD parent obj position =>
      let yParent := ystore_get y (obj_id (deref s parent)) in
      let yObj := ystore_get y (obj_id (deref s obj)) in
      if defined yParent && defined yObj then
        y1 ← yobj_set y yObj "parent" (VStr (obj_id (deref s parent)));
        yobj_set y1 yObj "parent:order"
          (getParentOrder y1 (VStr (obj_id (deref s parent))) position)
      else mret y
  | REMOVE_CHILD parent obj _ =>
      let yParent := ystore_get y (obj_id (deref s parent)) in
      let yObj := ystore_get y (obj_id (deref s obj)) in
      if defined yParent && defined yObj then
        y1 ← yobj_delete y yObj "parent";
        yobj_delete y1 yObj "parent:order"
      else mret y
  | REORDER_CHILD parent obj _ =>
      let yParent := ystore_get y (obj_id (deref s parent)) in
      let yObj := ystore_get y (obj_id (deref s obj)) in
      if defined yParent && defined yObj then mret y (* TODO: parent order *)
      else mret y
  end.

Definition applyTransaction (s : Store) (tx : Transaction) (y : YStore) : Result YStore :=
  if (js_length (mutations tx) =? 0) then mret y
  else for_up (length (mutations tx))
         (fun i y => at_index (mutations tx) i (applyMutation s y)) y.

(** One turn of the loop of [unapplyTransaction]. *)
Definition unapplyMutation (s : Store) (y : YStore) (mutation : Mutation) : Result YStore :=
  match mutation with
  | CREATE obj =>
      mret (ymap_delete y (obj_id (deref s obj)))
  | DELETE obj =>
      let yObj := objToYObj s y obj in
      mret (ymap_set y (obj_id (deref s obj)) yObj)
  | ASSIGN obj field oldValue _ =>
      let yObj := ystore_get y (obj_id (deref s obj)) in
      if defined yObj then yobj_set y yObj field oldValue else mret y
  | ASSIGN_REF obj field oldValue _ =>
      let yObj := ystore_get y (obj_id (deref s obj)) in
      if defined yObj && defined oldValue then
        i ← id_of s oldValue;
        yobj_set y yObj field (VStr i)
      else mret y
  | INSERT_CHILD parent obj _ =>
      let yParent := ystore_get y (obj_id (deref s parent)) in
      let yObj := ystore_get y (obj_id (deref s obj)) in
      if defined yParent && defined yObj then
        y1 ← yobj_delete y yObj "parent";
        yobj_delete y1 yObj "parent:order"
      else mret y
  | REMOVE_CHILD parent obj position =>
      let yParent := ystore_get y (obj_id (deref s parent)) in
      let yObj := ystore_get y (obj_id (deref s obj)) in
      if defined yParent && defined yObj then
        y1 ← yobj_set y yObj "parent" (VStr (obj_id (deref s parent)));
        yobj_set y1 yObj "parent:order"
          (getParentOrder y1 (VStr (obj_id (deref s parent))) position)
      else mret y
  | REORDER_CHILD parent obj _ =>
      let yParent := ystore_get y (obj_id (deref s parent)) in
      let yObj := ystore_get y (obj_id (deref s obj)) in
      if defined yParent && defined yObj then mret y (* TODO: parent order *)
      else mret y
  end.

Definition unapplyTransaction (s : Store) (tx : Transaction) (y : YStore) : Result YStore :=
  if (js_length (mutations tx) =? 0) then mret y
  else for_down (length (mutations tx))
         (fun i y => at_index (mutations tx) i (unapplyMutation s y)) y.

(** *** [applyYjsEvent] *)

Inductive KeyAction : Type := KAdd | KUpdate | KDelete.

Record YEvent : Type := mkEvent {
  (** [None] when the target is the replicated map itself *)
  target : option YRef;
  changes : list (string * KeyAction);
  keysChanged : list string
}.

(** The branch of [change.action === "add"].  The [onObjCreate] hook
    belongs to the rendering side and does not touch the store. *)
Definition onAdd (yStore : YStore) (s : Store) (key : string) : Result Store :=
  let yObj := ystore_get yStore key in
  if negb (defined (getById s (VStr key))) && defined yObj then
    r ← expect yObj;
    let '(s1, obj) := yObjToObj s yStore r in
    let s2 := resolveRefs s1 obj in
    let s3 := addToIndex s2 obj in
    parentId ← yobj_get yStore yObj "parent";
    parentOrder ← yobj_get yStore yObj "parent:order";
    mret (setParent s3 yStore obj parentId parentOrder)
  else mret s.

(** The branch of [change.action === "delete"]. *)
Definition onDelete (s : Store) (key : string) : Result Store :=
  let obj := getById s (VStr key) in
  s1 ← (if defined (parent_opt s obj) then
          o ← expect obj;
          p ← expect (obj_parent (deref s o));
          let s' := update s p (fun po =>
                      set_children
                        (splice_delete1 (obj_children po) (indexOf (obj_children po) o))
                        po) in
          mret (update s' o (set_parent None))
        else mret s);
  if defined obj then o ← expect obj; mret (removeFromIndex s1 o) else mret s1.

(** One changed key of the field map of entity [obj]. *)
Definition onFieldChanged (yStore : YStore) (obj : loc) (yObj : option YRef)
    (s : Store) (key : string) : Result Store :=
  if String.eqb key "parent" then
    parentId ← yobj_get yStore yObj "parent";
    parentOrder ← yobj_get yStore yObj "parent:order";
    mret (setParent s yStore obj parentId parentOrder)
  else if String.eqb key "head" || String.eqb key "tail" then
    value ← yobj_get yStore yObj key;
    if truthy value then mret (update s obj (set_ref key (getById s value)))
    else mret (update s obj (set_ref key None))
  else
    value ← yobj_get yStore yObj key;
    mret (update s obj (set_field key value)).

(** The branch of [change.action === "update"] for an event on the field
    map [t] of one entity. *)
Definition onUpdate (yStore : YStore) (t : YRef) (keys : list string) (s : Store)
  : Result Store :=
  let id := field_get (fields_of yStore t) "id" in
  let obj := getById s id in
  let yObj := ystore_get_v yStore id in
  if defined obj && defined yObj then
    o ← expect obj;
    forM (onFieldChanged yStore o yObj) keys s
  else mret s.

Definition applyYjsEvent (event : YEvent) (s : Store) (yStore : YStore) : Result Store :=
  match target event with
  | None =>
      forM (fun s ck =>
              match snd ck with
              | KAdd => onAdd yStore s (fst ck)
              | KDelete => onDelete s (fst ck)
              | KUpdate => mret s
              end) (changes event) s
  | Some t =>
      forM (fun s ck =>
              match snd ck with
              | KUpdate => onUpdate yStore t (keysChanged event) s
              | _ => mret s
              end) (changes event) s
  end.

End YjsUtils.

(* ------------------------------------------------------------------ *)
(** ** macro.ts: constraint resolution

    A resolver acts on the world: the transaction it emits mutations into
    and the fields of the graph these mutations edit.  The constraints of
    a shape and the shapes the traversal of the page visits are read from
    the page as it is handed to [resolveAllConstraints]. *)

Module Macro.

Record Constraint : Type := mkConstraint {
  cid : string;
  cargs : YObj
}.

Record Shape : Type := mkShape {
  shape_id : string;
  constraints : list Constraint
}.

(** The page and the shapes below it. *)
#[warnings="-register-all"]
Inductive Page : Type :=
| Node (shape : Shape) (children : list Page).

(** Modelled from the spec: [Obj.traverse] is declared outside the
    sources at hand; it visits a finite depth-first sequence of entities,
    here an entity before the entities below it. *)
Fixpoint traverse (page : Page) : list Shape :=
  match page with
  | Node shape children => shape :: flat_map traverse children
  end.

Section Engine.
(** What a resolver reads and writes: the transaction it emits
    mutations into together with the fields of the graph. *)
Variable World : Type.
(** The render context. *)
Variable Canvas : Type.

(** How a call of a resolver ends. *)
Inductive Outcome : Type :=
| Returned (w : World) (changed : bool)
| Thrown (w : World) (err : JsError).

Definition Resolver : Type := World -> Page -> Shape -> Canvas -> Constraint -> Outcome.

(** [constraintManager.get(id)], [undefined] for a name nobody
    registered. *)
Variable constraintManager : string -> option Resolver.

(** The console, and a record of every resolver call that returned. *)
Inductive Event : Type :=
| EvResolved (shape : Shape) (c : Constraint) (changed : bool)
| EvCaught (shape : Shape) (c : Constraint) (err : JsError)
| EvWarn (maxIteration : nat).

Record Run : Type := mkRun {
  world : World;
  events : list Event
}.

(** The body of the [try] block for one constraint. *)
Definition call (w : World) (page : Page) (shape : Shape) (canvas : Canvas)
    (c : Constraint) : Outcome :=
  match constraintManager (cid c) with
  | Some fn => fn w page shape canvas c
  | None => Thrown w (TypeError "fn is not a function")
  end.

(** One turn of [shape.constraints.forEach]. *)
Definition resolveOne (page : Page) (shape : Shape) (canvas : Canvas)
    (acc : Run * bool) (c : Constraint) : Run * bool :=
  let '(r, changed) := acc in
  match call (world r) page shape canvas c with
  | Returned w b => (mkRun w (events r ++ [EvResolved shape c b]), b || changed)
  | Thrown w err => (mkRun w (events r ++ [EvCaught shape c err]), changed)
  end.

Definition resolveShapeConstraints (r : Run) (page : Page) (shape : Shape)
    (canvas : Canvas) : Run * bool :=
  fold_left (resolveOne page shape canvas) (constraints shape) (r, false).

(** The callback handed to [page.traverse]. *)
Definition visit (page : Page) (canvas : Canvas) (acc : Run * bool) (s : Shape)
  : Run * bool :=
  let '(r, changed) := acc in
  let '(r', b) := resolveShapeConstraints r page s canvas in
  (r', b || changed).

(** One run of [page.traverse] inside the loop, [changed] being false
    when it starts. *)
Definition traversal (page : Page) (canvas : Canvas) (r : Run) : Run * bool :=
  fold_left (visit page canvas) (traverse page) (r, false).

Definition warn (maxIteration : nat) (r : Run) : Run :=
  mkRun (world r) (events r ++ [EvWarn maxIteration]).

(** The loop of [resolveAllConstraints] with [left] turns to go. *)
Fixpoint resolveLoop (page : Page) (canvas : Canvas) (maxIteration left : nat) (r : Run)
  : Run * bool :=
  match left with
  | O => (warn maxIteration r, true)
  | S left' =>
      let '(r', changed) := traversal page canvas r in
      if negb changed then (r', false)
      else resolveLoop page canvas maxIteration left' r'
  end.

Definition resolveAllConstraints (r : Run) (page : Page) (canvas : Canvas)
    (maxIteration : option nat) : Run * bool :=
  let m := default 3%nat maxIteration in
  resolveLoop page canvas m m r.

(** The state after [k] traversals, and whether the traversal after
    them reports a change. *)
Fixpoint after (page : Page) (canvas : Canvas) (k : nat) (r : Run) : Run :=
  match k with
  | O => r
  | S k' => after page canvas k' (fst (traversal page canvas r))
  end.

Definition changed_at (page : Page) (canvas : Canvas) (k : nat) (r : Run) : bool :=
  snd (traversal page canvas (after page canvas k r)).

(** The shape and constraint a resolver event is about. *)
Definition event_key (e : Event) : option (Shape * Constraint) :=
  match e with
  | EvResolved s c _ => Some (s, c)
  | EvCaught s c _ => Some (s, c)
  | EvWarn _ => None
  end.

(** The changed flag of a resolver call that returned. *)
Definition event_changed (e : Event) : bool :=
  match e with
  | EvResolved _ _ b => b
  | _ => false
  end.

(** Every constraint of every shape of the page, in traversal order. *)
Definition all_constraints (page : Page) : list (Shape * Constraint) :=
  flat_map (fun s => map (pair s) (constraints s)) (traverse page).

Definition outcome_world (o : Outcome) : World :=
  match o with
  | Returned w _ => w
  | Thrown w _ => w
  end.

(** The contract of a resolver: it reports a change whenever it
    emitted one, and emits none when it throws. *)
Definition honest : Prop :=
  forall name fn, constraintManager name = Some fn ->
  forall w page shape canvas c,
    match fn w page shape canvas c with
    | Returned w' false => w' = w
    | Returned _ true => True
    | Thrown w' _ => w' = w
    end.

(** *** The claims' words

    "Every constraint is invoked, in order, with the transaction and the
    graph as the constraint before left them, whether that one returned or
    threw; the answer is the or of the flags of the resolvers that
    completed."  One attempt and their sequence over the constraints [scs],
    each listed with its shape, written on the world and the registry
    alone.  A name nobody registered counts as a resolver that throws at
    once. *)
Definition spec_attempt (page : Page) (canvas : Canvas) (acc : World * bool)
    (sc : Shape * Constraint) : World * bool :=
  let '(w, changed) := acc in
  match constraintManager (cid (snd sc)) with
  | Some fn =>
      match fn w page (fst sc) canvas (snd sc) with
      | Returned w' b => (w', b || changed)
      | Thrown w' _ => (w', changed)
      end
  | None => (w, changed)
  end.

Definition spec_attempts (page : Page) (canvas : Canvas) (scs : list (Shape * Constraint))
    (w : World) : World * bool :=
  fold_left (spec_attempt page canvas) scs (w, false).

End Engine.

Arguments Returned {World}.
Arguments Thrown {World}.
Arguments mkRun {World}.
Arguments world {World}.
Arguments events {World}.
Arguments call {World Canvas}.
Arguments resolveOne {World Canvas}.
Arguments resolveShapeConstraints {World Canvas}.
Arguments visit {World Canvas}.
Arguments traversal {World Canvas}.
Arguments warn {World}.
Arguments resolveLoop {World Canvas}.
Arguments resolveAllConstraints {World Canvas}.
Arguments after {World Canvas}.
Arguments changed_at {World Canvas}.
Arguments outcome_world {World}.
Arguments honest {World Canvas}.
Arguments spec_attempt {World Canvas}.
Arguments spec_attempts {World Canvas}.

(** A registry with one resolver, which never asks for a change, and a
    page of one shape that uses it. *)
Definition fit_registry (name : string) : option (Resolver nat unit) :=
  if String.eqb name "fit" then Some (fun w _ _ _ _ => Returned w false) else None.

Definition one_shape_page : Page :=
  Node (mkShape "page" [mkConstraint "fit" []]) [].

Definition fit_start : Run nat := mkRun 0%nat [].
Definition fit_settled : Run nat :=
  fst (traversal fit_registry one_shape_page tt fit_start).

(** A registry whose one resolver breaks the contract: in the world 0 it
    edits (the world becomes 1) and reports no change; in every other
    world it edits and reports it. *)
Definition sneaky_registry (name : string) : option (Resolver nat unit) :=
  if String.eqb name "sneaky"
  then Some (fun w _ _ _ _ => if Nat.eqb w 0 then Returned 1%nat false else Returned (S w) true)
  else None.

Definition sneaky_page : Page :=
  Node (mkShape "page" [mkConstraint "sneaky" []]) [].


End Macro.


(* ------------------------------------------------------------------ *)
(** ** Concrete stores and edits *)

Module Scenario.

Definition jsonOf (i : string) : YObj := [("id", VStr i); ("type", VStr "Rectangle")].

Definition ob (i : string) (p : option loc) (c : list loc) : Obj :=
  mkObj i p c (jsonOf i) [].

(** The store that holds [objs] at the locations 0, 1, ... and indexes
    each of them under its id. *)
Definition store_of (objs : list Obj) : Store :=
  mkStore (list_to_map (imap (fun l o => (l, o)) objs))
          (list_to_map (imap (fun l o => (obj_id o, l)) objs))
          (length objs).

(** The ids of the children of the object at [l], in order. *)
Definition child_ids (s : Store) (l : loc) : list string :=
  map (fun c => obj_id (deref s c)) (obj_children (deref s l)).

(** The order key the replicated map holds for the entity [i]. *)
Definition order_of (y : YStore) (i : string) : Value :=
  field_get (fields_of y i) "parent:order".

(** A replicated map that holds the parent [P] only. *)
Definition y_P : YStore := [("P", jsonOf "P")].

(** A page [P] with one rectangle [A], and a field edit on [A]. *)
Definition s_PA : Store := store_of [ob "P" None [1%nat]; ob "A" (Some 0%nat) []].
Definition y_PA : YStore :=
  [("P", jsonOf "P");
   ("A", jsonOf "A" ++ [("parent", VStr "P"); ("parent:order", VNum 0); ("width", VNum 10)])].

(** *** A reparent seen from a remote peer

    [X] sits under [P1]; the replicated map already names [P2] as its
    parent, and the change of the field [parent] is about to be
    observed. *)
Definition s_reparent : Store :=
  store_of [ob "P1" None [2%nat]; ob "P2" None []; ob "X" (Some 0%nat) []].
Definition y_reparent : YStore :=
  [("P1", jsonOf "P1"); ("P2", jsonOf "P2");
   ("X", jsonOf "X" ++ [("parent", VStr "P2"); ("parent:order", VNum 0)])].

(** *** Three insertions under one parent, on the editing peer

    [B] is added to the empty [P], then [A] in front of it, then [X]
    between the two: the children are [B], then [A; B], then [A; X; B].
    The store is the one the editor holds when the listener runs, with the
    transaction applied. *)
Definition s_B : Store := store_of [ob "P" None [1%nat]; ob "B" (Some 0%nat) []].
Definition s_AB : Store :=
  store_of [ob "P" None [2%nat; 1%nat]; ob "B" (Some 0%nat) []; ob "A" (Some 0%nat) []].
Definition s_AXB : Store :=
  store_of [ob "P" None [2%nat; 3%nat; 1%nat]; ob "B" (Some 0%nat) [];
            ob "A" (Some 0%nat) []; ob "X" (Some 0%nat) []].
Definition add_B : Transaction := mkTx [CREATE 1%nat; INSERT_CHILD 0%nat 1%nat 0].
Definition add_A_front : Transaction := mkTx [CREATE 2%nat; INSERT_CHILD 0%nat 2%nat 0].
Definition add_X_between : Transaction := mkTx [CREATE 3%nat; INSERT_CHILD 0%nat 3%nat 1].

(** The store of a peer that holds [P] only. *)
Definition s_P : Store := store_of [ob "P" None []].

(** *** Three siblings with the keys 0, 1, 2 and a fourth at position 1 *)
Definition y_three : YStore :=
  [("P", jsonOf "P");
   ("A", jsonOf "A" ++ [("parent", VStr "P"); ("parent:order", VNum 0)]);
   ("B", jsonOf "B" ++ [("parent", VStr "P"); ("parent:order", VNum 1)]);
   ("C", jsonOf "C" ++ [("parent", VStr "P"); ("parent:order", VNum 2)])].
Definition y_between : YStore :=
  y_three ++ [("X", jsonOf "X" ++ [("parent", VStr "P")])].
Definition s_between : Store :=
  store_of [ob "P" None [1%nat; 4%nat; 2%nat; 3%nat]; ob "A" (Some 0%nat) [];
            ob "B" (Some 0%nat) []; ob "C" (Some 0%nat) []; ob "X" (Some 0%nat) []].
Definition add_between : Transaction := mkTx [CREATE 4%nat; INSERT_CHILD 0%nat 4%nat 1].

(** *** An insertion in front and one at the end

    [A] is added to the empty [P], then [X] in front of it, then [Z] at
    the end: the children are [A], then [X; A], then [X; A; Z]. *)
Definition s_A : Store := store_of [ob "P" None [1%nat]; ob "A" (Some 0%nat) []].
Definition s_XA : Store :=
  store_of [ob "P" None [2%nat; 1%nat]; ob "A" (Some 0%nat) []; ob "X" (Some 0%nat) []].
Definition s_XAZ : Store :=
  store_of [ob "P" None [2%nat; 1%nat; 3%nat]; ob "A" (Some 0%nat) [];
            ob "X" (Some 0%nat) []; ob "Z" (Some 0%nat) []].
Definition add_A : Transaction := mkTx [CREATE 1%nat; INSERT_CHILD 0%nat 1%nat 0].

(** *** An insertion at the end

    [A] is added to the empty [P], then [B] behind it: the children are
    [A], then [A; B]. *)
Definition s_A_B : Store :=
  store_of [ob "P" None [1%nat; 2%nat]; ob "A" (Some 0%nat) []; ob "B" (Some 0%nat) []].
Definition add_B_end : Transaction := mkTx [CREATE 2%nat; INSERT_CHILD 0%nat 2%nat 1].
Definition add_X_front : Transaction := mkTx [CREATE 2%nat; INSERT_CHILD 0%nat 2%nat 0].
Definition add_Z_end : Transaction := mkTx [CREATE 3%nat; INSERT_CHILD 0%nat 3%nat 2].

End Scenario.

(* ------------------------------------------------------------------ *)
(** ** Vocabulary of the statements *)

(** The ids of the entities a mutation is about. *)
Definition involved (s : Store) (m : Mutation) : list string :=
  match m with
  | CREATE obj | DELETE obj => [obj_id (deref s obj)]
  | ASSIGN obj _ _ _ | ASSIGN_REF obj _ _ _ => [obj_id (deref s obj)]
  | INSERT_CHILD parent obj _ | REMOVE_CHILD parent obj _ | REORDER_CHILD parent obj _ =>
      [obj_id (deref s parent); obj_id (deref s obj)]
  end.

(** The mutations that add or drop the entry of the entity itself. *)
Definition keyed (m : Mutation) : bool :=
  match m with
  | CREATE _ | DELETE _ => true
  | _ => false
  end.

(** "Every branch checks that the replicated map has an entry for every
    entity involved and otherwise skips the mutation." *)
Definition guarded (step : Store -> YStore -> Mutation -> Result YStore) : Prop :=
  forall s y m,
    (exists i, In i (involved s m) /\ ymap_has y i = false) -> step s y m = Ok y.

(** "[parent.children] contains [child] if and only if
    [child.parent == parent]", for all objects. *)
Definition parent_children_inv (s : Store) : Prop :=
  forall p c, List.In c (obj_children (deref s p)) <-> obj_parent (deref s c) = Some p.

(** No object is listed twice among the children of another. *)
Definition children_nodup (s : Store) : Prop :=
  forall p, List.NoDup (obj_children (deref s p)).

(** Every parent reference leads to the entity the index holds under the
    id of that parent, and no indexed id is the empty string. *)
Definition parents_indexed (s : Store) : Prop :=
  (forall c p, obj_parent (deref s c) = Some p ->
               idIndex s !! obj_id (deref s p) = Some p) /\
  (forall k l, idIndex s !! k = Some l -> obj_id (deref s l) = k /\ k <> "").

(** The first half of [setParent]: the store once the object is taken
    out of the children of a parent whose id is not [parentId]. *)
Definition setParent_detach (s : Store) (obj : loc) (parentId : Value) : Store :=
  match obj_parent (deref s obj) with
  | Some old =>
      if negb (strict_eq (VStr (obj_id (deref s old))) parentId) then
        update s old (fun po =>
          set_children (splice_delete1 (obj_children po) (indexOf (obj_children po) obj)) po)
      else s
  | None => s
  end.

(** That first half did take the object out of its old parent. *)
Definition detached (s : Store) (obj : loc) (parentId : Value) : Prop :=
  exists old, obj_parent (deref s obj) = Some old /\
              strict_eq (VStr (obj_id (deref s old))) parentId = false.

(** Where [setParent] puts an object among the children [l] of its new
    parent. *)
Definition setParent_place (yStore : YStore) (parentId parentOrder : Value)
    (l : list loc) (obj : loc) : list loc :=
  let position :=
    findIndex (fun o => js_ge o parentOrder)
      (map (fun yChild => field_get yChild "parent:order") (getYChildren yStore parentId)) in
  if position <? 0 then push l obj else splice_insert l position obj.

(* ------------------------------------------------------------------ *)
(** ** Values [Y.Map.set] rejects

    [Value] holds values a [Y.Map] stores, and the [oldValue] and
    [newValue] of an [ASSIGN] above are such values.  A field of an entity
    can hold any JavaScript value, and [Y.Map.set] throws
    [Error("Unexpected content type")] for one it cannot encode (a
    function, a symbol, an instance of a class that is not a shared
    type). *)
Inductive JsValue : Type :=
| Stored (v : Value)
| Rejected.

(** [yObj.set(k, v)] for any JavaScript value *)
Definition yobj_set_any (y : YStore) (yObj : option YRef) (k : string) (v : JsValue)
  : Result YStore :=
  match v with
  | Stored v => yobj_set y yObj k v
  | Rejected =>
      match yObj with
      | Some _ => Throw (GenericError "Unexpected content type")
      | None => Throw (TypeError "set of undefined")
      end
  end.

(** The ASSIGN branch of [applyTransaction], with [mut.newValue] for
    [value], and of [unapplyTransaction], with [mut.oldValue]; the branch
    reads the same in the two modules. *)
Definition assignBranch (s : Store) (y : YStore) (obj : loc) (field : string)
    (value : JsValue) : Result YStore :=
  let yObj := ystore_get y (obj_id (deref s obj)) in
  if defined yObj then yobj_set_any y yObj field value else mret y.

(* ------------------------------------------------------------------ *)
(** ** plugin-yjs-sync.ts: [synchronize] *)

(** [synchronize()].  [keys] is the enumeration that
    [for (const key in store.idIndex)] goes through; [store.idIndex[key]]
    is the entity the index holds under [key]. *)
Definition synchronize (s : Store) (keys : list string) (y : YStore) : Result YStore :=
  forM (fun y key =>
          obj ← expect (idIndex s !! key);
          mret (ymap_set y key (YjsSyncPlugin.objToYMap (deref s obj))))
       keys y.

(** The entity a mutation edits: [mutation.obj]. *)
Definition subject (m : Mutation) : loc :=
  match m with
  | CREATE obj | DELETE obj => obj
  | ASSIGN obj _ _ _ | ASSIGN_REF obj _ _ _ => obj
  | INSERT_CHILD _ obj _ | REMOVE_CHILD _ obj _ | REORDER_CHILD _ obj _ => obj
  end.

(** A step of an encoder for a mutation other than CREATE and DELETE
    either leaves the replicated map alone or replaces the field map of
    the entity the mutation edits, whose entry is there. *)
Definition entry_step (s : Store) (y : YStore) (m : Mutation) (r : Result YStore) : Prop :=
  r = Ok y \/
  exists f, r = Ok (ymap_set y (obj_id (deref s (subject m))) f) /\
            ymap_has y (obj_id (deref s (subject m))) = true.


(** The replicated map a run [r] of an encoder over [tx] returns, if it
    returns one, against the map [y] it started from: the keys are those
    of [y] in the same order, and the entry of every entity no mutation of
    [tx] edits is the one of [y]. *)
Definition keeps_entries (s : Store) (tx : Transaction) (y : YStore) (r : Result YStore)
  : Prop :=
  forall y',
    r = Ok y' ->
    map fst y' = map fst y /\
    forall k, ~ List.In k (map (fun m => obj_id (deref s (subject m))) (mutations tx)) ->
              ymap_get y' k = ymap_get y k.


(** The id [createFromJson] gives the entity it decodes. *)
Definition json_id (json : YObj) : string :=
  match field_get json "id" with VStr i => i | _ => "" end.

(** The first half of the two handlers of an added key: the store once
    the entity decoded from [json] has its references resolved and is
    indexed. *)
Definition decoded (s : Store) (json : YObj) : Store :=
  let '(s1, obj) := createFromJson s json in
  addToIndex (resolveRefs s1 obj) obj.

(** No entity and no index entry refers to the location [l]. *)
Definition unused (s : Store) (l : loc) : Prop :=
  obj_parent (deref s l) = None /\
  (forall c, obj_parent (deref s c) <> Some l) /\
  (forall k, idIndex s !! k <> Some l).

(** Two order keys IEEE doubles hold exactly, with room for their sum:
    [n / 2^j] and [m / 2^j] with [j] at most 52 and numerators of magnitude
    at most 2^52.  The sum and the difference of two such keys have a
    numerator of magnitude at most 2^53 over [2^j], and half of the sum has
    this numerator over [2^(j+1)]; doubles hold all of these exactly, so
    that on such keys the exact arithmetic of the embedding is the
    arithmetic of the code.  Beside a key [n / 2^j] of this kind the
    number 1 is [2^j / 2^j]. *)
Definition exact_keys (a b : Q) : Prop :=
  exists (n m : Z) (j : nat),
    (j <= 52)%nat /\ Z.abs n <= 2 ^ 52 /\ Z.abs m <= 2 ^ 52 /\
    (a == inject_Z n / inject_Z (2 ^ Z.of_nat j))%Q /\
    (b == inject_Z m / inject_Z (2 ^ Z.of_nat j))%Q.

(** The index, the ids and the tree are in [s'] what they are in [s]. *)
Definition same_tree (s s' : Store) : Prop :=
  idIndex s' = idIndex s /\
  forall c, obj_id (deref s' c) = obj_id (deref s c) /\
            obj_parent (deref s' c) = obj_parent (deref s c) /\
            obj_children (deref s' c) = obj_children (deref s c).

(** What the console shows for a constraint whose name nobody
    registered: the call of [undefined] is a [TypeError], which is caught. *)
Definition caught (sc : Macro.Shape * Macro.Constraint) : Macro.Event :=
  Macro.EvCaught (fst sc) (snd sc) (TypeError "fn is not a function").

(* ------------------------------------------------------------------ *)
(** ** macro.ts: the z-order macros

    [tx.reorderChild] is declared outside the sources at hand; the macros
    are read over any transaction state [Tx] and any [reorderChild] that
    takes the parent, the child and the position asked for and reports
    whether it changed something. *)

Module ZOrder.
Section Macros.
Variable Tx : Type.
Variable reorderChild : Tx -> loc -> loc -> Z -> Tx * bool.

(** [bringToFront(tx, shape)] *)
Definition bringToFront (s : Store) (tx : Tx) (shape : loc) : Tx * bool :=
  match obj_parent (deref s shape) with
  | Some parent =>
      let len := js_length (obj_children (deref s parent)) in
      let '(tx', b) := reorderChild tx parent shape (len - 1) in
      (tx', b || false)
  | None => (tx, false)
  end.

(** [sendToBack(tx, shape)] *)
Definition sendToBack (s : Store) (tx : Tx) (shape : loc) : Tx * bool :=
  match obj_parent (deref s shape) with
  | Some parent =>
      let '(tx', b) := reorderChild tx parent shape 0 in
      (tx', b || false)
  | None => (tx, false)
  end.

(** [bringForward(tx, shape)]: [changed] is a constant. *)
Definition bringForward (s : Store) (tx : Tx) (shape : loc) : Tx * bool :=
  match obj_parent (deref s shape) with
  | Some parent =>
      let len := js_length (obj_children (deref s parent)) in
      let pos := indexOf (obj_children (deref s parent)) shape in
      if pos <? len - 1 then (fst (reorderChild tx parent shape (pos + 1)), false)
      else (tx, false)
  | None => (tx, false)
  end.

(** [sendBackward(tx, shape)]: [changed] is a constant. *)
Definition sendBackward (s : Store) (tx : Tx) (shape : loc) : Tx * bool :=
  match obj_parent (deref s shape) with
  | Some parent =>
      let pos := indexOf (obj_children (deref s parent)) shape in
      if 0 <? pos then (fst (reorderChild tx parent shape (pos - 1)), false)
      else (tx, false)
  | None => (tx, false)
  end.
End Macros.

Arguments bringToFront {Tx}.
Arguments sendToBack {Tx}.
Arguments bringForward {Tx}.
Arguments sendBackward {Tx}.
End ZOrder.


(* ================================================================== *)
(** * Properties *)

(** ** Constraint resolution *)

Module MacroProps.
Import Macro.

Section Engine.
Context {World Canvas : Type}.
Variable cm : string -> option (Resolver World Canvas).


(** One constraint adds exactly one event, about this constraint, and
    the flag grows by the flag of a call that returned. *)
Lemma resolveOne_spec page shape canvas r changed c :
  exists e w,
    fst (resolveOne cm page shape canvas (r, changed) c) = mkRun w (events r ++ [e]) /\
    event_key e = Some (shape, c) /\
    snd (resolveOne cm page shape canvas (r, changed) c) = event_changed e || changed.
Proof.
  unfold resolveOne.
  destruct (call cm (world r) page shape canvas c) as [w b | w err];
    eexists; eexists; simpl; eauto.
Qed.

Lemma fold_resolveOne_spec page shape canvas cs : forall r changed,
  exists evs,
    events (fst (fold_left (resolveOne cm page shape canvas) cs (r, changed)))
      = events r ++ evs /\
    omap event_key evs = map (pair shape) cs /\
    length evs = length cs /\
    snd (fold_left (resolveOne cm page shape canvas) cs (r, changed))
      = existsb event_changed evs || changed.
Proof.
  induction cs as [| c cs IH]; intros r changed; cbn [fold_left].
  - exists []. rewrite app_nil_r. auto.
  - destruct (resolveOne_spec page shape canvas r changed c) as (e & w & He & Hk & Hc).
    destruct (resolveOne cm page shape canvas (r, changed) c) as [r1 ch1].
    cbn [fst snd] in He, Hc. subst r1 ch1.
    destruct (IH (mkRun w (events r ++ [e])) (event_changed e || changed))
      as (evs & H1 & H2 & H3 & H4).
    exists (e :: evs). rewrite H1, H4. cbn [events omap list_omap map length existsb].
    rewrite Hk, H2, H3. rewrite <- app_assoc.
    repeat split; auto.
    destruct (event_changed e), (existsb event_changed evs), changed; reflexivity.
Qed.

Lemma resolveShapeConstraints_spec r page shape canvas :
  exists evs,
    events (fst (resolveShapeConstraints cm r page shape canvas)) = events r ++ evs /\
    omap event_key evs = map (pair shape) (constraints shape) /\
    length evs = length (constraints shape) /\
    snd (resolveShapeConstraints cm r page shape canvas) = existsb event_changed evs.
Proof.
  unfold resolveShapeConstraints.
  destruct (fold_resolveOne_spec page shape canvas (constraints shape) r false)
    as (evs & H1 & H2 & H3 & H4).
  exists evs. rewrite orb_false_r in H4. auto.
Qed.

Lemma resolveShapeConstraints_world r page shape canvas :
  world (fst (resolveShapeConstraints cm r page shape canvas))
    = fold_left (fun w c => outcome_world (call cm w page shape canvas c))
        (constraints shape) (world r).
Proof.
  unfold resolveShapeConstraints.
  generalize false. revert r.
  induction (constraints shape) as [| c cs IH]; intros r changed; cbn [fold_left].
  - reflexivity.
  - unfold resolveOne at 2.
    destruct (call cm (world r) page shape canvas c) as [w b | w err];
      rewrite IH; reflexivity.
Qed.

Lemma fold_visit_spec page canvas shapes : forall r changed,
  exists evs,
    events (fst (fold_left (visit cm page canvas) shapes (r, changed))) = events r ++ evs /\
    omap event_key evs = flat_map (fun s => map (pair s) (constraints s)) shapes /\
    length evs = length (flat_map (fun s => map (pair s) (constraints s)) shapes) /\
    snd (fold_left (visit cm page canvas) shapes (r, changed))
      = existsb event_changed evs || changed.
Proof.
  induction shapes as [| s shapes IH]; intros r changed; cbn [fold_left].
  - exists []. rewrite app_nil_r. auto.
  - unfold visit at 2 4.
    destruct (resolveShapeConstraints_spec r page s canvas) as (e1 & H1 & H2 & H3 & H4).
    destruct (resolveShapeConstraints cm r page s canvas) as [r1 b].
    cbn [fst snd] in H1, H4.
    destruct (IH r1 (b || changed)) as (e2 & G1 & G2 & G3 & G4).
    exists (e1 ++ e2). rewrite G1, G4, H1, H4, <- app_assoc.
    rewrite omap_app, H2, G2, existsb_app. cbn [flat_map].
    rewrite !length_app, length_map, H3, G3.
    repeat split; auto.
    destruct (existsb event_changed e1), (existsb event_changed e2), changed; reflexivity.
Qed.

(** One traversal attempts every constraint of every shape of the
    page, whatever the earlier resolvers did, and reports the
    disjunction of the flags of the calls that returned. *)
Lemma traversal_spec page canvas r :
  exists evs,
    events (fst (traversal cm page canvas r)) = events r ++ evs /\
    omap event_key evs = all_constraints page /\
    length evs = length (all_constraints page) /\
    snd (traversal cm page canvas r) = existsb event_changed evs.
Proof.
  unfold traversal, all_constraints.
  destruct (fold_visit_spec page canvas (traverse page) r false) as (evs & H1 & H2 & H3 & H4).
  exists evs. rewrite orb_false_r in H4. auto.
Qed.

Lemma after_S page canvas k : forall r,
  after cm page canvas (S k) r = fst (traversal cm page canvas (after cm page canvas k r)).
Proof.
  induction k as [| k IH]; intros r.
  - reflexivity.
  - change (after cm page canvas (S (S k)) r)
      with (after cm page canvas (S k) (fst (traversal cm page canvas r))).
    rewrite IH. reflexivity.
Qed.

Lemma resolveLoop_spec page canvas m : forall left r,
  exists k, (k <= left)%nat /\
    (forall j, (S j < k)%nat -> changed_at cm page canvas j r = true) /\
    ((snd (resolveLoop cm page canvas m left r) = false /\ (0 < k)%nat /\
      changed_at cm page canvas (k - 1) r = false /\
      fst (resolveLoop cm page canvas m left r) = after cm page canvas k r)
     \/
     (snd (resolveLoop cm page canvas m left r) = true /\ k = left /\
      (forall j, (j < left)%nat -> changed_at cm page canvas j r = true) /\
      fst (resolveLoop cm page canvas m left r) = warn m (after cm page canvas left r))).
Proof.
  induction left as [| left IH]; intros r.
  - exists O. split; [lia |]. split; [intros; lia |].
    right. cbn. repeat split; auto. intros; lia.
  - cbn [resolveLoop].
    destruct (traversal cm page canvas r) as [r1 ch] eqn:E.
    destruct ch; cbn [negb].
    + destruct (IH r1) as (k & Hk & Hpre & Hcase).
      assert (Hshift : forall j, changed_at cm page canvas (S j) r = changed_at cm page canvas j r1).
      { intros j. unfold changed_at. cbn [after]. rewrite E. reflexivity. }
      assert (H0 : changed_at cm page canvas 0 r = true).
      { unfold changed_at. cbn [after]. rewrite E. reflexivity. }
      assert (Hafter : forall j, after cm page canvas (S j) r = after cm page canvas j r1).
      { intros j. cbn [after]. rewrite E. reflexivity. }
      exists (S k). split; [lia |]. split.
      { intros [| j] Hj; [exact H0 |]. rewrite Hshift. apply Hpre. lia. }
      destruct Hcase as [(Hs & Hpos & Hch & Hf) | (Hs & Hkl & Hall & Hf)].
      * left. repeat split; auto; try lia.
        -- destruct k as [| k']; [lia |].
           replace (S (S k') - 1)%nat with (S k') by lia.
           rewrite Hshift. replace (S k' - 1)%nat with k' in Hch by lia. exact Hch.
        -- rewrite Hafter. exact Hf.
      * right. repeat split; auto; try lia.
        -- intros [| j] Hj; [exact H0 |]. rewrite Hshift. apply Hall. lia.
        -- rewrite Hafter. exact Hf.
    + exists 1%nat. split; [lia |]. split; [intros; lia |].
      left. cbn [fst snd]. repeat split; auto.
      * unfold changed_at. cbn. rewrite E. reflexivity.
      * cbn. rewrite E. reflexivity.
Qed.

(** What a traversal does to the world and which flag it reports
    depend on the world alone, not on the console. *)
Lemma resolveOne_world page shape canvas r1 r2 changed c :
  world r1 = world r2 ->
  world (fst (resolveOne cm page shape canvas (r1, changed) c))
    = world (fst (resolveOne cm page shape canvas (r2, changed) c)) /\
  snd (resolveOne cm page shape canvas (r1, changed) c)
    = snd (resolveOne cm page shape canvas (r2, changed) c).
Proof.
  intros Hw. unfold resolveOne. rewrite Hw.
  destruct (call cm (world r2) page shape canvas c); cbn; auto.
Qed.

Lemma fold_resolveOne_world page shape canvas cs : forall r1 r2 changed,
  world r1 = world r2 ->
  world (fst (fold_left (resolveOne cm page shape canvas) cs (r1, changed)))
    = world (fst (fold_left (resolveOne cm page shape canvas) cs (r2, changed))) /\
  snd (fold_left (resolveOne cm page shape canvas) cs (r1, changed))
    = snd (fold_left (resolveOne cm page shape canvas) cs (r2, changed)).
Proof.
  induction cs as [| c cs IH]; intros r1 r2 changed Hw; cbn [fold_left].
  - auto.
  - destruct (resolveOne_world page shape canvas r1 r2 changed c Hw) as [H1 H2].
    destruct (resolveOne cm page shape canvas (r1, changed) c) as [a1 b1].
    destruct (resolveOne cm page shape canvas (r2, changed) c) as [a2 b2].
    cbn [fst snd] in H1, H2. subst b2. apply IH. exact H1.
Qed.

Lemma fold_visit_world page canvas shapes : forall r1 r2 changed,
  world r1 = world r2 ->
  world (fst (fold_left (visit cm page canvas) shapes (r1, changed)))
    = world (fst (fold_left (visit cm page canvas) shapes (r2, changed))) /\
  snd (fold_left (visit cm page canvas) shapes (r1, changed))
    = snd (fold_left (visit cm page canvas) shapes (r2, changed)).
Proof.
  induction shapes as [| s shapes IH]; intros r1 r2 changed Hw; cbn [fold_left].
  - auto.
  - unfold visit at 2 4 6 8. unfold resolveShapeConstraints.
    destruct (fold_resolveOne_world page s canvas (constraints s) r1 r2 false Hw)
      as [H1 H2].
    destruct (fold_left (resolveOne cm page s canvas) (constraints s) (r1, false)) as [a1 b1].
    destruct (fold_left (resolveOne cm page s canvas) (constraints s) (r2, false)) as [a2 b2].
    cbn [fst snd] in H1, H2. subst b2. apply IH. exact H1.
Qed.

Lemma traversal_world page canvas r1 r2 :
  world r1 = world r2 ->
  world (fst (traversal cm page canvas r1)) = world (fst (traversal cm page canvas r2)) /\
  snd (traversal cm page canvas r1) = snd (traversal cm page canvas r2).
Proof. apply fold_visit_world. Qed.

(** Under the resolver contract a step that leaves the flag false
    has left the world alone. *)
Lemma resolveOne_unchanged page shape canvas r changed c :
  honest cm ->
  snd (resolveOne cm page shape canvas (r, changed) c) = false ->
  changed = false /\ world (fst (resolveOne cm page shape canvas (r, changed) c)) = world r.
Proof.
  intros Hh. unfold resolveOne, call.
  destruct (cm (cid c)) as [fn |] eqn:Hfn.
  - specialize (Hh _ _ Hfn (world r) page shape canvas c).
    destruct (fn (world r) page shape canvas c) as [w b | w err]; cbn.
    + intros Hb. apply orb_false_iff in Hb as [-> ->]. auto.
    + intros ->. auto.
  - cbn. intros ->. auto.
Qed.

Lemma fold_resolveOne_unchanged page shape canvas cs : forall r changed,
  honest cm ->
  snd (fold_left (resolveOne cm page shape canvas) cs (r, changed)) = false ->
  changed = false /\
  world (fst (fold_left (resolveOne cm page shape canvas) cs (r, changed))) = world r.
Proof.
  induction cs as [| c cs IH]; intros r changed Hh; cbn [fold_left].
  - cbn. auto.
  - intros Hf.
    pose proof (resolveOne_unchanged page shape canvas r changed c Hh) as Hstep.
    destruct (resolveOne cm page shape canvas (r, changed) c) as [r1 ch1].
    destruct (IH r1 ch1 Hh Hf) as [-> Hw].
    destruct (Hstep eq_refl) as [-> Hw1]. cbn [fst] in Hw1.
    rewrite Hw, Hw1. auto.
Qed.

Lemma fold_visit_unchanged page canvas shapes : forall r changed,
  honest cm ->
  snd (fold_left (visit cm page canvas) shapes (r, changed)) = false ->
  changed = false /\
  world (fst (fold_left (visit cm page canvas) shapes (r, changed))) = world r.
Proof.
  induction shapes as [| s shapes IH]; intros r changed Hh; cbn [fold_left].
  - cbn. auto.
  - unfold visit at 2 4. unfold resolveShapeConstraints.
    pose proof (fold_resolveOne_unchanged page s canvas (constraints s) r false Hh) as Hs.
    destruct (fold_left (resolveOne cm page s canvas) (constraints s) (r, false)) as [r1 b].
    intros Hf. destruct (IH r1 (b || changed) Hh Hf) as [Hb Hw].
    apply orb_false_iff in Hb as [-> ->].
    destruct (Hs eq_refl) as [_ Hw1]. cbn [fst] in Hw1.
    rewrite Hw, Hw1. auto.
Qed.

Lemma traversal_unchanged page canvas r :
  honest cm ->
  snd (traversal cm page canvas r) = false ->
  world (fst (traversal cm page canvas r)) = world r.
Proof. intros Hh Hf. apply (fold_visit_unchanged page canvas _ r false Hh Hf). Qed.

(** A run of the loop that ends with "no change" ends in a state the
    next traversal leaves alone. *)
Lemma resolveLoop_fixpoint page canvas m : forall left r r',
  honest cm ->
  resolveLoop cm page canvas m left r = (r', false) ->
  snd (traversal cm page canvas r') = false /\
  world (fst (traversal cm page canvas r')) = world r'.
Proof.
  induction left as [| left IH]; intros r r' Hh; cbn [resolveLoop].
  - intros [=].
  - destruct (traversal cm page canvas r) as [r1 ch] eqn:E.
    destruct ch; cbn [negb].
    + apply IH. exact Hh.
    + intros [= <-].
      assert (Hw : world r1 = world r).
      { pose proof (traversal_unchanged page canvas r Hh) as H.
        rewrite E in H. apply H. reflexivity. }
      destruct (traversal_world page canvas r1 r Hw) as [H1 H2].
      rewrite E in H1, H2. cbn [fst snd] in H1, H2. rewrite H1, H2. auto.
Qed.

(** ** The code against the claims' words

    What the nested loops do to the world, and the flag they report, is
    what the flat sequence of attempts gives: every registered resolver is
    called, in order, on the world the one before left. *)
Lemma resolveOne_attempt page shape canvas r changed c :
  (world (fst (resolveOne cm page shape canvas (r, changed) c)),
   snd (resolveOne cm page shape canvas (r, changed) c))
    = spec_attempt cm page canvas (world r, changed) (shape, c).
Proof.
  unfold resolveOne, call, spec_attempt. cbn [fst snd].
  destruct (cm (cid c)) as [fn |]; [| reflexivity].
  destruct (fn (world r) page shape canvas c); reflexivity.
Qed.

Lemma fold_resolveOne_attempts page shape canvas cs : forall r changed,
  (world (fst (fold_left (resolveOne cm page shape canvas) cs (r, changed))),
   snd (fold_left (resolveOne cm page shape canvas) cs (r, changed)))
    = fold_left (spec_attempt cm page canvas) (map (pair shape) cs) (world r, changed).
Proof.
  induction cs as [| c cs IH]; intros r changed; cbn [fold_left map].
  - reflexivity.
  - pose proof (resolveOne_attempt page shape canvas r changed c) as H.
    destruct (resolveOne cm page shape canvas (r, changed) c) as [r1 ch1].
    cbn [fst snd] in H. rewrite <- H. apply IH.
Qed.

Lemma spec_attempt_flag page canvas w changed sc :
  spec_attempt cm page canvas (w, changed) sc
    = (fst (spec_attempt cm page canvas (w, false) sc),
       snd (spec_attempt cm page canvas (w, false) sc) || changed).
Proof.
  unfold spec_attempt. destruct (cm (cid (snd sc))) as [fn |]; [| reflexivity].
  destruct (fn w page (fst sc) canvas (snd sc)) as [w' b | w' e]; cbn [fst snd].
  - rewrite orb_false_r. reflexivity.
  - reflexivity.
Qed.

Lemma spec_attempts_flag page canvas scs : forall w changed,
  fold_left (spec_attempt cm page canvas) scs (w, changed)
    = (fst (fold_left (spec_attempt cm page canvas) scs (w, false)),
       snd (fold_left (spec_attempt cm page canvas) scs (w, false)) || changed).
Proof.
  induction scs as [| sc scs IH]; intros w changed; cbn [fold_left].
  - reflexivity.
  - rewrite (spec_attempt_flag page canvas w changed sc).
    destruct (spec_attempt cm page canvas (w, false) sc) as [w1 f1]. cbn [fst snd].
    rewrite (IH w1 (f1 || changed)), (IH w1 f1). cbn [fst snd].
    rewrite orb_assoc. reflexivity.
Qed.

Lemma resolveShapeConstraints_attempts r page shape canvas :
  (world (fst (resolveShapeConstraints cm r page shape canvas)),
   snd (resolveShapeConstraints cm r page shape canvas))
    = spec_attempts cm page canvas (map (pair shape) (constraints shape)) (world r).
Proof. apply fold_resolveOne_attempts. Qed.

Lemma fold_visit_attempts page canvas shapes : forall r changed,
  (world (fst (fold_left (visit cm page canvas) shapes (r, changed))),
   snd (fold_left (visit cm page canvas) shapes (r, changed)))
    = fold_left (spec_attempt cm page canvas)
        (flat_map (fun s => map (pair s) (constraints s)) shapes) (world r, changed).
Proof.
  induction shapes as [| s shapes IH]; intros r changed; cbn [fold_left flat_map].
  - reflexivity.
  - rewrite fold_left_app. unfold visit at 2 4.
    pose proof (resolveShapeConstraints_attempts r page s canvas) as H.
    destruct (resolveShapeConstraints cm r page s canvas) as [r1 b].
    cbn [fst snd] in H. unfold spec_attempts in H.
    rewrite (spec_attempts_flag page canvas _ (world r) changed), <- H. cbn [fst snd].
    apply IH.
Qed.

Lemma traversal_attempts page canvas r :
  (world (fst (traversal cm page canvas r)), snd (traversal cm page canvas r))
    = spec_attempts cm page canvas (all_constraints page) (world r).
Proof. apply fold_visit_attempts. Qed.

(** C2: [resolveAllConstraints] runs at most [maxIteration] (3 when
    none is given) traversals of the page.  Each traversal calls the
    registered resolver of every constraint of every shape, in order, on
    the world the call before left, and reports the or of the flags
    returned.  The run returns "no change" right after the first traversal
    that reports none, without a warning; when all [maxIteration]
    traversals reported a change it appends the warning to the console,
    returns [true] and leaves the world as the last traversal left it. *)
Theorem resolveAllConstraints_bounded r page canvas maxIteration :
  resolveAllConstraints cm r page canvas None
    = resolveAllConstraints cm r page canvas (Some 3%nat) /\
  (forall r0,
      (world (fst (traversal cm page canvas r0)), snd (traversal cm page canvas r0))
        = spec_attempts cm page canvas (all_constraints page) (world r0)) /\
  (forall r0, exists evs,
      events (fst (traversal cm page canvas r0)) = events r0 ++ evs /\
      omap event_key evs = all_constraints page /\
      length evs = length (all_constraints page) /\
      snd (traversal cm page canvas r0) = existsb event_changed evs) /\
  exists k, (k <= default 3%nat maxIteration)%nat /\
    (forall j, (S j < k)%nat -> changed_at cm page canvas j r = true) /\
    ((snd (resolveAllConstraints cm r page canvas maxIteration) = false /\
      (0 < k)%nat /\
      changed_at cm page canvas (k - 1) r = false /\
      fst (resolveAllConstraints cm r page canvas maxIteration) = after cm page canvas k r)
     \/
     (snd (resolveAllConstraints cm r page canvas maxIteration) = true /\
      k = default 3%nat maxIteration /\
      (forall j, (j < default 3%nat maxIteration)%nat ->
                 changed_at cm page canvas j r = true) /\
      fst (resolveAllConstraints cm r page canvas maxIteration)
        = warn (default 3%nat maxIteration)
            (after cm page canvas (default 3%nat maxIteration) r) /\
      events (fst (resolveAllConstraints cm r page canvas maxIteration))
        = events (after cm page canvas (default 3%nat maxIteration) r)
            ++ [EvWarn (default 3%nat maxIteration)] /\
      world (fst (resolveAllConstraints cm r page canvas maxIteration))
        = world (after cm page canvas (default 3%nat maxIteration) r))).
Proof.
  split; [reflexivity |]. split; [| split].
  - intros r0. apply traversal_attempts.
  - intros r0. apply traversal_spec.
  - unfold resolveAllConstraints. set (m := default 3%nat maxIteration).
    destruct (resolveLoop_spec page canvas m m r) as (k & Hk & Hpre & Hcase).
    exists k. split; [exact Hk |]. split; [exact Hpre |].
    destruct Hcase as [H | (Hs & Hkm & Hall & Hf)]; [left; exact H | right].
    split; [exact Hs |]. split; [exact Hkm |]. split; [exact Hall |].
    split; [exact Hf |]. rewrite Hf. split; reflexivity.
Qed.

(** C8: a resolver that throws is caught for its constraint alone.
    Whatever the resolvers do, [resolveShapeConstraints] calls the
    registered resolver of every constraint of the shape, in order, each on
    the world the one before left behind, whether that one returned or
    threw, and returns the or of the flags of the calls that returned; and
    a traversal goes on to do the same for every constraint of every other
    shape of the page. *)
Theorem resolveShapeConstraints_catches_each r page shape canvas :
  (world (fst (resolveShapeConstraints cm r page shape canvas)),
   snd (resolveShapeConstraints cm r page shape canvas))
    = spec_attempts cm page canvas (map (pair shape) (constraints shape)) (world r) /\
  (world (fst (traversal cm page canvas r)), snd (traversal cm page canvas r))
    = spec_attempts cm page canvas (all_constraints page) (world r) /\
  (exists evs,
      events (fst (resolveShapeConstraints cm r page shape canvas)) = events r ++ evs /\
      omap event_key evs = map (pair shape) (constraints shape) /\
      length evs = length (constraints shape) /\
      snd (resolveShapeConstraints cm r page shape canvas) = existsb event_changed evs) /\
  world (fst (resolveShapeConstraints cm r page shape canvas))
    = fold_left (fun w c => outcome_world (call cm w page shape canvas c))
        (constraints shape) (world r) /\
  (exists evs,
      events (fst (traversal cm page canvas r)) = events r ++ evs /\
      omap event_key evs = all_constraints page /\
      length evs = length (all_constraints page) /\
      snd (traversal cm page canvas r) = existsb event_changed evs).
Proof.
  split; [apply resolveShapeConstraints_attempts |].
  split; [apply traversal_attempts |].
  split; [apply resolveShapeConstraints_spec |].
  split; [apply resolveShapeConstraints_world | apply traversal_spec].
Qed.

Lemma resolveLoop_world page canvas m : forall left r1 r2,
  world r1 = world r2 ->
  world (fst (resolveLoop cm page canvas m left r1))
    = world (fst (resolveLoop cm page canvas m left r2)) /\
  snd (resolveLoop cm page canvas m left r1) = snd (resolveLoop cm page canvas m left r2).
Proof.
  induction left as [| left IH]; intros r1 r2 Hw; cbn [resolveLoop].
  - cbn. auto.
  - destruct (traversal_world page canvas r1 r2 Hw) as [H1 H2].
    destruct (traversal cm page canvas r1) as [a1 b1].
    destruct (traversal cm page canvas r2) as [a2 b2].
    cbn [fst snd] in H1, H2. subst b2.
    destruct b1; cbn [negb]; [apply IH; exact H1 | cbn; auto].
Qed.

(** Under the resolver contract the call after a call that reported "no
    change" stops after one traversal. *)
Lemma resolveAllConstraints_settled r page canvas maxIteration r' :
  honest cm ->
  resolveAllConstraints cm r page canvas maxIteration = (r', false) ->
  resolveAllConstraints cm r' page canvas maxIteration
    = (fst (traversal cm page canvas r'), false) /\
  world (fst (traversal cm page canvas r')) = world r'.
Proof.
  intros Hh. unfold resolveAllConstraints.
  destruct (default 3%nat maxIteration) as [| m] eqn:Em.
  - cbn. intros [=].
  - intros Hres.
    destruct (resolveLoop_fixpoint page canvas (S m) (S m) r r' Hh Hres) as [Hf Hw].
    split; [| exact Hw].
    cbn [resolveLoop].
    destruct (traversal cm page canvas r') as [r2 ch]. cbn [snd] in Hf. subst ch.
    reflexivity.
Qed.

(** C9, amended: when every resolver keeps its contract (it reports a
    change whenever it emitted one, and emits none when it throws), a call
    of [resolveAllConstraints] that reported "no change" is followed,
    with nothing edited in between, by a call that reports "no change"
    again and leaves the transaction and the graph as they are. *)
Theorem resolveAllConstraints_idempotent r page canvas maxIteration r' :
  honest cm ->
  resolveAllConstraints cm r page canvas maxIteration = (r', false) ->
  snd (resolveAllConstraints cm r' page canvas maxIteration) = false /\
  world (fst (resolveAllConstraints cm r' page canvas maxIteration)) = world r'.
Proof.
  intros Hh Hres.
  destruct (resolveAllConstraints_settled r page canvas maxIteration r' Hh Hres)
    as [H1 H2].
  rewrite H1. cbn [fst snd]. auto.
Qed.
End Engine.

(** C9, as stated, fails: the claim's condition is the flag the first
    call reports.  A resolver that edits without reporting it makes the
    first call answer "no change" after one traversal, in the world 1; the
    call repeated at once finds a change in each of its three traversals,
    answers [true] and leaves the world 4. *)
Lemma sneaky_resolver_not_idempotent :
  exists r',
    resolveAllConstraints sneaky_registry fit_start sneaky_page tt None = (r', false) /\
    world r' = 1%nat /\
    snd (resolveAllConstraints sneaky_registry r' sneaky_page tt None) = true /\
    world (fst (resolveAllConstraints sneaky_registry r' sneaky_page tt None)) = 4%nat /\
    ~ honest sneaky_registry.
Proof.
  eexists. split; [vm_compute; reflexivity |].
  split; [reflexivity |]. split; [vm_compute; reflexivity |].
  split; [vm_compute; reflexivity |].
  intros H.
  specialize (H "sneaky" _ eq_refl 0%nat sneaky_page (mkShape "page" []) tt
                (mkConstraint "sneaky" [])).
  cbn in H. discriminate H.
Qed.

Lemma fit_registry_honest : honest fit_registry.
Proof.
  intros name fn H w page shape canvas c. unfold fit_registry in H.
  destruct (String.eqb name "fit"); [| discriminate].
  injection H as <-. reflexivity.
Defined.

Lemma resolveAllConstraints_idempotent_witness :
  snd (resolveAllConstraints fit_registry fit_settled one_shape_page tt None) = false /\
  world (fst (resolveAllConstraints fit_registry fit_settled one_shape_page tt None))
    = world fit_settled.
Proof.
  apply (resolveAllConstraints_idempotent fit_registry fit_start one_shape_page tt None
           fit_settled).
  - exact fit_registry_honest.
  - reflexivity.
Defined.


End MacroProps.

(** ** The replicated map and the loops *)

Module YjsProps.

Section YMapFacts.
Context {V : Type}.
Implicit Types (m : list (string * V)) (k : string) (v : V).

Lemma ymap_get_set_eq m k v : ymap_get (ymap_set m k v) k = Some v.
Proof.
  induction m as [| [k' v'] m IH]; cbn.
  - rewrite String.eqb_refl. reflexivity.
  - destruct (String.eqb k' k) eqn:E; cbn.
    + rewrite String.eqb_refl. reflexivity.
    + rewrite E. exact IH.
Qed.

Lemma ymap_get_set_ne m k k' v : k <> k' -> ymap_get (ymap_set m k v) k' = ymap_get m k'.
Proof.
  intros Hne. induction m as [| [k0 v0] m IH]; cbn.
  - apply String.eqb_neq in Hne. rewrite Hne. reflexivity.
  - destruct (String.eqb k0 k) eqn:E; cbn.
    + apply String.eqb_eq in E. subst k0.
      apply String.eqb_neq in Hne. rewrite Hne. reflexivity.
    + destruct (String.eqb k0 k'); [reflexivity | exact IH].
Qed.


End YMapFacts.

Lemma ystore_get_present (y : YStore) (k : string) :
  ymap_has y k = true -> ystore_get y k = Some k.
Proof. unfold ystore_get. intros ->. reflexivity. Qed.

Lemma ystore_get_absent (y : YStore) (k : string) :
  ymap_has y k = false -> ystore_get y k = None.
Proof. unfold ystore_get. intros ->. reflexivity. Qed.

Lemma fields_of_set (y : YStore) (k : string) (f : YObj) :
  fields_of (ymap_set y k f) k = f.
Proof. unfold fields_of. rewrite ymap_get_set_eq. reflexivity. Qed.

Lemma field_get_set_eq (f : YObj) (k : string) (v : Value) :
  field_get (ymap_set f k v) k = v.
Proof. unfold field_get. rewrite ymap_get_set_eq. reflexivity. Qed.

Lemma field_get_set_ne (f : YObj) (k k' : string) (v : Value) :
  k <> k' -> field_get (ymap_set f k v) k' = field_get f k'.
Proof. intros H. unfold field_get. rewrite ymap_get_set_ne by exact H. reflexivity. Qed.



Section Loops.
Context {A St : Type}.
Variable f : St -> A -> Result St.

Lemma forM_app (l1 l2 : list A) : forall s,
  forM f (l1 ++ l2) s = s' ← forM f l1 s; forM f l2 s'.
Proof.
  induction l1 as [| x l1 IH]; intros s; cbn.
  - reflexivity.
  - destruct (f s x) as [s1 | e]; cbn; [apply IH | reflexivity].
Qed.

Lemma at_index_app_head (l1 l2 : list A) (x : A) (k : A -> Result St) :
  at_index (l1 ++ x :: l2) (length l1) k = k x.
Proof.
  unfold at_index. rewrite nth_error_app2 by lia.
  rewrite Nat.sub_diag. reflexivity.
Qed.

(** The ascending index loop visits the elements first to last. *)
Lemma for_up_from_forM (l2 : list A) : forall (l1 : list A) s,
  for_up_from (length l1) (length l2) (fun i y => at_index (l1 ++ l2) i (f y)) s
    = forM f l2 s.
Proof.
  induction l2 as [| x l2 IH]; intros l1 s; cbn [length for_up_from forM].
  - reflexivity.
  - rewrite at_index_app_head.
    destruct (f s x) as [s1 | e]; cbn; [| reflexivity].
    specialize (IH (l1 ++ [x]) s1).
    rewrite length_app, Nat.add_1_r, <- app_assoc in IH. exact IH.
Qed.

Lemma for_up_forM (l : list A) s :
  for_up (length l) (fun i y => at_index l i (f y)) s = forM f l s.
Proof. exact (for_up_from_forM l [] s). Qed.

(** The descending index loop visits the elements last to first. *)
Lemma for_down_forM_rev (l1 : list A) : forall (l2 : list A) s,
  for_down (length l1) (fun i y => at_index (l1 ++ l2) i (f y)) s = forM f (rev l1) s.
Proof.
  induction l1 as [| x l1 IH] using rev_ind; intros l2 s.
  - reflexivity.
  - rewrite length_app, Nat.add_1_r, rev_app_distr. cbn [for_down rev app forM].
    rewrite <- app_assoc. cbn [app]. rewrite at_index_app_head.
    destruct (f s x) as [s1 | e]; cbn; [| reflexivity].
    apply IH.
Qed.

Lemma for_down_forM (l : list A) s :
  for_down (length l) (fun i y => at_index l i (f y)) s = forM f (rev l) s.
Proof.
  pose proof (for_down_forM_rev l [] s) as H. rewrite app_nil_r in H. exact H.
Qed.

Lemma forM_returns (l : list A) :
  (forall s x, returns (f s x)) -> forall s, returns (forM f l s).
Proof.
  intros Hf. induction l as [| x l IH]; intros s; cbn.
  - eexists; reflexivity.
  - destruct (Hf s x) as [s1 ->]. cbn. apply IH.
Qed.
End Loops.

Lemma forM_ext {A St : Type} (f g : St -> A -> Result St) (l : list A) :
  (forall s x, f s x = g s x) -> forall s, forM f l s = forM g l s.
Proof.
  intros H. induction l as [| x l IH]; intros s; cbn.
  - reflexivity.
  - rewrite H. destruct (g s x); cbn; [apply IH | reflexivity].
Qed.

Lemma forM_flat_map {A B St : Type} (g : St -> B -> Result St) (h : A -> list B)
    (l : list A) : forall s,
  forM (fun s x => forM g (h x) s) l s = forM g (flat_map h l) s.
Proof.
  induction l as [| x l IH]; intros s; cbn [forM flat_map].
  - reflexivity.
  - rewrite forM_app. destruct (forM g (h x) s); cbn; [apply IH | reflexivity].
Qed.

Lemma rev_flat_map {A B : Type} (h : A -> list B) (l : list A) :
  rev (flat_map h l) = flat_map (fun x => rev (h x)) (rev l).
Proof.
  induction l as [| x l IH]; cbn [flat_map rev].
  - reflexivity.
  - rewrite rev_app_distr, IH, flat_map_app. cbn [flat_map]. rewrite app_nil_r. reflexivity.
Qed.

Lemma length_zero_nil {A : Type} (l : list A) : (js_length l =? 0) = true -> l = [].
Proof.
  unfold js_length. intros H. apply Z.eqb_eq in H. destruct l; [reflexivity | cbn in H; lia].
Qed.

(** *** The two index loops of the bridge, as folds *)

Lemma plugin_applyTransaction_forM s tx y :
  YjsSyncPlugin.applyTransaction s tx y = forM (YjsSyncPlugin.applyMutation s) (mutations tx) y.
Proof.
  unfold YjsSyncPlugin.applyTransaction.
  destruct (js_length (mutations tx) =? 0) eqn:E.
  - rewrite (length_zero_nil _ E). reflexivity.
  - apply for_up_forM.
Qed.

Lemma plugin_unapplyTransaction_forM s tx y :
  YjsSyncPlugin.unapplyTransaction s tx y
    = forM (YjsSyncPlugin.unapplyMutation s) (rev (mutations tx)) y.
Proof.
  unfold YjsSyncPlugin.unapplyTransaction.
  destruct (js_length (mutations tx) =? 0) eqn:E.
  - rewrite (length_zero_nil _ E). reflexivity.
  - apply for_down_forM.
Qed.

Lemma utils_applyTransaction_forM s tx y :
  YjsUtils.applyTransaction s tx y = forM (YjsUtils.applyMutation s) (mutations tx) y.
Proof.
  unfold YjsUtils.applyTransaction.
  destruct (js_length (mutations tx) =? 0) eqn:E.
  - rewrite (length_zero_nil _ E). reflexivity.
  - apply for_up_forM.
Qed.

Lemma utils_unapplyTransaction_forM s tx y :
  YjsUtils.unapplyTransaction s tx y
    = forM (YjsUtils.unapplyMutation s) (rev (mutations tx)) y.
Proof.
  unfold YjsUtils.unapplyTransaction.
  destruct (js_length (mutations tx) =? 0) eqn:E.
  - rewrite (length_zero_nil _ E). reflexivity.
  - apply for_down_forM.
Qed.

(** *** No step of the encoders throws *)

Lemma plugin_getParentOrder_returns s y parent position :
  returns (YjsSyncPlugin.getParentOrder s y parent position).
Proof.
  unfold YjsSyncPlugin.getParentOrder. cbv zeta.
  repeat match goal with
  | |- context [defined ?o] => destruct o; cbn
  end; eexists; reflexivity.
Qed.

Ltac step_returns :=
  repeat match goal with
  | |- context [ystore_get ?y ?k] => destruct (ystore_get y k); cbn
  | o : option loc |- _ => destruct o; cbn
  end; try (eexists; reflexivity).

Lemma plugin_applyMutation_returns s y m : returns (YjsSyncPlugin.applyMutation s y m).
Proof.
  destruct m; cbn; step_returns.
  destruct (plugin_getParentOrder_returns s
              (ymap_set y y1 (ymap_set (fields_of y y1) "parent" (VStr (obj_id (deref s parent)))))
              parent position) as [order ->].
  cbn. eexists; reflexivity.
Qed.

Lemma plugin_unapplyMutation_returns s y m : returns (YjsSyncPlugin.unapplyMutation s y m).
Proof.
  destruct m; cbn; step_returns.
  destruct (plugin_getParentOrder_returns s
              (ymap_set y y1 (ymap_set (fields_of y y1) "parent" (VStr (obj_id (deref s parent)))))
              parent position) as [order ->].
  cbn. eexists; reflexivity.
Qed.

Lemma utils_applyMutation_returns s y m : returns (YjsUtils.applyMutation s y m).
Proof. destruct m; cbn; step_returns. Qed.

Lemma utils_unapplyMutation_returns s y m : returns (YjsUtils.unapplyMutation s y m).
Proof. destruct m; cbn; step_returns. Qed.

(** ** Undo on the replicated map *)



(** ** Guards of the encoders *)

(** C10, as stated, fails: CREATE writes the entry of an entity the
    replicated map does not hold yet. *)
Lemma create_is_not_guarded :
  List.In "A" (involved Scenario.s_PA (CREATE 1%nat)) /\
  ymap_has ([] : YStore) "A" = false /\
  YjsSyncPlugin.applyMutation Scenario.s_PA [] (CREATE 1%nat)
    = Ok [("A", Scenario.jsonOf "A")] /\
  ~ guarded YjsSyncPlugin.applyMutation.
Proof.
  split; [left; reflexivity |]. split; [reflexivity |]. split; [reflexivity |].
  intros H.
  specialize (H Scenario.s_PA [] (CREATE 1%nat)).
  assert (Habs : exists i, List.In i (involved Scenario.s_PA (CREATE 1%nat)) /\
                           ymap_has ([] : YStore) i = false).
  { exists "A". split; [left; reflexivity | reflexivity]. }
  specialize (H Habs). vm_compute in H. discriminate H.
Qed.

Ltac skip_absent H :=
  destruct H as (i & Hin & Habs); cbn in Hin;
  repeat (destruct Hin as [<- | Hin]);
  try contradiction;
  rewrite (ystore_get_absent _ _ Habs); cbn;
  try reflexivity;
  repeat match goal with
  | |- context [ystore_get ?y ?k] => destruct (ystore_get y k); cbn
  end; reflexivity.

(** C10, amended: [applyTransaction] and [unapplyTransaction] return
    for every transaction whose ASSIGN mutations carry, and whose entities
    project to, values a [Y.Map] stores; an ASSIGN of a value [Y.Map.set]
    rejects throws when the entity is in the replicated map and is skipped
    when it is not.  CREATE
    and DELETE set or delete the key of the entity without looking at the
    replicated map; every other branch skips the mutation, leaving the
    replicated map as it is, when the entry of an entity involved is
    missing, and ASSIGN_REF also skips when the reference to write is
    null, so the id stored before stays. *)
Theorem encoders_total_and_guarded s tx y m :
  (returns (YjsSyncPlugin.applyTransaction s tx y) /\
   returns (YjsSyncPlugin.unapplyTransaction s tx y) /\
   returns (YjsUtils.applyTransaction s tx y) /\
   returns (YjsUtils.unapplyTransaction s tx y)) /\
  (keyed m = false ->
   (exists i, In i (involved s m) /\ ymap_has y i = false) ->
   YjsSyncPlugin.applyMutation s y m = Ok y /\
   YjsSyncPlugin.unapplyMutation s y m = Ok y /\
   YjsUtils.applyMutation s y m = Ok y /\
   YjsUtils.unapplyMutation s y m = Ok y) /\
  (forall obj field other,
   YjsSyncPlugin.applyMutation s y (ASSIGN_REF obj field other None) = Ok y /\
   YjsSyncPlugin.unapplyMutation s y (ASSIGN_REF obj field None other) = Ok y /\
   YjsUtils.applyMutation s y (ASSIGN_REF obj field other None) = Ok y /\
   YjsUtils.unapplyMutation s y (ASSIGN_REF obj field None other) = Ok y) /\
  (forall obj,
   YjsSyncPlugin.applyMutation s y (CREATE obj)
     = Ok (ymap_set y (obj_id (deref s obj)) (YjsSyncPlugin.objToYMap (deref s obj))) /\
   YjsSyncPlugin.applyMutation s y (DELETE obj) = Ok (ymap_delete y (obj_id (deref s obj))) /\
   YjsSyncPlugin.unapplyMutation s y (CREATE obj) = Ok (ymap_delete y (obj_id (deref s obj))) /\
   YjsSyncPlugin.unapplyMutation s y (DELETE obj)
     = Ok (ymap_set y (obj_id (deref s obj)) (YjsSyncPlugin.objToYMap (deref s obj))) /\
   YjsUtils.applyMutation s y (CREATE obj)
     = Ok (ymap_set y (obj_id (deref s obj)) (YjsUtils.objToYObj s y obj)) /\
   YjsUtils.applyMutation s y (DELETE obj) = Ok (ymap_delete y (obj_id (deref s obj))) /\
   YjsUtils.unapplyMutation s y (CREATE obj) = Ok (ymap_delete y (obj_id (deref s obj))) /\
   YjsUtils.unapplyMutation s y (DELETE obj)
     = Ok (ymap_set y (obj_id (deref s obj)) (YjsUtils.objToYObj s y obj))) /\
  (forall obj field old v,
   YjsSyncPlugin.applyMutation s y (ASSIGN obj field old v)
     = assignBranch s y obj field (Stored v) /\
   YjsSyncPlugin.unapplyMutation s y (ASSIGN obj field v old)
     = assignBranch s y obj field (Stored v) /\
   YjsUtils.applyMutation s y (ASSIGN obj field old v)
     = assignBranch s y obj field (Stored v) /\
   YjsUtils.unapplyMutation s y (ASSIGN obj field v old)
     = assignBranch s y obj field (Stored v)) /\
  (forall obj field,
   (ymap_has y (obj_id (deref s obj)) = true ->
    assignBranch s y obj field Rejected = Throw (GenericError "Unexpected content type")) /\
   (ymap_has y (obj_id (deref s obj)) = false ->
    assignBranch s y obj field Rejected = Ok y)).
Proof.
  split; [| split; [| split; [| split; [| split]]]].
  - rewrite plugin_applyTransaction_forM, plugin_unapplyTransaction_forM,
      utils_applyTransaction_forM, utils_unapplyTransaction_forM.
    repeat split; apply forM_returns; intros.
    + apply plugin_applyMutation_returns.
    + apply plugin_unapplyMutation_returns.
    + apply utils_applyMutation_returns.
    + apply utils_unapplyMutation_returns.
  - intros Hk H. destruct m; try discriminate Hk; repeat split; cbn; skip_absent H.
  - intros obj field other. repeat split; cbn;
      destruct (ystore_get y (obj_id (deref s obj))); reflexivity.
  - intros obj. repeat split.
  - intros obj field old v. unfold assignBranch. cbn.
    destruct (ystore_get y (obj_id (deref s obj))); auto.
  - intros obj field. unfold assignBranch. split; intros H.
    + rewrite (ystore_get_present _ _ H). reflexivity.
    + rewrite (ystore_get_absent _ _ H). reflexivity.
Qed.

Lemma encoders_total_and_guarded_witness :
  YjsSyncPlugin.applyMutation Scenario.s_PA Scenario.y_P (INSERT_CHILD 0%nat 1%nat 0)
    = Ok Scenario.y_P /\
  YjsSyncPlugin.unapplyMutation Scenario.s_PA Scenario.y_P (INSERT_CHILD 0%nat 1%nat 0)
    = Ok Scenario.y_P /\
  YjsUtils.applyMutation Scenario.s_PA Scenario.y_P (INSERT_CHILD 0%nat 1%nat 0)
    = Ok Scenario.y_P /\
  YjsUtils.unapplyMutation Scenario.s_PA Scenario.y_P (INSERT_CHILD 0%nat 1%nat 0)
    = Ok Scenario.y_P.
Proof.
  apply (proj1 (proj2 (encoders_total_and_guarded Scenario.s_PA (mkTx []) Scenario.y_P
                         (INSERT_CHILD 0%nat 1%nat 0)))).
  - reflexivity.
  - exists "A". split; [right; left; reflexivity | reflexivity].
Defined.

(** ** Arrays of object references *)

Lemma findIndex_from_shift {A : Type} (p : A -> bool) (l : list A) : forall i,
  0 <= i ->
  findIndex_from p l i
    = if findIndex_from p l 0 <? 0 then -1 else findIndex_from p l 0 + i.
Proof.
  induction l as [| x l IH]; intros i Hi; cbn [findIndex_from].
  - reflexivity.
  - destruct (p x).
    + cbn. lia.
    + rewrite (IH (i + 1)) by lia. rewrite (IH (0 + 1)) by lia.
      destruct (findIndex_from p l 0 <? 0) eqn:E; cbn; [reflexivity |].
      apply Z.ltb_ge in E.
      destruct (findIndex_from p l 0 + (0 + 1) <? 0) eqn:E'; [apply Z.ltb_lt in E'; lia | lia].
Qed.

Lemma indexOf_absent (l : list loc) (o : loc) : ~ List.In o l -> indexOf l o = -1.
Proof.
  unfold indexOf, findIndex. induction l as [| x l IH]; intros Hn; cbn [findIndex_from].
  - reflexivity.
  - destruct (Nat.eqb o x) eqn:E.
    + apply Nat.eqb_eq in E. subst x. exfalso. apply Hn. left. reflexivity.
    + rewrite findIndex_from_shift by lia. rewrite IH; [reflexivity |].
      intros H. apply Hn. right. exact H.
Qed.

(** [indexOf] finds the first occurrence. *)
Lemma indexOf_first (l : list loc) (o : loc) :
  List.In o l ->
  exists l1 l2, l = l1 ++ o :: l2 /\ ~ List.In o l1 /\ indexOf l o = Z.of_nat (length l1).
Proof.
  unfold indexOf, findIndex. induction l as [| x l IH]; intros Hin; [destruct Hin |].
  cbn [findIndex_from]. destruct (Nat.eqb o x) eqn:E.
  - apply Nat.eqb_eq in E. subst x. exists [], l. repeat split; auto.
  - apply Nat.eqb_neq in E. destruct Hin as [-> | Hin]; [contradiction |].
    destruct (IH Hin) as (l1 & l2 & -> & Hn & Hi).
    exists (x :: l1), l2. repeat split.
    + intros [-> | H]; [contradiction | exact (Hn H)].
    + rewrite findIndex_from_shift by lia. rewrite Hi.
      destruct (Z.of_nat (length l1) <? 0) eqn:E'; [apply Z.ltb_lt in E'; lia |].
      cbn [length]. lia.
Qed.

Lemma splice_delete1_at {A : Type} (l1 l2 : list A) (x : A) :
  splice_delete1 (l1 ++ x :: l2) (Z.of_nat (length l1)) = l1 ++ l2.
Proof.
  unfold splice_delete1, splice_start, js_length.
  destruct (Z.of_nat (length l1) <? 0) eqn:E; [apply Z.ltb_lt in E; lia |].
  rewrite length_app. cbn [length].
  replace (Z.to_nat (Z.min (Z.of_nat (length l1)) (Z.of_nat (length l1 + S (length l2)))))
    with (length l1) by lia.
  rewrite firstn_app, Nat.sub_diag, firstn_all. cbn [firstn]. rewrite app_nil_r.
  replace (S (length l1)) with (length l1 + 1)%nat by lia.
  rewrite skipn_app. rewrite (skipn_all2 l1) by lia.
  replace (length l1 + 1 - length l1)%nat with 1%nat by lia. reflexivity.
Qed.

Lemma In_firstn {A : Type} (c : A) : forall k l, List.In c (firstn k l) -> List.In c l.
Proof.
  induction k as [| k IH]; intros [| x l]; cbn; auto.
  - intros [].
  - intros [-> | H]; auto.
Qed.

Lemma In_skipn {A : Type} (c : A) : forall k l, List.In c (skipn k l) -> List.In c l.
Proof.
  induction k as [| k IH]; intros [| x l]; cbn; auto.
Qed.

Lemma splice_delete1_incl {A : Type} (l : list A) (i : Z) (c : A) :
  List.In c (splice_delete1 l i) -> List.In c l.
Proof.
  unfold splice_delete1. intros H. apply in_app_or in H as [H | H].
  - exact (In_firstn c _ _ H).
  - exact (In_skipn c _ _ H).
Qed.

(** Taking an object out of a duplicate-free array of children leaves an
    array without it and with every other child. *)
Lemma splice_delete1_indexOf (l : list loc) (o : loc) :
  List.NoDup l ->
  ~ List.In o (splice_delete1 l (indexOf l o)) /\
  (List.In o l ->
   forall c, c <> o -> (List.In c l <-> List.In c (splice_delete1 l (indexOf l o)))).
Proof.
  intros Hnd. destruct (in_dec Nat.eq_dec o l) as [Hin | Hout].
  - destruct (indexOf_first l o Hin) as (l1 & l2 & -> & Hn & Hi).
    rewrite Hi, splice_delete1_at. split.
    + apply List.NoDup_remove_2. exact Hnd.
    + intros _ c Hc. rewrite !in_app_iff. cbn [List.In]. intuition congruence.
  - split; [| contradiction].
    intros H. apply Hout. exact (splice_delete1_incl _ _ _ H).
Qed.

(** ** The local store *)

Lemma deref_update_eq s l f : deref (update s l f) l = f (deref s l).
Proof. unfold deref, update. cbn. apply lookup_total_insert_eq. Qed.

Lemma deref_update_ne s l l' f : l <> l' -> deref (update s l f) l' = deref s l'.
Proof. intros H. unfold deref, update. cbn. apply lookup_total_insert_ne. exact H. Qed.

Lemma deref_update s l l' f :
  deref (update s l f) l' = if decide (l = l') then f (deref s l) else deref s l'.
Proof.
  destruct (decide (l = l')) as [<- | H].
  - apply deref_update_eq.
  - apply deref_update_ne. exact H.
Qed.

Lemma deref_removeFromIndex s o l : deref (removeFromIndex s o) l = deref s l.
Proof. reflexivity. Qed.

Lemma NoDup_splice_delete1 {A : Type} (l : list A) (i : Z) :
  List.NoDup l -> List.NoDup (splice_delete1 l i).
Proof.
  unfold splice_delete1. generalize (splice_start l i). intros k. revert k.
  induction l as [| x l IH]; intros k Hnd.
  - destruct k; constructor.
  - inversion Hnd as [| ? ? Hx Hl]; subst. destruct k as [| k].
    + exact Hl.
    + cbn [firstn skipn app]. change (skipn (S k) l) with (skipn (S k) l).
      constructor.
      * intros H. apply Hx. apply in_app_or in H as [H | H].
        -- exact (In_firstn _ _ _ H).
        -- exact (In_skipn _ _ _ H).
      * apply IH. exact Hl.
Qed.

Lemma In_splice_insert {A : Type} (l : list A) (i : Z) (x c : A) :
  List.In c (splice_insert l i x) <-> c = x \/ List.In c l.
Proof.
  unfold splice_insert. generalize (splice_start l i). intros k.
  rewrite <- (firstn_skipn k l) at 3. rewrite !in_app_iff. cbn [List.In].
  intuition congruence.
Qed.

Lemma NoDup_splice_insert {A : Type} (l : list A) (i : Z) (x : A) :
  List.NoDup l -> ~ List.In x l -> List.NoDup (splice_insert l i x).
Proof.
  intros Hnd Hx. unfold splice_insert. generalize (splice_start l i). intros k.
  apply (List.NoDup_Add (Add_app x (firstn k l) (skipn k l))).
  rewrite firstn_skipn. auto.
Qed.

Lemma In_push {A : Type} (l : list A) (x c : A) :
  List.In c (push l x) <-> c = x \/ List.In c l.
Proof. unfold push. rewrite in_app_iff. cbn [List.In]. intuition congruence. Qed.

Lemma NoDup_push {A : Type} (l : list A) (x : A) :
  List.NoDup l -> ~ List.In x l -> List.NoDup (push l x).
Proof.
  intros Hnd Hx. unfold push.
  pose proof (List.NoDup_Add (Add_app x l [])) as H. rewrite app_nil_r in H.
  apply H. auto.
Qed.

Lemma In_setParent_place yStore parentId parentOrder (l : list loc) (obj c : loc) :
  List.In c (setParent_place yStore parentId parentOrder l obj) <-> c = obj \/ List.In c l.
Proof.
  unfold setParent_place. cbv zeta.
  destruct (_ <? 0); [apply In_push | apply In_splice_insert].
Qed.

Lemma NoDup_setParent_place yStore parentId parentOrder (l : list loc) (obj : loc) :
  List.NoDup l -> ~ List.In obj l ->
  List.NoDup (setParent_place yStore parentId parentOrder l obj).
Proof.
  unfold setParent_place. cbv zeta.
  destruct (_ <? 0); [apply NoDup_push | apply NoDup_splice_insert].
Qed.

(** Reading [parent] and [children] after an update of one of them. *)
Lemma parent_after_children s l (g : Obj -> list loc) c :
  obj_parent (deref (update s l (fun po => set_children (g po) po)) c)
    = obj_parent (deref s c).
Proof.
  rewrite deref_update. destruct (decide (l = c)) as [-> | _]; reflexivity.
Qed.

Lemma children_after_children s l (g : Obj -> list loc) p :
  obj_children (deref (update s l (fun po => set_children (g po) po)) p)
    = if decide (l = p) then g (deref s p) else obj_children (deref s p).
Proof.
  rewrite deref_update. destruct (decide (l = p)) as [-> | _]; reflexivity.
Qed.

Lemma parent_after_parent s l v c :
  obj_parent (deref (update s l (set_parent v)) c)
    = if decide (l = c) then v else obj_parent (deref s c).
Proof.
  rewrite deref_update. destruct (decide (l = c)) as [-> | _]; reflexivity.
Qed.

Lemma children_after_parent s l v p :
  obj_children (deref (update s l (set_parent v)) p) = obj_children (deref s p).
Proof.
  rewrite deref_update. destruct (decide (l = p)) as [-> | _]; reflexivity.
Qed.

Lemma id_after_children s l (g : Obj -> list loc) c :
  obj_id (deref (update s l (fun po => set_children (g po) po)) c) = obj_id (deref s c).
Proof.
  rewrite deref_update. destruct (decide (l = c)) as [-> | _]; reflexivity.
Qed.

Lemma indexOf_neg_iff (l : list loc) (o : loc) : (indexOf l o <? 0) = true <-> ~ List.In o l.
Proof.
  split.
  - intros H Hin. destruct (indexOf_first l o Hin) as (l1 & l2 & _ & _ & Hi).
    rewrite Hi in H. apply Z.ltb_lt in H. lia.
  - intros H. rewrite (indexOf_absent l o H). reflexivity.
Qed.

(** ** [setParent] *)

Lemma strict_eq_str_true (a : string) (v : Value) :
  strict_eq (VStr a) v = true <-> v = VStr a.
Proof.
  destruct v; cbn; try (split; discriminate).
  rewrite String.eqb_eq. split; [intros -> | intros [= ->]]; reflexivity.
Qed.

Lemma setParent_cases s y obj parentId parentOrder s1 :
  s1 = setParent_detach s obj parentId ->
  YjsUtils.setParent s y obj parentId parentOrder
    = if truthy parentId then
        match getById s1 parentId with
        | Some parent =>
            if indexOf (obj_children (deref (update s1 obj (set_parent (Some parent))) parent))
                 obj <? 0
            then update (update s1 obj (set_parent (Some parent))) parent (fun po =>
                   set_children
                     (setParent_place y parentId parentOrder (obj_children po) obj) po)
            else update s1 obj (set_parent (Some parent))
        | None => update s1 obj (set_parent None)
        end
      else update s1 obj (set_parent None).
Proof.
  intros ->. unfold YjsUtils.setParent, setParent_place, setParent_detach. cbv zeta.
  destruct (truthy parentId); [| reflexivity].
  destruct (getById _ parentId); [| reflexivity].
  destruct (indexOf _ obj <? 0); [| reflexivity].
  destruct (findIndex _ _ <? 0); reflexivity.
Qed.

Section SetParent.
Variables (s : Store) (y : YStore) (obj : loc) (parentId parentOrder : Value).
Hypothesis Hpi : parents_indexed s.
Hypothesis Hinv : parent_children_inv s.
Hypothesis Hnd : children_nodup s.

Lemma detach_spec :
  (forall c, obj_parent (deref (setParent_detach s obj parentId) c) = obj_parent (deref s c)) /\
  idIndex (setParent_detach s obj parentId) = idIndex s /\
  (forall p c, List.In c (obj_children (deref (setParent_detach s obj parentId) p))
               <-> obj_parent (deref s c) = Some p /\ (c = obj -> ~ detached s obj parentId)) /\
  (forall p, List.NoDup (obj_children (deref (setParent_detach s obj parentId) p))) /\
  (~ detached s obj parentId -> (setParent_detach s obj parentId) = s).
Proof.
  unfold setParent_detach, detached.
  destruct (obj_parent (deref s obj)) as [old |] eqn:P.
  - destruct (strict_eq (VStr (obj_id (deref s old))) parentId) eqn:E; cbn [negb].
    + assert (Hno : ~ exists old0, Some old = Some old0 /\
                      strict_eq (VStr (obj_id (deref s old0))) parentId = false).
      { intros (o & [= <-] & H). congruence. }
      split; [reflexivity |]. split; [reflexivity |]. split; [| split; [apply Hnd | reflexivity]].
      intros p c. rewrite (Hinv p c). split; [| intros [G _]; exact G].
      intros G. split; [exact G |]. intros _. exact Hno.
    + assert (Hyes : exists old0, Some old = Some old0 /\
                       strict_eq (VStr (obj_id (deref s old0))) parentId = false)
        by (exists old; auto).
      split; [intros c; apply parent_after_children |].
      split; [reflexivity |].
      split; [| split].
      * intros p c. rewrite children_after_children.
        destruct (decide (old = p)) as [<- | Hne].
        -- destruct (splice_delete1_indexOf (obj_children (deref s old)) obj (Hnd old))
             as [Hout Hrest].
           assert (Hin : List.In obj (obj_children (deref s old))) by (apply Hinv; exact P).
           destruct (decide (c = obj)) as [-> | Hc].
           ++ split; [intros H; contradiction | intros [_ H]; exfalso; apply H; auto].
           ++ rewrite <- (Hrest Hin c Hc). rewrite (Hinv old c).
              split; [intros H; split; [exact H | intros; contradiction] | intros [H _]; exact H].
        -- rewrite (Hinv p c). split; [| intros [H _]; exact H].
           intros H. split; [exact H |]. intros -> _. congruence.
      * intros p. rewrite children_after_children.
        destruct (decide (old = p)) as [<- | _]; [apply NoDup_splice_delete1 |]; apply Hnd.
      * intros H. contradiction.
  - assert (Hno : ~ exists old0, None = Some old0 /\
                    strict_eq (VStr (obj_id (deref s old0))) parentId = false).
    { intros (o & [=] & _). }
    split; [reflexivity |]. split; [reflexivity |]. split; [| split; [apply Hnd | reflexivity]].
    intros p c. rewrite (Hinv p c). split; [| intros [G _]; exact G].
    intros G. split; [exact G |]. intros _. exact Hno.
Qed.

Lemma classic_detached p :
  obj_parent (deref s obj) = Some p -> (detached s obj parentId) \/ ~ detached s obj parentId.
Proof.
  intros Hp. unfold detached.
  destruct (strict_eq (VStr (obj_id (deref s p))) parentId) eqn:E.
  - right. intros (o & Ho & H). rewrite Hp in Ho. injection Ho as <-. congruence.
  - left. exists p. auto.
Qed.

Lemma kept_parent_found p :
  obj_parent (deref s obj) = Some p -> ~ detached s obj parentId ->
  truthy parentId = true /\ getById (setParent_detach s obj parentId) parentId = Some p.
Proof.
  intros Hp Hkeep. destruct detach_spec as (_ & A2 & _).
  destruct (strict_eq (VStr (obj_id (deref s p))) parentId) eqn:E.
  - apply strict_eq_str_true in E. subst parentId.
    destruct Hpi as [Hp1 Hp2]. pose proof (Hp1 _ _ Hp) as Hi.
    destruct (Hp2 _ _ Hi) as [_ Hne]. split.
    + cbn. apply String.eqb_neq in Hne. rewrite Hne. reflexivity.
    + unfold getById. rewrite A2. exact Hi.
  - exfalso. apply Hkeep. exists p. auto.
Qed.

Lemma setParent_keeps_invariant :
  parent_children_inv (YjsUtils.setParent s y obj parentId parentOrder) /\
  children_nodup (YjsUtils.setParent s y obj parentId parentOrder).
Proof.
  destruct detach_spec as (A1 & A2 & A3 & A4 & A5).
  pose proof kept_parent_found as Kept.
  rewrite (setParent_cases s y obj parentId parentOrder _ eq_refl).
  assert (Hnone : (forall p, obj_parent (deref s obj) = Some p -> (detached s obj parentId)) ->
                  parent_children_inv (update (setParent_detach s obj parentId) obj (set_parent None)) /\
                  children_nodup (update (setParent_detach s obj parentId) obj (set_parent None))).
  { intros Hd. split.
    - intros p c. rewrite children_after_parent, parent_after_parent, A3, A1.
      destruct (decide (obj = c)) as [<- | Hc].
      + split; [| discriminate]. intros [Hp Hk]. exfalso. apply (Hk eq_refl). eauto.
      + split; [intros [Hp _]; exact Hp |]. intros Hp. split; [exact Hp | congruence].
    - intros p. rewrite children_after_parent. apply A4. }
  destruct (truthy parentId) eqn:T.
  - destruct (getById (setParent_detach s obj parentId) parentId) as [parent |] eqn:G.
    + rewrite children_after_parent.
      destruct (indexOf (obj_children (deref (setParent_detach s obj parentId) parent)) obj <? 0) eqn:I.
      * apply indexOf_neg_iff in I. split.
        -- intros p c.
           rewrite children_after_children, parent_after_children, parent_after_parent.
           rewrite !children_after_parent, A1.
           destruct (decide (parent = p)) as [<- | Hp].
           ++ rewrite In_setParent_place, A3.
              destruct (decide (obj = c)) as [<- | Hc].
              ** split; auto.
              ** split; [intros [-> | [H _]]; [contradiction | exact H] |].
                 intros H. right. split; [exact H | congruence].
           ++ rewrite A3. destruct (decide (obj = c)) as [<- | Hc].
              ** split; [| congruence]. intros [H Hk]. exfalso.
                 destruct (Kept p H (Hk eq_refl)) as [_ G']. congruence.
              ** split; [intros [H _]; exact H |]. intros H. split; [exact H | congruence].
        -- intros p. rewrite children_after_children, !children_after_parent.
           destruct (decide (parent = p)) as [<- | _]; [| apply A4].
           apply NoDup_setParent_place; [apply A4 | exact I].
      * assert (Hin : List.In obj (obj_children (deref (setParent_detach s obj parentId) parent))).
        { destruct (in_dec Nat.eq_dec obj (obj_children (deref (setParent_detach s obj parentId) parent))) as [H | H];
            [exact H |].
          apply indexOf_neg_iff in H. congruence. }
        apply A3 in Hin as [Hp Hk]. specialize (Hk eq_refl). rewrite (A5 Hk).
        split.
        -- intros p c. rewrite children_after_parent, parent_after_parent.
           destruct (decide (obj = c)) as [<- | _]; [| apply Hinv].
           rewrite (Hinv p obj), Hp. reflexivity.
        -- intros p. rewrite children_after_parent. apply Hnd.
    + apply Hnone. intros p Hp.
      destruct (classic_detached p Hp) as [H | H]; [exact H |].
      destruct (Kept p Hp H) as [_ G']. congruence.
  - apply Hnone. intros p Hp.
    destruct (classic_detached p Hp) as [H | H]; [exact H |].
    destruct (Kept p Hp H) as [T' _]. congruence.
Qed.

(** A reparent proper: the object leaves the children of its old parent
    and enters those of the new one at the place its order key gives. *)
Lemma setParent_moves old parent :
  obj_parent (deref s obj) = Some old ->
  truthy parentId = true ->
  getById s parentId = Some parent ->
  old <> parent ->
  obj_parent (deref (YjsUtils.setParent s y obj parentId parentOrder) obj) = Some parent /\
  ~ List.In obj (obj_children (deref (YjsUtils.setParent s y obj parentId parentOrder) old)) /\
  obj_children (deref (YjsUtils.setParent s y obj parentId parentOrder) parent)
    = setParent_place y parentId parentOrder (obj_children (deref s parent)) obj.
Proof.
  intros Ho T G Hne.
  destruct detach_spec as (A1 & A2 & A3 & A4 & A5).
  assert (Hd : detached s obj parentId).
  { destruct (classic_detached old Ho) as [H | H]; [exact H |].
    destruct (kept_parent_found old Ho H) as [_ G'].
    unfold getById in G, G'. rewrite A2 in G'. destruct parentId; congruence. }
  assert (G1 : getById (setParent_detach s obj parentId) parentId = Some parent).
  { unfold getById in *. rewrite A2. exact G. }
  assert (Hout : ~ List.In obj (obj_children (deref (setParent_detach s obj parentId) parent))).
  { rewrite A3. intros [_ H]. exact (H eq_refl Hd). }
  assert (Hc : obj_children (deref (setParent_detach s obj parentId) parent)
               = obj_children (deref s parent)).
  { unfold setParent_detach. rewrite Ho.
    destruct (negb (strict_eq (VStr (obj_id (deref s old))) parentId)); [| reflexivity].
    rewrite children_after_children. destruct (decide (old = parent)); [contradiction | reflexivity]. }
  rewrite (setParent_cases s y obj parentId parentOrder _ eq_refl), T, G1.
  rewrite children_after_parent.
  apply indexOf_neg_iff in Hout as I. rewrite I.
  split; [| split].
  - rewrite parent_after_children, parent_after_parent.
    destruct (decide (obj = obj)); [reflexivity | contradiction].
  - rewrite children_after_children, !children_after_parent.
    destruct (decide (parent = old)) as [E | _]; [congruence |].
    rewrite A3. intros [_ H]. exact (H eq_refl Hd).
  - rewrite children_after_children, !children_after_parent.
    destruct (decide (parent = parent)); [| contradiction]. rewrite Hc. reflexivity.
Qed.
End SetParent.

(** ** Remote removal of a key *)

(** C7: a "key removed" notification for an id the local store does not
    know leaves the store as it is and raises nothing.  When the store
    holds the entity, the entity is taken out of the children of its
    parent, its parent reference is set to null and its id leaves the
    index. *)
Theorem key_removed s key :
  (getById s (VStr key) = None ->
   YjsSyncPlugin.onKeyRemoved s key = Ok s /\ YjsUtils.onDelete s key = Ok s) /\
  (forall o, getById s (VStr key) = Some o ->
   exists s',
     YjsSyncPlugin.onKeyRemoved s key = Ok s' /\
     YjsUtils.onDelete s key = Ok s' /\
     idIndex s' = delete (obj_id (deref s o)) (idIndex s) /\
     (obj_id (deref s o) = key -> getById s' (VStr key) = None) /\
     obj_parent (deref s' o) = None /\
     forall p, obj_parent (deref s o) = Some p ->
       obj_children (deref s' p)
         = splice_delete1 (obj_children (deref s p)) (indexOf (obj_children (deref s p)) o) /\
       (List.NoDup (obj_children (deref s p)) ->
        ~ List.In o (obj_children (deref s' p)) /\
        (List.In o (obj_children (deref s p)) ->
         forall c, c <> o ->
           (List.In c (obj_children (deref s p)) <-> List.In c (obj_children (deref s' p)))))).
Proof.
  split.
  - intros Hnone. change (YjsUtils.onDelete s key) with (YjsSyncPlugin.onKeyRemoved s key).
    unfold YjsSyncPlugin.onKeyRemoved. rewrite Hnone. cbn. auto.
  - intros o Hsome. change (YjsUtils.onDelete s key) with (YjsSyncPlugin.onKeyRemoved s key).
    unfold YjsSyncPlugin.onKeyRemoved. rewrite Hsome. cbn [parent_opt].
    destruct (obj_parent (deref s o)) as [p |] eqn:Hp; cbn; rewrite ?Hp; cbn.
    + eexists. split; [reflexivity |]. split; [reflexivity |].
      set (g := fun po : Obj =>
                  set_children
                    (splice_delete1 (obj_children po) (indexOf (obj_children po) o)) po).
      set (s1 := update (update s p g) o (set_parent None)).
      assert (Hdo : deref s1 o = set_parent None (deref (update s p g) o))
        by apply deref_update_eq.
      assert (Hid : obj_id (deref s1 o) = obj_id (deref s o)).
      { rewrite Hdo. cbn. rewrite deref_update.
        destruct (decide (p = o)) as [-> | _]; reflexivity. }
      split; [| split; [| split]].
      * unfold removeFromIndex. cbn [idIndex]. rewrite Hid. reflexivity.
      * intros Hk. unfold getById, removeFromIndex. cbn [idIndex]. rewrite Hid, Hk.
        apply lookup_delete_eq.
      * rewrite deref_removeFromIndex, Hdo. reflexivity.
      * intros p' [= <-]. rewrite deref_removeFromIndex.
        assert (Hc : obj_children (deref s1 p) = obj_children (g (deref s p))).
        { unfold s1. rewrite deref_update. destruct (decide (o = p)) as [-> | _].
          - cbn. rewrite deref_update_eq. reflexivity.
          - rewrite deref_update_eq. reflexivity. }
        rewrite Hc. split; [reflexivity |].
        intros Hnd. apply splice_delete1_indexOf. exact Hnd.
    + eexists. split; [reflexivity |]. split; [reflexivity |].
      split; [reflexivity |]. split; [| split].
      * intros Hk. unfold getById, removeFromIndex. cbn [idIndex]. rewrite Hk.
        apply lookup_delete_eq.
      * exact Hp.
      * intros p' [=].
Qed.

Lemma key_removed_witness :
  exists s',
    YjsSyncPlugin.onKeyRemoved Scenario.s_PA "A" = Ok s' /\
    YjsUtils.onDelete Scenario.s_PA "A" = Ok s' /\
    idIndex s' = delete "A" (idIndex Scenario.s_PA) /\
    obj_parent (deref s' 1%nat) = None /\
    ~ List.In 1%nat (obj_children (deref s' 0%nat)).
Proof.
  destruct (proj2 (key_removed Scenario.s_PA "A") 1%nat eq_refl)
    as (s' & H1 & H2 & H3 & _ & H5 & H6).
  exists s'. split; [exact H1 |]. split; [exact H2 |]. split; [exact H3 |].
  split; [exact H5 |].
  destruct (H6 0%nat eq_refl) as [_ H7].
  apply H7. repeat constructor. intros H. inversion H.
Defined.

(** Evaluates a conjunction of closed equations, left to right. *)
Ltac eval_conj :=
  repeat match goal with
  | |- _ /\ _ => split
  | |- _ = _ => vm_compute; reflexivity
  end.

(** ** Remote reparenting *)

(** C1 at a concrete store: [X] is a child of [P1] and the replicated
    map names [P2] as its parent.  The observer of [YjsSyncPlugin] pushes
    [X] onto the children of [P2] and leaves it among the children of
    [P1]: afterwards [P1.children] contains [X] while [X.parent] is
    [P2]. *)
Theorem plugin_reparent_keeps_old_child :
  exists s',
    YjsSyncPlugin.onObjChanged Scenario.y_reparent Scenario.s_reparent "X" ["parent"] = Ok s' /\
    obj_parent (deref Scenario.s_reparent 2%nat) = Some 0%nat /\
    obj_parent (deref s' 2%nat) = Some 1%nat /\
    obj_children (deref s' 0%nat) = [2%nat] /\
    obj_children (deref s' 1%nat) = [2%nat].
Proof. eexists. eval_conj. Qed.

(** The same notification handled by [applyYjsEvent], which goes through
    [setParent]: [X] leaves [P1] and enters [P2]. *)
Lemma utils_reparent_moves_child :
  exists s',
    YjsUtils.applyYjsEvent
      (YjsUtils.mkEvent (Some "X") [("parent", YjsUtils.KUpdate)] ["parent"])
      Scenario.s_reparent Scenario.y_reparent = Ok s' /\
    obj_parent (deref s' 2%nat) = Some 1%nat /\
    obj_children (deref s' 0%nat) = [] /\
    obj_children (deref s' 1%nat) = [2%nat].
Proof. eexists. eval_conj. Qed.

(** ** Order keys *)

(** C3 at two concrete edits: [A] is created and inserted as the only
    child of [P], then [B] is created and inserted behind it.
    [YjsUtils.applyTransaction] sets [parent] before it asks for the order
    key, so the entity inserted counts as its own sibling: [A] gets -1, not
    0, and [B] gets -1/2, the midpoint of the key of [A] and of the key 0
    that CREATE gave [B], not the key of [A] plus 1. *)
Theorem utils_only_child_order :
  getYChildren Scenario.y_P (VStr "P") = [] /\
  exists y1 y2,
    YjsUtils.applyTransaction Scenario.s_A Scenario.add_A Scenario.y_P = Ok y1 /\
    Scenario.order_of y1 "A" = VNum (-1) /\
    YjsUtils.applyTransaction Scenario.s_A_B Scenario.add_B_end y1 = Ok y2 /\
    Scenario.child_ids Scenario.s_A_B 0%nat = ["A"; "B"] /\
    Scenario.order_of y2 "A" = VNum (-1) /\
    Scenario.order_of y2 "B" = VNum (-1 # 2).
Proof. split; [reflexivity |]. do 2 eexists. eval_conj. Qed.

(** The same edits encoded by [YjsSyncPlugin]: the only child gets 0 and
    the child behind it the key of its neighbour plus 1. *)
Lemma plugin_only_child_order :
  exists y1 y2,
    YjsSyncPlugin.applyTransaction Scenario.s_A Scenario.add_A Scenario.y_P = Ok y1 /\
    Scenario.order_of y1 "A" = VNum 0 /\
    YjsSyncPlugin.applyTransaction Scenario.s_A_B Scenario.add_B_end y1 = Ok y2 /\
    Scenario.order_of y2 "A" = VNum 0 /\
    Scenario.order_of y2 "B" = VNum 1.
Proof. do 2 eexists. eval_conj. Qed.

(** Three siblings with the keys 0, 1 and 2 and a fourth inserted at
    position 1: both encoders give it the key 1/2. *)
Lemma insert_between_half :
  YjsSyncPlugin.getParentOrder Scenario.s_between Scenario.y_between 0%nat 1 = Ok (VNum (1 # 2)) /\
  exists y',
    YjsUtils.applyTransaction Scenario.s_between Scenario.add_between Scenario.y_three = Ok y' /\
    Scenario.order_of y' "X" = VNum (1 # 2).
Proof. split; [vm_compute; reflexivity |]. eexists. eval_conj. Qed.

(** C6 at a concrete sequence of edits: [A] is added to [P], then [X] in
    front of it, then [Z] at the end.  [YjsUtils.applyTransaction] gives
    [Z], the right neighbour of [A] in [P.children], the key -3/2, which
    is below the key -1 of [A]. *)
Theorem utils_order_not_between :
  exists y1 y2 y3,
    YjsUtils.applyTransaction Scenario.s_A Scenario.add_A Scenario.y_P = Ok y1 /\
    YjsUtils.applyTransaction Scenario.s_XA Scenario.add_X_front y1 = Ok y2 /\
    YjsUtils.applyTransaction Scenario.s_XAZ Scenario.add_Z_end y2 = Ok y3 /\
    Scenario.child_ids Scenario.s_XAZ 0%nat = ["X"; "A"; "Z"] /\
    Scenario.order_of y3 "X" = VNum (-2) /\
    Scenario.order_of y3 "A" = VNum (-1) /\
    Scenario.order_of y3 "Z" = VNum (-3 # 2) /\
    js_ge (Scenario.order_of y3 "A") (Scenario.order_of y3 "Z") = true.
Proof. do 3 eexists. eval_conj. Qed.

(** The same edits encoded by [YjsSyncPlugin]: the keys ascend with the
    positions. *)
Lemma plugin_order_between :
  exists y1 y2 y3,
    YjsSyncPlugin.applyTransaction Scenario.s_A Scenario.add_A Scenario.y_P = Ok y1 /\
    YjsSyncPlugin.applyTransaction Scenario.s_XA Scenario.add_X_front y1 = Ok y2 /\
    YjsSyncPlugin.applyTransaction Scenario.s_XAZ Scenario.add_Z_end y2 = Ok y3 /\
    Scenario.order_of y3 "X" = VNum (-1) /\
    Scenario.order_of y3 "A" = VNum 0 /\
    Scenario.order_of y3 "Z" = VNum 1.
Proof. do 3 eexists. eval_conj. Qed.

(** In [YjsUtils] an insertion never meets an empty list of siblings:
    once [parent] is written, the entity inserted is among the entries
    [getYChildren] returns, and the branch of [getParentOrder] that
    returns 0 is out of reach. *)
Lemma utils_insert_counts_itself (y : YStore) (oid pid : string) (f : YObj) :
  ymap_has y oid = true ->
  getYChildren (ymap_set y oid (ymap_set f "parent" (VStr pid))) (VStr pid) <> [].
Proof.
  unfold ymap_has, getYChildren.
  induction y as [| [k g] y IH]; cbn [ymap_get ymap_set]; [discriminate |].
  destruct (String.eqb k oid) eqn:E.
  - intros _. cbn [List.filter snd map].
    rewrite field_get_set_eq. cbn [strict_eq]. rewrite String.eqb_refl. discriminate.
  - intros H. cbn [List.filter snd].
    destruct (strict_eq (field_get g "parent") (VStr pid)); [discriminate |].
    apply IH. exact H.
Qed.

(** What [YjsSyncPlugin.getParentOrder] computes from the two neighbours
    of the inserted object in [parent.children]. *)
Lemma plugin_order_midpoint s y parent position p n a b :
  0 < position -> position < js_length (obj_children (deref s parent)) ->
  js_index (obj_children (deref s parent)) (position - 1) = Some p ->
  js_index (obj_children (deref s parent)) (position + 1) = Some n ->
  ymap_has y (obj_id (deref s p)) = true ->
  ymap_has y (obj_id (deref s n)) = true ->
  field_get (fields_of y (obj_id (deref s p))) "parent:order" = VNum a ->
  field_get (fields_of y (obj_id (deref s n))) "parent:order" = VNum b ->
  YjsSyncPlugin.getParentOrder s y parent position = Ok (VNum (Qred ((a + b) / 2))).
Proof.
  intros H0 Hlen Hp Hn Hyp Hyn Ha Hb. unfold YjsSyncPlugin.getParentOrder. cbv zeta.
  apply Z.ltb_lt in H0, Hlen. rewrite H0, Hlen, Hp, Hn.
  rewrite (ystore_get_present _ _ Hyp), (ystore_get_present _ _ Hyn). cbn.
  rewrite Ha, Hb. unfold js_div, js_add, num_binop. cbn [toNumber ofNumber mret Result_ret].
  do 2 f_equal. apply Qred_complete. rewrite Qred_correct. reflexivity.
Qed.

Lemma plugin_order_start s y parent n b :
  js_index (obj_children (deref s parent)) 1 = Some n ->
  ymap_has y (obj_id (deref s n)) = true ->
  field_get (fields_of y (obj_id (deref s n))) "parent:order" = VNum b ->
  YjsSyncPlugin.getParentOrder s y parent 0 = Ok (VNum (Qred (b - 1))).
Proof.
  intros Hn Hyn Hb. unfold YjsSyncPlugin.getParentOrder. cbv zeta.
  assert (Hlen : (0 <? js_length (obj_children (deref s parent))) = true).
  { apply Z.ltb_lt. unfold js_length.
    destruct (obj_children (deref s parent)); [discriminate Hn | cbn; lia]. }
  rewrite Hlen. change (0 <? 0) with false. change (0 + 1) with 1. rewrite Hn.
  rewrite (ystore_get_present _ _ Hyn). cbn. rewrite Hb. reflexivity.
Qed.

Lemma plugin_order_end s y parent position p a :
  0 < position ->
  js_index (obj_children (deref s parent)) (position - 1) = Some p ->
  js_index (obj_children (deref s parent)) (position + 1) = None ->
  ymap_has y (obj_id (deref s p)) = true ->
  field_get (fields_of y (obj_id (deref s p))) "parent:order" = VNum a ->
  YjsSyncPlugin.getParentOrder s y parent position = Ok (VNum (Qred (a + 1))).
Proof.
  intros H0 Hp Hn Hyp Ha. unfold YjsSyncPlugin.getParentOrder. cbv zeta.
  apply Z.ltb_lt in H0. rewrite H0, Hp, Hn.
  rewrite (ystore_get_present _ _ Hyp).
  destruct (position <? js_length (obj_children (deref s parent))); cbn;
    rewrite Ha; reflexivity.
Qed.

Lemma plugin_order_only s y parent :
  js_index (obj_children (deref s parent)) 1 = None ->
  YjsSyncPlugin.getParentOrder s y parent 0 = Ok (VNum 0).
Proof.
  intros Hn. unfold YjsSyncPlugin.getParentOrder. cbv zeta.
  change (0 <? 0) with false. change (0 + 1) with 1. rewrite Hn.
  destruct (0 <? js_length (obj_children (deref s parent))); reflexivity.
Qed.

(** The three keys [YjsSyncPlugin.getParentOrder] can return lie where
    the position asks for them. *)
Lemma order_keys_strict (a b : Q) :
  (a < b -> a < Qred ((a + b) / 2) /\ Qred ((a + b) / 2) < b)%Q /\
  (Qred (b - 1) < b)%Q /\
  (a < Qred (a + 1))%Q.
Proof.
  rewrite !Qred_correct. repeat split; try lra.
  - apply Qlt_shift_div_l; lra.
  - apply Qlt_shift_div_r; lra.
Qed.

(** ** Remote insertion *)

(** C4 at a concrete sequence of edits: one peer adds [B] to [P], then
    [A] in front of it, then [X] between the two, and [YjsSyncPlugin]
    encodes the keys 0, -1 and -1/2.  A second peer that holds [P] only
    handles the three "key added" notifications in turn.  Both observers
    look for the place of [X] among the keys in the iteration order of the
    replicated map, which is [0; -1; -1/2], find 0 and put [X] in front of
    [A], whose key -1 is below the key of [X]: the children end as
    [X; A; B], not [A; X; B]. *)
Theorem remote_insert_misplaced :
  exists y1 y2 y3,
    YjsSyncPlugin.applyTransaction Scenario.s_B Scenario.add_B Scenario.y_P = Ok y1 /\
    YjsSyncPlugin.applyTransaction Scenario.s_AB Scenario.add_A_front y1 = Ok y2 /\
    YjsSyncPlugin.applyTransaction Scenario.s_AXB Scenario.add_X_between y2 = Ok y3 /\
    Scenario.child_ids Scenario.s_AXB 0%nat = ["A"; "X"; "B"] /\
    Scenario.order_of y3 "A" = VNum (-1) /\
    Scenario.order_of y3 "X" = VNum (-1 # 2) /\
    Scenario.order_of y3 "B" = VNum 0 /\
    (exists p1 p2 p3,
       YjsSyncPlugin.onMapKeyChanged y1 Scenario.s_P "B" = Ok p1 /\
       YjsSyncPlugin.onMapKeyChanged y2 p1 "A" = Ok p2 /\
       YjsSyncPlugin.onMapKeyChanged y3 p2 "X" = Ok p3 /\
       Scenario.child_ids p2 0%nat = ["A"; "B"] /\
       Scenario.child_ids p3 0%nat = ["X"; "A"; "B"]) /\
    (exists u1 u2 u3,
       YjsUtils.applyYjsEvent (YjsUtils.mkEvent None [("B", YjsUtils.KAdd)] ["B"])
         Scenario.s_P y1 = Ok u1 /\
       YjsUtils.applyYjsEvent (YjsUtils.mkEvent None [("A", YjsUtils.KAdd)] ["A"])
         u1 y2 = Ok u2 /\
       YjsUtils.applyYjsEvent (YjsUtils.mkEvent None [("X", YjsUtils.KAdd)] ["X"])
         u2 y3 = Ok u3 /\
       Scenario.child_ids u2 0%nat = ["A"; "B"] /\
       Scenario.child_ids u3 0%nat = ["X"; "A"; "B"]).
Proof.
  do 3 eexists. do 7 (split; [vm_compute; reflexivity |]). split.
  - do 3 eexists. eval_conj.
  - do 3 eexists. eval_conj.
Qed.

End YjsProps.


(* ================================================================== *)
(** * Further properties of constraint resolution *)

Module EngineExtra.
Import Macro MacroProps.

Section Engine.
Context {World Canvas : Type}.
Variable cm : string -> option (Resolver World Canvas).

(** ** Constraints nobody registered *)

Lemma fold_resolveOne_unregistered page shape canvas cs : forall r changed,
  (forall c, List.In c cs -> cm (cid c) = None) ->
  fold_left (resolveOne cm page shape canvas) cs (r, changed)
    = (mkRun (world r) (events r ++ map (fun c => caught (shape, c)) cs), changed).
Proof.
  induction cs as [| c cs IH]; intros r changed Hcs; cbn [fold_left map].
  - rewrite app_nil_r. destruct r; reflexivity.
  - unfold resolveOne at 2. unfold call. rewrite (Hcs c (or_introl eq_refl)).
    rewrite IH by (intros c' H; apply Hcs; right; exact H).
    cbn [world events]. rewrite <- app_assoc. reflexivity.
Qed.

Lemma fold_visit_unregistered page canvas shapes : forall r changed,
  (forall s c, List.In s shapes -> List.In c (constraints s) -> cm (cid c) = None) ->
  fold_left (visit cm page canvas) shapes (r, changed)
    = (mkRun (world r)
         (events r ++ map caught (flat_map (fun s => map (pair s) (constraints s)) shapes)),
       changed).
Proof.
  induction shapes as [| s shapes IH]; intros r changed Hs; cbn [fold_left flat_map map].
  - rewrite app_nil_r. destruct r; reflexivity.
  - unfold visit at 2. unfold resolveShapeConstraints.
    rewrite fold_resolveOne_unregistered
      by (intros c Hc; apply (Hs s c); [left; reflexivity | exact Hc]).
    rewrite IH by (intros s' c Hs' Hc; apply (Hs s' c); [right; exact Hs' | exact Hc]).
    cbn [world events orb]. rewrite map_app, <- app_assoc, map_map. reflexivity.
Qed.


Lemma In_all_constraints page s c :
  List.In s (traverse page) -> List.In c (constraints s) ->
  List.In (s, c) (all_constraints page).
Proof.
  intros Hs Hc. unfold all_constraints. apply in_flat_map. exists s. split; [exact Hs |].
  apply in_map. exact Hc.
Qed.

(** X1: a page all of whose constraints name resolvers nobody registered
    (a page without constraints among them) is settled by the first
    traversal, for every iteration cap of at least one:
    [resolveAllConstraints] returns "no change", the world is the one it
    was handed, and the console holds one caught [TypeError] for every
    constraint of every shape, in traversal order, and no warning. *)
Theorem unregistered_constraints_settle r page canvas maxIteration :
  (forall s c, List.In (s, c) (all_constraints page) -> cm (cid c) = None) ->
  (0 < default 3%nat maxIteration)%nat ->
  resolveAllConstraints cm r page canvas maxIteration
    = (mkRun (world r) (events r ++ map caught (all_constraints page)), false).
Proof.
  intros Hun Hpos. unfold resolveAllConstraints.
  destruct (default 3%nat maxIteration) as [| m]; [lia |].
  cbn [resolveLoop]. unfold traversal.
  rewrite fold_visit_unregistered
    by (intros s c Hs Hc; apply (Hun s c); apply In_all_constraints; assumption).
  reflexivity.
Qed.

(** ** A larger cap *)

Lemma resolveLoop_more page canvas m m' : forall left left' r r',
  resolveLoop cm page canvas m left r = (r', false) ->
  (left <= left')%nat ->
  resolveLoop cm page canvas m' left' r = (r', false).
Proof.
  induction left as [| left IH]; intros left' r r'; cbn [resolveLoop].
  - intros [=].
  - intros H Hle. destruct left' as [| left']; [lia |]. cbn [resolveLoop].
    destruct (traversal cm page canvas r) as [r1 ch]. destruct ch; cbn [negb] in *.
    + apply (IH left' r1 r' H). lia.
    + exact H.
Qed.

(** X2: a run of [resolveAllConstraints] that ends with "no change" under
    the cap [m] ends in the same state, with the same console and the same
    answer, under every larger cap. *)
Theorem larger_cap_same_result r page canvas m m' r' :
  resolveAllConstraints cm r page canvas (Some m) = (r', false) ->
  (m <= m')%nat ->
  resolveAllConstraints cm r page canvas (Some m') = (r', false).
Proof.
  unfold resolveAllConstraints. cbn [default]. intros H Hle.
  exact (resolveLoop_more page canvas m m' m m' r r' H Hle).
Qed.

(** ** The warning *)

Lemma omap_shorter {A B : Type} (f : A -> option B) (l : list A) :
  (length (omap f l) <= length l)%nat.
Proof.
  induction l as [| x l IH]; cbn; [lia |]. destruct (f x); cbn; lia.
Qed.

Lemma omap_all_some {A B : Type} (f : A -> option B) (l : list A) :
  length (omap f l) = length l -> Forall (fun x => f x <> None) l.
Proof.
  induction l as [| x l IH]; cbn; [constructor |].
  pose proof (omap_shorter f l) as Hle.
  destruct (f x) eqn:E; cbn; intros H.
  - constructor; [congruence | apply IH; lia].
  - lia.
Qed.

Lemma resolveLoop_log page canvas m : forall left r,
  exists evs k,
    events (fst (resolveLoop cm page canvas m left r))
      = events r ++ evs
          ++ (if snd (resolveLoop cm page canvas m left r) then [EvWarn m] else []) /\
    Forall (fun e => event_key e <> None) evs /\
    (k <= left)%nat /\
    length evs = (k * length (all_constraints page))%nat /\
    (snd (resolveLoop cm page canvas m left r) = true -> k = left).
Proof.
  induction left as [| left IH]; intros r.
  - exists [], 0%nat. cbn. repeat split; auto.
  - cbn [resolveLoop].
    destruct (traversal_spec cm page canvas r) as (e1 & H1 & H2 & H3 & _).
    destruct (traversal cm page canvas r) as [r1 ch]. cbn [fst] in H1.
    assert (Hall : Forall (fun e => event_key e <> None) e1).
    { apply omap_all_some. rewrite H2. symmetry. exact H3. }
    destruct ch; cbn [negb].
    + destruct (IH r1) as (e2 & k & G1 & G2 & G3 & G4 & G5).
      exists (e1 ++ e2), (S k). rewrite G1, H1, <- !app_assoc.
      split; [reflexivity |]. split; [apply Forall_app; auto |].
      split; [lia |]. split; [rewrite length_app; cbn; lia |].
      intros H. rewrite (G5 H). reflexivity.
    + exists e1, 1%nat. cbn [fst snd]. rewrite H1, app_nil_r.
      split; [reflexivity |]. split; [exact Hall |]. split; [lia |].
      split; [lia | discriminate].
Qed.

(** X3: what [resolveAllConstraints] adds to the console is the events
    of [k] whole traversals, [k] being at most the cap, each event about a
    resolver call, followed by the warning exactly when the answer is
    [true]; in that case [k] is the cap. *)
Theorem warning_iff_unsettled r page canvas maxIteration :
  exists evs k,
    events (fst (resolveAllConstraints cm r page canvas maxIteration))
      = events r ++ evs
          ++ (if snd (resolveAllConstraints cm r page canvas maxIteration)
              then [EvWarn (default 3%nat maxIteration)] else []) /\
    Forall (fun e => event_key e <> None) evs /\
    (k <= default 3%nat maxIteration)%nat /\
    length evs = (k * length (all_constraints page))%nat /\
    (snd (resolveAllConstraints cm r page canvas maxIteration) = true ->
     k = default 3%nat maxIteration).
Proof. unfold resolveAllConstraints. apply resolveLoop_log. Qed.

End Engine.

Lemma unregistered_constraints_settle_witness :
  resolveAllConstraints fit_registry fit_start
    (Node (mkShape "page" [mkConstraint "grow" []]) []) tt None
    = (mkRun (world fit_start)
         (events fit_start
            ++ map caught (all_constraints (Node (mkShape "page" [mkConstraint "grow" []]) []))),
       false).
Proof.
  apply (unregistered_constraints_settle fit_registry fit_start
           (Node (mkShape "page" [mkConstraint "grow" []]) []) tt None).
  - intros s c [[= <- <-] | []]. reflexivity.
  - cbn. lia.
Defined.

Lemma larger_cap_same_result_witness :
  resolveAllConstraints fit_registry fit_start one_shape_page tt (Some 5%nat)
    = (fit_settled, false).
Proof.
  apply (larger_cap_same_result fit_registry fit_start one_shape_page tt 1%nat 5%nat
           fit_settled).
  - reflexivity.
  - lia.
Defined.

End EngineExtra.


(* ================================================================== *)
(** * Further properties of the replication bridge *)

Module BridgeExtra.
Import YjsProps.

(** ** [setParent] *)

Lemma set_parent_same (o : Obj) (p : option loc) : obj_parent o = p -> set_parent p o = o.
Proof. intros <-. destruct o; reflexivity. Qed.

Lemma id_after_parent s l v c :
  obj_id (deref (update s l (set_parent v)) c) = obj_id (deref s c).
Proof.
  rewrite deref_update. destruct (decide (l = c)) as [-> | _]; reflexivity.
Qed.

Lemma setParent_detach_index s obj parentId :
  idIndex (setParent_detach s obj parentId) = idIndex s.
Proof.
  unfold setParent_detach. destruct (obj_parent (deref s obj)); [| reflexivity].
  destruct (negb _); reflexivity.
Qed.

Lemma setParent_detach_id s obj parentId c :
  obj_id (deref (setParent_detach s obj parentId) c) = obj_id (deref s c).
Proof.
  unfold setParent_detach. destruct (obj_parent (deref s obj)); [| reflexivity].
  destruct (negb _); [apply id_after_children | reflexivity].
Qed.

Lemma setParent_detach_parent s obj parentId c :
  obj_parent (deref (setParent_detach s obj parentId) c) = obj_parent (deref s c).
Proof.
  unfold setParent_detach. destruct (obj_parent (deref s obj)); [| reflexivity].
  destruct (negb _); [apply parent_after_children | reflexivity].
Qed.

(** [setParent] leaves the index and the ids alone, and the parent it
    gives the object is the entity the index holds under [parentId], if
    any. *)
Lemma setParent_frame s y obj parentId parentOrder :
  idIndex (YjsUtils.setParent s y obj parentId parentOrder) = idIndex s /\
  (forall c, obj_id (deref (YjsUtils.setParent s y obj parentId parentOrder) c)
             = obj_id (deref s c)) /\
  obj_parent (deref (YjsUtils.setParent s y obj parentId parentOrder) obj)
    = (if truthy parentId then getById s parentId else None) /\
  (forall c, c <> obj ->
             obj_parent (deref (YjsUtils.setParent s y obj parentId parentOrder) c)
             = obj_parent (deref s c)).
Proof.
  rewrite (setParent_cases s y obj parentId parentOrder _ eq_refl).
  assert (G : getById (setParent_detach s obj parentId) parentId = getById s parentId).
  { unfold getById. rewrite setParent_detach_index. reflexivity. }
  rewrite G.
  destruct (truthy parentId).
  - destruct (getById s parentId) as [parent |].
    + destruct (_ <? 0).
      * split; [cbn; apply setParent_detach_index |]. split; [| split].
        -- intros c. rewrite id_after_children, id_after_parent. apply setParent_detach_id.
        -- rewrite parent_after_children, parent_after_parent.
           destruct (decide (obj = obj)); [reflexivity | contradiction].
        -- intros c Hc. rewrite parent_after_children, parent_after_parent.
           destruct (decide (obj = c)); [congruence | apply setParent_detach_parent].
      * split; [cbn; apply setParent_detach_index |]. split; [| split].
        -- intros c. rewrite id_after_parent. apply setParent_detach_id.
        -- rewrite parent_after_parent.
           destruct (decide (obj = obj)); [reflexivity | contradiction].
        -- intros c Hc. rewrite parent_after_parent.
           destruct (decide (obj = c)); [congruence | apply setParent_detach_parent].
    + split; [cbn; apply setParent_detach_index |]. split; [| split].
      * intros c. rewrite id_after_parent. apply setParent_detach_id.
      * rewrite parent_after_parent.
        destruct (decide (obj = obj)); [reflexivity | contradiction].
      * intros c Hc. rewrite parent_after_parent.
        destruct (decide (obj = c)); [congruence | apply setParent_detach_parent].
  - split; [cbn; apply setParent_detach_index |]. split; [| split].
    + intros c. rewrite id_after_parent. apply setParent_detach_id.
    + rewrite parent_after_parent.
      destruct (decide (obj = obj)); [reflexivity | contradiction].
    + intros c Hc. rewrite parent_after_parent.
      destruct (decide (obj = c)); [congruence | apply setParent_detach_parent].
Qed.

(** An object that already sits under the parent [parentId] names is
    left where it is. *)
Lemma setParent_attached_noop s y obj parentId parentOrder p k :
  obj_parent (deref s obj) = Some p -> parentId = VStr k -> k <> "" ->
  idIndex s !! k = Some p -> obj_id (deref s p) = k ->
  List.In obj (obj_children (deref s p)) ->
  forall c, deref (YjsUtils.setParent s y obj parentId parentOrder) c = deref s c.
Proof.
  intros Hp -> Hk Hi Hid Hin c.
  rewrite (setParent_cases s y obj (VStr k) parentOrder _ eq_refl).
  assert (Hs1 : setParent_detach s obj (VStr k) = s).
  { unfold setParent_detach. rewrite Hp, Hid. cbn. rewrite String.eqb_refl. reflexivity. }
  rewrite Hs1. cbn [truthy getById]. apply String.eqb_neq in Hk. rewrite Hk. cbn [negb].
  rewrite Hi, children_after_parent.
  destruct (indexOf (obj_children (deref s p)) obj <? 0) eqn:I.
  - apply indexOf_neg_iff in I. contradiction.
  - rewrite deref_update. destruct (decide (obj = c)) as [<- | _]; [| reflexivity].
    apply set_parent_same. exact Hp.
Qed.

(** An object without parent whose [parentId] names no entity is left
    as it is. *)
Lemma setParent_unattached_noop s y obj parentId parentOrder :
  obj_parent (deref s obj) = None ->
  (if truthy parentId then getById s parentId else None) = None ->
  forall c, deref (YjsUtils.setParent s y obj parentId parentOrder) c = deref s c.
Proof.
  intros Hp Hnone c.
  rewrite (setParent_cases s y obj parentId parentOrder _ eq_refl).
  assert (Hs1 : setParent_detach s obj parentId = s).
  { unfold setParent_detach. rewrite Hp. reflexivity. }
  rewrite Hs1.
  assert (Hfin : deref (update s obj (set_parent None)) c = deref s c).
  { rewrite deref_update. destruct (decide (obj = c)) as [<- | _]; [| reflexivity].
    apply set_parent_same. exact Hp. }
  destruct (truthy parentId); [| exact Hfin].
  rewrite Hnone. exact Hfin.
Qed.


(** ** Concrete stores *)

Lemma lookup_imap_heap (objs : list Obj) : forall (k l : nat),
  (list_to_map (imap (fun i o => ((k + i)%nat, o)) objs) : gmap loc Obj) !! l
    = if decide (k <= l)%nat then objs !! (l - k)%nat else None.
Proof.
  induction objs as [| o objs IH]; intros k l; cbn [imap list_to_map foldr].
  - rewrite lookup_empty. destruct (decide (k <= l)%nat); reflexivity.
  - cbn. rewrite lookup_insert.
    replace (k + 0)%nat with k by lia.
    destruct (decide (k = l)) as [-> | Hne].
    + destruct (decide (l <= l)%nat); [| lia]. rewrite Nat.sub_diag. reflexivity.
    + rewrite (imap_ext _ (fun i o => ((S k + i)%nat, o))) by (intros; cbn; f_equal; lia).
      rewrite IH.
      destruct (decide (S k <= l)%nat), (decide (k <= l)%nat); try lia; [| reflexivity].
      replace (l - k)%nat with (S (l - S k)) by lia. reflexivity.
Qed.

(** The object a concrete store holds at a location. *)
Lemma deref_store_of (objs : list Obj) (l : loc) :
  deref (Scenario.store_of objs) l = default inhabitant (objs !! l).
Proof.
  unfold deref, Scenario.store_of. cbn [heap].
  rewrite lookup_total_alt.
  pose proof (lookup_imap_heap objs 0 l) as H.
  change (fun i o => ((0 + i)%nat, o)) with (fun (i : nat) (o : Obj) => (i, o)) in H.
  f_equal. etransitivity; [exact H |].
  destruct (decide (0 <= l)%nat); [| lia]. rewrite Nat.sub_0_r. reflexivity.
Qed.


Lemma s_reparent_indexed : parents_indexed Scenario.s_reparent.
Proof.
  split.
  - intros c p. unfold Scenario.s_reparent. rewrite !deref_store_of.
    destruct c as [| [| [| c]]]; cbn; try discriminate.
    intros [= <-]. vm_compute. reflexivity.
  - intros k l H. unfold Scenario.s_reparent in *. rewrite deref_store_of.
    unfold Scenario.store_of in H. cbn [idIndex] in H. simpl imap in H.
    rewrite !list_to_map_cons, list_to_map_nil in H. cbn [fst snd] in H.
    repeat (rewrite lookup_insert in H;
            destruct (decide (_ = k)) as [<- | ?];
            [injection H as <-; split; [reflexivity | discriminate] |]).
    rewrite lookup_empty in H. discriminate.
Qed.

Lemma s_reparent_inv : parent_children_inv Scenario.s_reparent.
Proof.
  intros p c. unfold Scenario.s_reparent. rewrite !deref_store_of.
  destruct p as [| [| [| p]]]; destruct c as [| [| [| c]]]; cbn;
    split; intros H; try discriminate; try reflexivity;
    repeat (destruct H as [H | H]; try discriminate); try contradiction; auto.
Qed.

Lemma s_reparent_nodup : children_nodup Scenario.s_reparent.
Proof.
  intros p. unfold Scenario.s_reparent. rewrite deref_store_of.
  destruct p as [| [| [| p]]]; cbn; repeat constructor. intros [].
Qed.

(** ** The store invariant under [setParent] *)

Lemma setParent_keeps_index s y obj parentId parentOrder :
  parents_indexed s -> parents_indexed (YjsUtils.setParent s y obj parentId parentOrder).
Proof.
  intros Hpi.
  destruct (setParent_frame s y obj parentId parentOrder) as (Fi & Fid & Fp & Fo).
  destruct Hpi as [Hp1 Hp2]. split.
  - intros c p. rewrite Fi, Fid. destruct (decide (c = obj)) as [-> | Hc].
    + rewrite Fp. destruct (truthy parentId); [| discriminate].
      unfold getById. destruct parentId as [| | | | | k]; try discriminate.
      intros H. destruct (Hp2 _ _ H) as [-> _]. exact H.
    + rewrite (Fo c Hc). apply Hp1.
  - intros k l. rewrite Fi, Fid. apply Hp2.
Qed.

(** X4: [setParent] keeps a well-formed store well-formed, whatever the
    object, the parent id and the order key: afterwards every parent
    reference still leads to the entity indexed under the id of the parent,
    [parent.children] contains [child] if and only if [child.parent] is
    [parent], and no array of children lists an object twice. *)
Theorem setParent_preserves_invariant s y obj parentId parentOrder :
  parents_indexed s -> parent_children_inv s -> children_nodup s ->
  parents_indexed (YjsUtils.setParent s y obj parentId parentOrder) /\
  parent_children_inv (YjsUtils.setParent s y obj parentId parentOrder) /\
  children_nodup (YjsUtils.setParent s y obj parentId parentOrder).
Proof.
  intros Hpi Hinv Hnd. split.
  - apply setParent_keeps_index. exact Hpi.
  - exact (setParent_keeps_invariant s y obj parentId parentOrder Hpi Hinv Hnd).
Qed.

Lemma setParent_preserves_invariant_witness :
  parents_indexed
    (YjsUtils.setParent Scenario.s_reparent Scenario.y_reparent 2%nat (VStr "P2") (VNum 0)) /\
  parent_children_inv
    (YjsUtils.setParent Scenario.s_reparent Scenario.y_reparent 2%nat (VStr "P2") (VNum 0)) /\
  children_nodup
    (YjsUtils.setParent Scenario.s_reparent Scenario.y_reparent 2%nat (VStr "P2") (VNum 0)).
Proof.
  apply (setParent_preserves_invariant Scenario.s_reparent Scenario.y_reparent 2%nat
           (VStr "P2") (VNum 0)).
  - exact s_reparent_indexed.
  - exact s_reparent_inv.
  - exact s_reparent_nodup.
Defined.

Lemma setParent_place_at y parentId parentOrder (l : list loc) (obj : loc) :
  exists l1 l2,
    l = l1 ++ l2 /\
    setParent_place y parentId parentOrder l obj = l1 ++ obj :: l2 /\
    Z.of_nat (length l1)
      = (let position :=
           findIndex (fun o => js_ge o parentOrder)
             (map (fun yChild => field_get yChild "parent:order")
                (getYChildren y parentId)) in
         if position <? 0 then js_length l else Z.min position (js_length l)).
Proof.
  unfold setParent_place. cbv zeta.
  destruct (findIndex _ _ <? 0) eqn:E.
  - exists l, []. rewrite app_nil_r. repeat split; reflexivity.
  - apply Z.ltb_ge in E. unfold splice_insert, splice_start. cbv zeta.
    destruct (findIndex _ _ <? 0) eqn:E'; [apply Z.ltb_lt in E'; lia |].
    eexists _, _. split; [symmetry; apply firstn_skipn |]. split; [reflexivity |].
    rewrite length_firstn. unfold js_length. lia.
Qed.

(** X5: in a well-formed store, [setParent] with the id of an entity other
    than the current parent moves the object: its parent reference is the
    new parent, the old parent does not list it any more, the children of
    every other entity are as before, and the new parent lists its
    children in the order they had with the object put in once, at the
    index [position] the code computes: the index, among the entries of
    the replicated map whose [parent] is the new id, taken in the
    iteration order of the map and the entry of the object itself
    counted, of the first whose order key is at least [parentOrder]; the
    end of the array when there is none or the index lies past it.  (This
    is an index into the replicated map, not the rank of the order key
    among [parent.children].) *)
Theorem setParent_reparents s y obj parentId parentOrder old parent :
  parents_indexed s -> parent_children_inv s -> children_nodup s ->
  obj_parent (deref s obj) = Some old ->
  truthy parentId = true ->
  getById s parentId = Some parent ->
  old <> parent ->
  obj_parent (deref (YjsUtils.setParent s y obj parentId parentOrder) obj) = Some parent /\
  ~ List.In obj (obj_children (deref (YjsUtils.setParent s y obj parentId parentOrder) old)) /\
  (exists l1 l2,
     obj_children (deref s parent) = l1 ++ l2 /\
     obj_children (deref (YjsUtils.setParent s y obj parentId parentOrder) parent)
       = l1 ++ obj :: l2 /\
     Z.of_nat (length l1)
       = (let position :=
            findIndex (fun o => js_ge o parentOrder)
              (map (fun yChild => field_get yChild "parent:order")
                 (getYChildren y parentId)) in
          if position <? 0 then js_length (obj_children (deref s parent))
          else Z.min position (js_length (obj_children (deref s parent))))) /\
  (forall p, p <> old -> p <> parent ->
     obj_children (deref (YjsUtils.setParent s y obj parentId parentOrder) p)
       = obj_children (deref s p)).
Proof.
  intros Hpi Hinv Hnd Ho T G Hne.
  destruct (setParent_moves s y obj parentId parentOrder Hpi Hinv Hnd old parent Ho T G Hne)
    as (H1 & H2 & H3).
  split; [exact H1 |]. split; [exact H2 |]. split.
  { destruct (setParent_place_at y parentId parentOrder (obj_children (deref s parent)) obj)
      as (l1 & l2 & A1 & A2 & A3).
    exists l1, l2. split; [exact A1 |]. split; [rewrite H3; exact A2 | exact A3]. }
  intros p Hpo Hpp.
  rewrite (setParent_cases s y obj parentId parentOrder _ eq_refl), T.
  assert (G1 : getById (setParent_detach s obj parentId) parentId = Some parent).
  { unfold getById in *. rewrite setParent_detach_index. exact G. }
  rewrite G1.
  assert (Hc : obj_children (deref (setParent_detach s obj parentId) p)
               = obj_children (deref s p)).
  { unfold setParent_detach. rewrite Ho. destruct (negb _); [| reflexivity].
    rewrite children_after_children. destruct (decide (old = p)); [congruence | reflexivity]. }
  destruct (_ <? 0).
  - rewrite children_after_children, !children_after_parent.
    destruct (decide (parent = p)); [congruence | exact Hc].
  - rewrite children_after_parent. exact Hc.
Qed.

Lemma setParent_reparents_witness :
  obj_parent
    (deref (YjsUtils.setParent Scenario.s_reparent Scenario.y_reparent 2%nat (VStr "P2")
              (VNum 0)) 2%nat) = Some 1%nat /\
  ~ List.In 2%nat
      (obj_children
         (deref (YjsUtils.setParent Scenario.s_reparent Scenario.y_reparent 2%nat (VStr "P2")
                   (VNum 0)) 0%nat)) /\
  (exists l1 l2,
     obj_children (deref Scenario.s_reparent 1%nat) = l1 ++ l2 /\
     obj_children
       (deref (YjsUtils.setParent Scenario.s_reparent Scenario.y_reparent 2%nat (VStr "P2")
                 (VNum 0)) 1%nat)
       = l1 ++ 2%nat :: l2 /\
     Z.of_nat (length l1)
       = (let position :=
            findIndex (fun o => js_ge o (VNum 0))
              (map (fun yChild => field_get yChild "parent:order")
                 (getYChildren Scenario.y_reparent (VStr "P2"))) in
          if position <? 0 then js_length (obj_children (deref Scenario.s_reparent 1%nat))
          else Z.min position (js_length (obj_children (deref Scenario.s_reparent 1%nat))))) /\
  (forall p, p <> 0%nat -> p <> 1%nat ->
     obj_children
       (deref (YjsUtils.setParent Scenario.s_reparent Scenario.y_reparent 2%nat (VStr "P2")
                 (VNum 0)) p)
       = obj_children (deref Scenario.s_reparent p)).
Proof.
  apply (setParent_reparents Scenario.s_reparent Scenario.y_reparent 2%nat (VStr "P2")
           (VNum 0) 0%nat 1%nat).
  - exact s_reparent_indexed.
  - exact s_reparent_inv.
  - exact s_reparent_nodup.
  - reflexivity.
  - reflexivity.
  - reflexivity.
  - lia.
Defined.

(** X6: in a well-formed store, handling the same parent update twice is
    handling it once: a second [setParent] with the same arguments changes
    neither the index nor any entity. *)
Theorem setParent_idempotent s y obj parentId parentOrder :
  parents_indexed s -> parent_children_inv s -> children_nodup s ->
  idIndex (YjsUtils.setParent (YjsUtils.setParent s y obj parentId parentOrder)
             y obj parentId parentOrder)
    = idIndex (YjsUtils.setParent s y obj parentId parentOrder) /\
  forall c,
    deref (YjsUtils.setParent (YjsUtils.setParent s y obj parentId parentOrder)
             y obj parentId parentOrder) c
      = deref (YjsUtils.setParent s y obj parentId parentOrder) c.
Proof.
  intros Hpi Hinv Hnd.
  destruct (setParent_keeps_invariant s y obj parentId parentOrder Hpi Hinv Hnd) as [Hinv' _].
  destruct (setParent_frame s y obj parentId parentOrder) as (Fi & Fid & Fp & _).
  split; [apply setParent_frame |].
  destruct (if truthy parentId then getById s parentId else None) as [parent |] eqn:E.
  - destruct (truthy parentId) eqn:T; [| discriminate].
    destruct parentId as [| | | | | k]; try discriminate.
    cbn [getById] in E. destruct Hpi as [_ Hp2]. destruct (Hp2 _ _ E) as [Hid Hk].
    apply (setParent_attached_noop _ y obj (VStr k) parentOrder parent k).
    + exact Fp.
    + reflexivity.
    + exact Hk.
    + rewrite Fi. exact E.
    + rewrite Fid. exact Hid.
    + apply Hinv'. exact Fp.
  - apply setParent_unattached_noop.
    + exact Fp.
    + assert (G : getById (YjsUtils.setParent s y obj parentId parentOrder) parentId
                  = getById s parentId).
      { unfold getById. rewrite Fi. reflexivity. }
      rewrite G. exact E.
Qed.

Lemma setParent_idempotent_witness :
  idIndex (YjsUtils.setParent
             (YjsUtils.setParent Scenario.s_reparent Scenario.y_reparent 2%nat (VStr "P2")
                (VNum 0))
             Scenario.y_reparent 2%nat (VStr "P2") (VNum 0))
    = idIndex (YjsUtils.setParent Scenario.s_reparent Scenario.y_reparent 2%nat (VStr "P2")
                 (VNum 0)) /\
  forall c,
    deref (YjsUtils.setParent
             (YjsUtils.setParent Scenario.s_reparent Scenario.y_reparent 2%nat (VStr "P2")
                (VNum 0))
             Scenario.y_reparent 2%nat (VStr "P2") (VNum 0)) c
      = deref (YjsUtils.setParent Scenario.s_reparent Scenario.y_reparent 2%nat (VStr "P2")
                 (VNum 0)) c.
Proof.
  apply (setParent_idempotent Scenario.s_reparent Scenario.y_reparent 2%nat (VStr "P2")
           (VNum 0)).
  - exact s_reparent_indexed.
  - exact s_reparent_inv.
  - exact s_reparent_nodup.
Defined.

End BridgeExtra.


(* ================================================================== *)
(** * Further properties of the encoders *)

Module EncoderExtra.
Import YjsProps.

(** ** More facts about [Y.Map] *)

Section YMapMore.
Context {V : Type}.
Implicit Types (m : list (string * V)) (k : string) (v : V).

Lemma ymap_has_set m k v : ymap_has (ymap_set m k v) k = true.
Proof. unfold ymap_has. rewrite ymap_get_set_eq. reflexivity. Qed.

Lemma ymap_has_set_ne m k k' v : k <> k' -> ymap_has (ymap_set m k v) k' = ymap_has m k'.
Proof. intros H. unfold ymap_has. rewrite ymap_get_set_ne by exact H. reflexivity. Qed.

Lemma ymap_set_set m k v v' : ymap_set (ymap_set m k v) k v' = ymap_set m k v'.
Proof.
  induction m as [| [k0 v0] m IH]; cbn.
  - rewrite String.eqb_refl. reflexivity.
  - destruct (String.eqb k0 k) eqn:E; cbn.
    + rewrite String.eqb_refl. reflexivity.
    + rewrite E, IH. reflexivity.
Qed.

Lemma ymap_set_same m k v : ymap_get m k = Some v -> ymap_set m k v = m.
Proof.
  induction m as [| [k0 v0] m IH]; cbn; [discriminate |].
  destruct (String.eqb k0 k) eqn:E.
  - apply String.eqb_eq in E as ->. intros [= ->]. reflexivity.
  - intros H. rewrite (IH H). reflexivity.
Qed.

Lemma ymap_set_keys m k v : ymap_has m k = true -> map fst (ymap_set m k v) = map fst m.
Proof.
  unfold ymap_has. induction m as [| [k0 v0] m IH]; cbn; [discriminate |].
  destruct (String.eqb k0 k) eqn:E; cbn.
  - apply String.eqb_eq in E as ->. reflexivity.
  - intros H. rewrite (IH H). reflexivity.
Qed.

Lemma ymap_get_None m k : ymap_get m k = None <-> ~ List.In k (map fst m).
Proof.
  induction m as [| [k0 v0] m IH]; cbn.
  - tauto.
  - destruct (String.eqb k0 k) eqn:E.
    + apply String.eqb_eq in E as ->. split; [discriminate | intros H; exfalso; auto].
    + apply String.eqb_neq in E. rewrite IH. tauto.
Qed.

Lemma ymap_set_fresh m k v : ymap_get m k = None -> ymap_set m k v = m ++ [(k, v)].
Proof.
  induction m as [| [k0 v0] m IH]; cbn; [reflexivity |].
  destruct (String.eqb k0 k); [discriminate |].
  intros H. rewrite (IH H). reflexivity.
Qed.

Lemma ymap_delete_absent m k : ymap_get m k = None -> ymap_delete m k = m.
Proof.
  unfold ymap_delete. induction m as [| [k0 v0] m IH]; cbn; [reflexivity |].
  destruct (String.eqb k0 k); [discriminate |].
  intros H. cbn. rewrite (IH H). reflexivity.
Qed.

Lemma ymap_delete_set m k v : ymap_delete (ymap_set m k v) k = ymap_delete m k.
Proof.
  unfold ymap_delete. induction m as [| [k0 v0] m IH]; cbn.
  - rewrite String.eqb_refl. reflexivity.
  - destruct (String.eqb k0 k) eqn:E; cbn.
    + rewrite String.eqb_refl. cbn. reflexivity.
    + rewrite E. cbn. rewrite IH. reflexivity.
Qed.

Lemma ymap_delete_app m1 m2 k : ymap_delete (m1 ++ m2) k = ymap_delete m1 k ++ ymap_delete m2 k.
Proof. unfold ymap_delete. apply List.filter_app. Qed.
End YMapMore.

Lemma ystore_get_cases (y : YStore) (k : string) :
  (ystore_get y k = Some k /\ ymap_has y k = true) \/
  (ystore_get y k = None /\ ymap_has y k = false).
Proof. unfold ystore_get. destruct (ymap_has y k); auto. Qed.

Lemma ymap_has_get {V : Type} (m : list (string * V)) (k : string) :
  ymap_has m k = true -> exists v, ymap_get m k = Some v.
Proof. unfold ymap_has. destruct (ymap_get m k) as [v |]; [eauto | discriminate]. Qed.

Lemma ymap_set_fields (y : YStore) (k : string) :
  ymap_has y k = true -> ymap_set y k (fields_of y k) = y.
Proof.
  intros H. destruct (ymap_has_get _ _ H) as [f Hf].
  unfold fields_of. rewrite Hf. apply ymap_set_same. exact Hf.
Qed.

(** ** The shape of one step *)

Ltac split_guards y :=
  repeat match goal with
  | |- context [ystore_get y ?k] =>
      let H := fresh "Hhas" in
      destruct (ystore_get_cases y k) as [[-> H] | [-> H]]; cbn
  | o : option loc |- _ => destruct o; cbn
  end.

Ltac close_entry_step :=
  first [ left; reflexivity
        | right; rewrite ?fields_of_set, ?ymap_set_set; eexists; split; [reflexivity | assumption] ].

Lemma plugin_apply_entry_step s y m :
  keyed m = false -> entry_step s y m (YjsSyncPlugin.applyMutation s y m).
Proof.
  unfold entry_step. destruct m; try discriminate; intros _; cbn; split_guards y;
    try close_entry_step.
  destruct (plugin_getParentOrder_returns s
              (ymap_set y (obj_id (deref s obj))
                 (ymap_set (fields_of y (obj_id (deref s obj))) "parent"
                    (VStr (obj_id (deref s parent)))))
              parent position) as [order ->].
  cbn. close_entry_step.
Qed.

Lemma plugin_unapply_entry_step s y m :
  keyed m = false -> entry_step s y m (YjsSyncPlugin.unapplyMutation s y m).
Proof.
  unfold entry_step. destruct m; try discriminate; intros _; cbn; split_guards y;
    try close_entry_step.
  destruct (plugin_getParentOrder_returns s
              (ymap_set y (obj_id (deref s obj))
                 (ymap_set (fields_of y (obj_id (deref s obj))) "parent"
                    (VStr (obj_id (deref s parent)))))
              parent position) as [order ->].
  cbn. close_entry_step.
Qed.

Lemma utils_apply_entry_step s y m :
  keyed m = false -> entry_step s y m (YjsUtils.applyMutation s y m).
Proof.
  unfold entry_step. destruct m; try discriminate; intros _; cbn; split_guards y;
    close_entry_step.
Qed.

Lemma utils_unapply_entry_step s y m :
  keyed m = false -> entry_step s y m (YjsUtils.unapplyMutation s y m).
Proof.
  unfold entry_step. destruct m; try discriminate; intros _; cbn; split_guards y;
    close_entry_step.
Qed.


(** ** Transactions without CREATE and DELETE *)

Section Steps.
Variable s : Store.
Variable step : YStore -> Mutation -> Result YStore.
Hypothesis Hstep : forall y m, keyed m = false -> entry_step s y m (step y m).

Lemma forM_entry_steps (ms : list Mutation) :
  Forall (fun m => keyed m = false) ms ->
  forall y, exists y',
    forM step ms y = Ok y' /\
    map fst y' = map fst y /\
    (forall k, ~ List.In k (map (fun m => obj_id (deref s (subject m))) ms) ->
               ymap_get y' k = ymap_get y k) /\
    (forall i, (forall m, List.In m ms -> obj_id (deref s (subject m)) = i) ->
               ymap_delete y' i = ymap_delete y i).
Proof.
  induction 1 as [| m ms Hm _ IH]; intros y.
  - exists y. cbn. auto.
  - cbn [forM].
    destruct (Hstep y m Hm) as [-> | (f & -> & Hhas)]; cbn.
    + destruct (IH y) as (y' & H1 & H2 & H3 & H4).
      exists y'. split; [exact H1 |]. split; [exact H2 |]. split.
      * intros k Hk. apply H3. intros Hin. apply Hk. right. exact Hin.
      * intros i Hi. apply H4. intros m' Hm'. apply Hi. right. exact Hm'.
    + destruct (IH (ymap_set y (obj_id (deref s (subject m))) f)) as (y' & H1 & H2 & H3 & H4).
      exists y'. split; [exact H1 |]. split; [| split].
      * rewrite H2. apply ymap_set_keys. exact Hhas.
      * intros k Hk. rewrite H3 by (intros Hin; apply Hk; right; exact Hin).
        apply ymap_get_set_ne. intros E. apply Hk. left. exact E.
      * intros i Hi. rewrite H4 by (intros m' Hm'; apply Hi; right; exact Hm').
        pose proof (Hi m (or_introl eq_refl)) as Hi0. subst i. apply ymap_delete_set.
Qed.
End Steps.

(** X7: a transaction without CREATE and DELETE never adds, removes or
    reorders a key of the replicated map, whichever encoder runs it and in
    whichever direction, and it leaves alone the entry of every entity none
    of its mutations edits: the map a run returns has the keys it started
    with, in the same order, and the same entries for these entities. *)
Theorem nonkeyed_keep_entries s tx y :
  Forall (fun m => keyed m = false) (mutations tx) ->
  keeps_entries s tx y (YjsSyncPlugin.applyTransaction s tx y) /\
  keeps_entries s tx y (YjsSyncPlugin.unapplyTransaction s tx y) /\
  keeps_entries s tx y (YjsUtils.applyTransaction s tx y) /\
  keeps_entries s tx y (YjsUtils.unapplyTransaction s tx y).
Proof.
  intros Hk. unfold keeps_entries.
  assert (Hrev : forall k,
             ~ List.In k (map (fun m => obj_id (deref s (subject m))) (mutations tx)) ->
             ~ List.In k (map (fun m => obj_id (deref s (subject m))) (rev (mutations tx)))).
  { intros k H Hin. apply H. rewrite map_rev in Hin. apply in_rev in Hin. exact Hin. }
  split; [| split; [| split]].
  - rewrite plugin_applyTransaction_forM.
    destruct (forM_entry_steps s _ (plugin_apply_entry_step s) _ Hk y) as (y' & H1 & H2 & H3 & _).
    rewrite H1. intros y0 [= <-]. auto.
  - rewrite plugin_unapplyTransaction_forM.
    destruct (forM_entry_steps s _ (plugin_unapply_entry_step s) _ (List.Forall_rev Hk) y)
      as (y' & H1 & H2 & H3 & _).
    rewrite H1. intros y0 [= <-]. auto.
  - rewrite utils_applyTransaction_forM.
    destruct (forM_entry_steps s _ (utils_apply_entry_step s) _ Hk y) as (y' & H1 & H2 & H3 & _).
    rewrite H1. intros y0 [= <-]. auto.
  - rewrite utils_unapplyTransaction_forM.
    destruct (forM_entry_steps s _ (utils_unapply_entry_step s) _ (List.Forall_rev Hk) y)
      as (y' & H1 & H2 & H3 & _).
    rewrite H1. intros y0 [= <-]. auto.
Qed.

Lemma nonkeyed_keep_entries_witness :
  exists y',
    YjsSyncPlugin.applyTransaction Scenario.s_PA
      (mkTx [ASSIGN 1%nat "width" (VNum 10) (VNum 20)]) Scenario.y_PA = Ok y' /\
    map fst y' = map fst Scenario.y_PA /\
    ymap_get y' "P" = ymap_get Scenario.y_PA "P".
Proof.
  destruct (nonkeyed_keep_entries Scenario.s_PA
              (mkTx [ASSIGN 1%nat "width" (VNum 10) (VNum 20)]) Scenario.y_PA)
    as (K & _).
  - repeat constructor.
  - eexists. split; [vm_compute; reflexivity |].
    destruct (K _ eq_refl) as [K1 K2]. split; [exact K1 |].
    apply K2. intros [H | []]. discriminate H.
Defined.

(** ** Redo *)

Lemma plugin_onRedo_forM s action y :
  YjsSyncPlugin.onRedo s action y
    = forM (YjsSyncPlugin.applyMutation s) (flat_map mutations (transactions action)) y.
Proof.
  unfold YjsSyncPlugin.onRedo.
  rewrite (for_up_forM (fun y tx => YjsSyncPlugin.applyTransaction s tx y)).
  rewrite (forM_ext _ (fun y tx => forM (YjsSyncPlugin.applyMutation s) (mutations tx) y))
    by (intros; apply plugin_applyTransaction_forM).
  apply (forM_flat_map (YjsSyncPlugin.applyMutation s) mutations).
Qed.

Lemma plugin_onUndo_forM s action y :
  YjsSyncPlugin.onUndo s action y
    = forM (YjsSyncPlugin.unapplyMutation s) (rev (flat_map mutations (transactions action))) y.
Proof.
  unfold YjsSyncPlugin.onUndo.
  rewrite (for_down_forM (fun y tx => YjsSyncPlugin.unapplyTransaction s tx y)).
  rewrite (forM_ext _ (fun y tx => forM (YjsSyncPlugin.unapplyMutation s)
                                     (rev (mutations tx)) y))
    by (intros; apply plugin_unapplyTransaction_forM).
  rewrite (forM_flat_map (YjsSyncPlugin.unapplyMutation s) (fun tx => rev (mutations tx))).
  rewrite rev_flat_map. reflexivity.
Qed.

(** X8: on redo the bridge applies the transactions of the action first to
    last and the mutations of each first to last, which is what
    [onTransaction] does with one transaction that holds all these
    mutations, whether the run returns or throws. *)
Theorem onRedo_forward_order s action y :
  YjsSyncPlugin.onRedo s action y
    = forM (YjsSyncPlugin.applyMutation s) (flat_map mutations (transactions action)) y /\
  YjsSyncPlugin.onRedo s action y
    = YjsSyncPlugin.onTransaction s (mkTx (flat_map mutations (transactions action))) y.
Proof.
  split; [apply plugin_onRedo_forM |].
  unfold YjsSyncPlugin.onTransaction.
  rewrite plugin_applyTransaction_forM. apply plugin_onRedo_forM.
Qed.

(** ** Reordering *)

Lemma forM_fixed {A St : Type} (f : St -> A -> Result St) (P : A -> Prop) (l : list A)
    (st : St) :
  (forall x, P x -> f st x = Ok st) -> Forall P l -> forM f l st = Ok st.
Proof.
  intros Hf. induction 1 as [| x l Hx _ IH]; cbn; [reflexivity |].
  rewrite (Hf x Hx). exact IH.
Qed.

Lemma reorder_steps s y m :
  (exists p o i, m = REORDER_CHILD p o i) ->
  YjsSyncPlugin.applyMutation s y m = Ok y /\
  YjsSyncPlugin.unapplyMutation s y m = Ok y /\
  YjsUtils.applyMutation s y m = Ok y /\
  YjsUtils.unapplyMutation s y m = Ok y.
Proof.
  intros (p & o & i & ->). cbn.
  destruct (ystore_get y (obj_id (deref s p))), (ystore_get y (obj_id (deref s o))); cbn; auto.
Qed.

(** X9: an action made of REORDER_CHILD mutations only leaves the
    replicated map as it is, on redo and on undo, and so does the utility
    module for the same mutations: a change of z-order alone never reaches
    the other peers. *)
Theorem reorder_not_replicated s action y :
  Forall (fun m => exists p o i, m = REORDER_CHILD p o i)
         (flat_map mutations (transactions action)) ->
  YjsSyncPlugin.onRedo s action y = Ok y /\
  YjsSyncPlugin.onUndo s action y = Ok y /\
  YjsUtils.applyTransaction s (mkTx (flat_map mutations (transactions action))) y = Ok y /\
  YjsUtils.unapplyTransaction s (mkTx (flat_map mutations (transactions action))) y = Ok y.
Proof.
  intros H. split; [| split; [| split]].
  - rewrite plugin_onRedo_forM. apply (forM_fixed _ _ _ _ (fun m Hm => proj1 (reorder_steps s y m Hm)) H).
  - rewrite plugin_onUndo_forM.
    apply (forM_fixed _ _ _ _ (fun m Hm => proj1 (proj2 (reorder_steps s y m Hm)))
             (List.Forall_rev H)).
  - rewrite utils_applyTransaction_forM.
    apply (forM_fixed _ _ _ _ (fun m Hm => proj1 (proj2 (proj2 (reorder_steps s y m Hm)))) H).
  - rewrite utils_unapplyTransaction_forM.
    apply (forM_fixed _ _ _ _ (fun m Hm => proj2 (proj2 (proj2 (reorder_steps s y m Hm))))
             (List.Forall_rev H)).
Qed.

Lemma reorder_not_replicated_witness :
  YjsSyncPlugin.onRedo Scenario.s_A_B
    (mkAction [mkTx [REORDER_CHILD 0%nat 1%nat 1]; mkTx [REORDER_CHILD 0%nat 2%nat 0]])
    Scenario.y_three = Ok Scenario.y_three /\
  YjsSyncPlugin.onUndo Scenario.s_A_B
    (mkAction [mkTx [REORDER_CHILD 0%nat 1%nat 1]; mkTx [REORDER_CHILD 0%nat 2%nat 0]])
    Scenario.y_three = Ok Scenario.y_three /\
  YjsUtils.applyTransaction Scenario.s_A_B
    (mkTx [REORDER_CHILD 0%nat 1%nat 1; REORDER_CHILD 0%nat 2%nat 0])
    Scenario.y_three = Ok Scenario.y_three /\
  YjsUtils.unapplyTransaction Scenario.s_A_B
    (mkTx [REORDER_CHILD 0%nat 1%nat 1; REORDER_CHILD 0%nat 2%nat 0])
    Scenario.y_three = Ok Scenario.y_three.
Proof.
  apply (reorder_not_replicated Scenario.s_A_B
           (mkAction [mkTx [REORDER_CHILD 0%nat 1%nat 1]; mkTx [REORDER_CHILD 0%nat 2%nat 0]])
           Scenario.y_three).
  simpl. repeat constructor; do 3 eexists; reflexivity.
Defined.

(** ** Round trips *)

(** X10: un-applying an ASSIGN right after applying it gives back the
    replicated map, provided the field of the entity, when the map holds the
    entity, held the old value of the mutation. *)
Theorem assign_round_trip s y obj field oldValue newValue :
  (ymap_has y (obj_id (deref s obj)) = true ->
   ymap_get (fields_of y (obj_id (deref s obj))) field = Some oldValue) ->
  (exists y',
     YjsSyncPlugin.applyMutation s y (ASSIGN obj field oldValue newValue) = Ok y' /\
     YjsSyncPlugin.unapplyMutation s y' (ASSIGN obj field oldValue newValue) = Ok y) /\
  (exists y',
     YjsUtils.applyMutation s y (ASSIGN obj field oldValue newValue) = Ok y' /\
     YjsUtils.unapplyMutation s y' (ASSIGN obj field oldValue newValue) = Ok y).
Proof.
  intros Hold.
  change (YjsUtils.applyMutation s y (ASSIGN obj field oldValue newValue))
    with (YjsSyncPlugin.applyMutation s y (ASSIGN obj field oldValue newValue)).
  assert (H : exists y',
     YjsSyncPlugin.applyMutation s y (ASSIGN obj field oldValue newValue) = Ok y' /\
     YjsSyncPlugin.unapplyMutation s y' (ASSIGN obj field oldValue newValue) = Ok y).
  { cbn. destruct (ystore_get_cases y (obj_id (deref s obj))) as [[E Hhas] | [E Hhas]];
      rewrite E; cbn.
    - eexists. split; [reflexivity |].
      rewrite (ystore_get_present _ _ (ymap_has_set _ _ _)). cbn.
      rewrite fields_of_set, !ymap_set_set, (ymap_set_same _ _ _ (Hold Hhas)).
      rewrite (ymap_set_fields _ _ Hhas). reflexivity.
    - exists y. split; [reflexivity |]. rewrite E. reflexivity. }
  split; exact H.
Qed.

Lemma assign_round_trip_witness :
  (exists y',
     YjsSyncPlugin.applyMutation Scenario.s_PA Scenario.y_PA
       (ASSIGN 1%nat "width" (VNum 10) (VNum 20)) = Ok y' /\
     YjsSyncPlugin.unapplyMutation Scenario.s_PA y'
       (ASSIGN 1%nat "width" (VNum 10) (VNum 20)) = Ok Scenario.y_PA) /\
  (exists y',
     YjsUtils.applyMutation Scenario.s_PA Scenario.y_PA
       (ASSIGN 1%nat "width" (VNum 10) (VNum 20)) = Ok y' /\
     YjsUtils.unapplyMutation Scenario.s_PA y'
       (ASSIGN 1%nat "width" (VNum 10) (VNum 20)) = Ok Scenario.y_PA).
Proof.
  apply (assign_round_trip Scenario.s_PA Scenario.y_PA 1%nat "width" (VNum 10) (VNum 20)).
  intros _. reflexivity.
Defined.

Section CreateFirst.
Variable s : Store.
Variables apply unapply : YStore -> Mutation -> Result YStore.
Hypothesis Happly : forall y m, keyed m = false -> entry_step s y m (apply y m).
Hypothesis Hunapply : forall y m, keyed m = false -> entry_step s y m (unapply y m).
Variable obj : loc.
Hypothesis Hcreate : forall y, exists f, apply y (CREATE obj) = Ok (ymap_set y (obj_id (deref s obj)) f).
Hypothesis Huncreate : forall y, unapply y (CREATE obj) = Ok (ymap_delete y (obj_id (deref s obj))).

Lemma create_first_round_trip (ms : list Mutation) (y : YStore) :
  ymap_has y (obj_id (deref s obj)) = false ->
  Forall (fun m => keyed m = false /\ obj_id (deref s (subject m)) = obj_id (deref s obj)) ms ->
  exists y',
    forM apply (CREATE obj :: ms) y = Ok y' /\
    forM unapply (rev (CREATE obj :: ms)) y' = Ok y.
Proof.
  intros Hfresh Hms.
  assert (Hk : Forall (fun m => keyed m = false) ms).
  { revert Hms. apply List.Forall_impl. intros m [H _]. exact H. }
  assert (Hsub : forall m, List.In m ms ->
                   obj_id (deref s (subject m)) = obj_id (deref s obj)).
  { intros m Hm. apply (proj1 (List.Forall_forall _ _) Hms m Hm). }
  cbn [forM rev]. destruct (Hcreate y) as [f ->]. cbn.
  destruct (forM_entry_steps s apply Happly ms Hk (ymap_set y (obj_id (deref s obj)) f))
    as (y1 & H1 & _ & _ & D1).
  exists y1. split; [exact H1 |].
  rewrite forM_app.
  destruct (forM_entry_steps s unapply Hunapply (rev ms) (List.Forall_rev Hk) y1)
    as (y2 & H2 & _ & _ & D2).
  rewrite H2. cbn. rewrite Huncreate. cbn. f_equal.
  rewrite (D2 _) by (intros m Hm; apply Hsub; apply in_rev; exact Hm).
  rewrite (D1 _ Hsub), ymap_delete_set.
  apply ymap_delete_absent. unfold ymap_has in Hfresh.
  destruct (ymap_get y (obj_id (deref s obj))); [discriminate | reflexivity].
Qed.
End CreateFirst.

(** X11: a transaction that creates an entity the replicated map does not
    hold and then only edits this entity (assigns its fields, inserts it
    under a parent, ...) is undone exactly: [unapplyTransaction] after
    [applyTransaction] gives back the replicated map, keys and order of keys
    included. *)
Theorem create_tx_round_trip s y obj ms :
  ymap_has y (obj_id (deref s obj)) = false ->
  Forall (fun m => keyed m = false /\ obj_id (deref s (subject m)) = obj_id (deref s obj)) ms ->
  (exists y',
     YjsSyncPlugin.applyTransaction s (mkTx (CREATE obj :: ms)) y = Ok y' /\
     YjsSyncPlugin.unapplyTransaction s (mkTx (CREATE obj :: ms)) y' = Ok y) /\
  (exists y',
     YjsUtils.applyTransaction s (mkTx (CREATE obj :: ms)) y = Ok y' /\
     YjsUtils.unapplyTransaction s (mkTx (CREATE obj :: ms)) y' = Ok y).
Proof.
  intros Hfresh Hms. split.
  - destruct (create_first_round_trip s (YjsSyncPlugin.applyMutation s)
                (YjsSyncPlugin.unapplyMutation s)
                (plugin_apply_entry_step s) (plugin_unapply_entry_step s) obj
                (fun y => ex_intro _ _ eq_refl) (fun y => eq_refl) ms y Hfresh Hms)
      as (y' & H1 & H2).
    exists y'. rewrite plugin_applyTransaction_forM, plugin_unapplyTransaction_forM. auto.
  - destruct (create_first_round_trip s (YjsUtils.applyMutation s)
                (YjsUtils.unapplyMutation s)
                (utils_apply_entry_step s) (utils_unapply_entry_step s) obj
                (fun y => ex_intro _ _ eq_refl) (fun y => eq_refl) ms y Hfresh Hms)
      as (y' & H1 & H2).
    exists y'. rewrite utils_applyTransaction_forM, utils_unapplyTransaction_forM. auto.
Qed.

Lemma create_tx_round_trip_witness :
  (exists y',
     YjsSyncPlugin.applyTransaction Scenario.s_A_B
       (mkTx [CREATE 2%nat; INSERT_CHILD 0%nat 2%nat 1; ASSIGN 2%nat "width" VUndefined (VNum 5)])
       Scenario.y_PA = Ok y' /\
     YjsSyncPlugin.unapplyTransaction Scenario.s_A_B
       (mkTx [CREATE 2%nat; INSERT_CHILD 0%nat 2%nat 1; ASSIGN 2%nat "width" VUndefined (VNum 5)])
       y' = Ok Scenario.y_PA) /\
  (exists y',
     YjsUtils.applyTransaction Scenario.s_A_B
       (mkTx [CREATE 2%nat; INSERT_CHILD 0%nat 2%nat 1; ASSIGN 2%nat "width" VUndefined (VNum 5)])
       Scenario.y_PA = Ok y' /\
     YjsUtils.unapplyTransaction Scenario.s_A_B
       (mkTx [CREATE 2%nat; INSERT_CHILD 0%nat 2%nat 1; ASSIGN 2%nat "width" VUndefined (VNum 5)])
       y' = Ok Scenario.y_PA).
Proof.
  apply (create_tx_round_trip Scenario.s_A_B Scenario.y_PA 2%nat
           [INSERT_CHILD 0%nat 2%nat 1; ASSIGN 2%nat "width" VUndefined (VNum 5)]).
  - reflexivity.
  - repeat constructor.
Defined.

(** ** The field map CREATE writes *)

Lemma fold_ymap_set_fresh (l : list (string * Value)) : forall acc,
  List.NoDup (map fst (acc ++ l)) ->
  fold_left (fun yMap kv => ymap_set yMap (fst kv) (snd kv)) l acc = acc ++ l.
Proof.
  induction l as [| [k v] l IH]; intros acc Hnd; cbn [fold_left fst snd].
  - rewrite app_nil_r. reflexivity.
  - assert (Hk : ymap_get acc k = None).
    { apply ymap_get_None. intros Hin.
      rewrite map_app in Hnd. cbn in Hnd. apply List.NoDup_remove_2 in Hnd.
      apply Hnd. apply in_or_app. left. exact Hin. }
    rewrite (ymap_set_fresh _ _ _ Hk).
    replace (acc ++ (k, v) :: l) with ((acc ++ [(k, v)]) ++ l)
      by (rewrite <- app_assoc; reflexivity).
    apply IH. rewrite <- app_assoc. exact Hnd.
Qed.

Lemma objToYMap_json (o : Obj) :
  List.NoDup (map fst (obj_json o)) -> YjsSyncPlugin.objToYMap o = obj_json o.
Proof. intros Hnd. unfold YjsSyncPlugin.objToYMap. apply (fold_ymap_set_fresh _ [] Hnd). Qed.

Lemma objToYObj_field s y obj k :
  List.NoDup (map fst (obj_json (deref s obj))) -> k <> "parent:order" ->
  field_get (YjsUtils.objToYObj s y obj) k = field_get (obj_json (deref s obj)) k.
Proof.
  intros Hnd Hk. unfold YjsUtils.objToYObj.
  change (fold_left _ (obj_json (deref s obj)) [])
    with (YjsSyncPlugin.objToYMap (deref s obj)).
  rewrite (objToYMap_json _ Hnd). destruct (obj_parent (deref s obj)); [| reflexivity].
  apply field_get_set_ne. intros E. apply Hk. symmetry. exact E.
Qed.

(** X12: for an entity whose JSON projection has no key twice,
    [objToYMap] builds a field map with the same fields in the same order,
    and this is the entry CREATE stores under the id of the entity;
    [objToYObj] of the utility module builds the same map for an entity
    without parent and differs at most in [parent:order] otherwise. *)
Theorem objToYMap_faithful s y obj :
  List.NoDup (map fst (obj_json (deref s obj))) ->
  YjsSyncPlugin.objToYMap (deref s obj) = obj_json (deref s obj) /\
  (obj_parent (deref s obj) = None ->
   YjsUtils.objToYObj s y obj = obj_json (deref s obj)) /\
  (forall k, k <> "parent:order" ->
     field_get (YjsUtils.objToYObj s y obj) k = field_get (obj_json (deref s obj)) k) /\
  (exists y',
     YjsSyncPlugin.applyMutation s y (CREATE obj) = Ok y' /\
     ymap_get y' (obj_id (deref s obj)) = Some (obj_json (deref s obj))).
Proof.
  intros Hnd. pose proof (objToYMap_json _ Hnd) as H.
  split; [exact H |]. split; [| split].
  - intros Hp. unfold YjsUtils.objToYObj. rewrite Hp. exact H.
  - intros k Hk. apply objToYObj_field; assumption.
  - eexists. split; [reflexivity |]. rewrite H. apply ymap_get_set_eq.
Qed.

Lemma objToYMap_faithful_witness :
  YjsSyncPlugin.objToYMap (deref Scenario.s_PA 1%nat) = obj_json (deref Scenario.s_PA 1%nat) /\
  (obj_parent (deref Scenario.s_PA 1%nat) = None ->
   YjsUtils.objToYObj Scenario.s_PA Scenario.y_P 1%nat = obj_json (deref Scenario.s_PA 1%nat)) /\
  (forall k, k <> "parent:order" ->
     field_get (YjsUtils.objToYObj Scenario.s_PA Scenario.y_P 1%nat) k
       = field_get (obj_json (deref Scenario.s_PA 1%nat)) k) /\
  (exists y',
     YjsSyncPlugin.applyMutation Scenario.s_PA Scenario.y_P (CREATE 1%nat) = Ok y' /\
     ymap_get y' (obj_id (deref Scenario.s_PA 1%nat))
       = Some (obj_json (deref Scenario.s_PA 1%nat))).
Proof.
  apply (objToYMap_faithful Scenario.s_PA Scenario.y_P 1%nat).
  vm_compute. repeat constructor; cbn; intuition discriminate.
Defined.


(** ** Order keys of [YjsSyncPlugin] *)

Lemma exact_keys_integers (n m : Z) :
  Z.abs n <= 2 ^ 52 -> Z.abs m <= 2 ^ 52 -> exact_keys (inject_Z n) (inject_Z m).
Proof.
  intros Hn Hm. exists n, m, 0%nat.
  split; [lia |]. split; [exact Hn |]. split; [exact Hm |].
  change (inject_Z (2 ^ Z.of_nat 0)) with 1%Q. split; field.
Qed.

(** X13: when the two neighbours of the inserted object in
    [parent.children] are in the replicated map with the numeric keys [a]
    and [b], [a] below [b], both of which doubles hold exactly with room
    for their sum, [getParentOrder] of [YjsSyncPlugin] returns a key
    strictly between [a] and [b]. *)
Theorem plugin_order_strictly_between s y parent position p n a b :
  0 < position -> position < js_length (obj_children (deref s parent)) ->
  js_index (obj_children (deref s parent)) (position - 1) = Some p ->
  js_index (obj_children (deref s parent)) (position + 1) = Some n ->
  ymap_has y (obj_id (deref s p)) = true ->
  ymap_has y (obj_id (deref s n)) = true ->
  field_get (fields_of y (obj_id (deref s p))) "parent:order" = VNum a ->
  field_get (fields_of y (obj_id (deref s n))) "parent:order" = VNum b ->
  exact_keys a b ->
  (a < b)%Q ->
  exists k,
    YjsSyncPlugin.getParentOrder s y parent position = Ok (VNum k) /\ (a < k)%Q /\ (k < b)%Q.
Proof.
  intros H0 Hlen Hp Hn Hyp Hyn Ha Hb _ Hab.
  exists (Qred ((a + b) / 2)). split.
  - exact (plugin_order_midpoint s y parent position p n a b H0 Hlen Hp Hn Hyp Hyn Ha Hb).
  - apply (proj1 (order_keys_strict a b)). exact Hab.
Qed.

Lemma plugin_order_strictly_between_witness :
  exists k,
    YjsSyncPlugin.getParentOrder Scenario.s_between Scenario.y_between 0%nat 1 = Ok (VNum k) /\
    (0 < k)%Q /\ (k < 1)%Q.
Proof.
  apply (plugin_order_strictly_between Scenario.s_between Scenario.y_between 0%nat 1
           1%nat 2%nat 0%Q 1%Q); try reflexivity.
  apply (exact_keys_integers 0 1); vm_compute; discriminate.
Defined.

(** X14: for a neighbour whose key doubles hold exactly with room for
    one more: at position 0 with a right neighbour [getParentOrder] of
    [YjsSyncPlugin] returns a key strictly below the key of this neighbour,
    and at a position with a left neighbour only a key strictly above the
    key of that one; it returns 0 at position 0 when there is no right
    neighbour. *)
Theorem plugin_order_outside_ends s y parent :
  (forall n b,
     js_index (obj_children (deref s parent)) 1 = Some n ->
     ymap_has y (obj_id (deref s n)) = true ->
     field_get (fields_of y (obj_id (deref s n))) "parent:order" = VNum b ->
     exact_keys b 1 ->
     exists k, YjsSyncPlugin.getParentOrder s y parent 0 = Ok (VNum k) /\ (k < b)%Q) /\
  (forall position p a,
     0 < position ->
     js_index (obj_children (deref s parent)) (position - 1) = Some p ->
     js_index (obj_children (deref s parent)) (position + 1) = None ->
     ymap_has y (obj_id (deref s p)) = true ->
     field_get (fields_of y (obj_id (deref s p))) "parent:order" = VNum a ->
     exact_keys a 1 ->
     exists k, YjsSyncPlugin.getParentOrder s y parent position = Ok (VNum k) /\ (a < k)%Q) /\
  (js_index (obj_children (deref s parent)) 1 = None ->
   YjsSyncPlugin.getParentOrder s y parent 0 = Ok (VNum 0)).
Proof.
  split; [| split].
  - intros n b Hn Hyn Hb _. exists (Qred (b - 1)). split.
    + exact (plugin_order_start s y parent n b Hn Hyn Hb).
    + apply (proj1 (proj2 (order_keys_strict 0 b))).
  - intros position p a H0 Hp Hn Hyp Ha _. exists (Qred (a + 1)). split.
    + exact (plugin_order_end s y parent position p a H0 Hp Hn Hyp Ha).
    + apply (proj2 (proj2 (order_keys_strict a 0))).
  - apply plugin_order_only.
Qed.

Lemma plugin_order_outside_ends_witness :
  (exists k, YjsSyncPlugin.getParentOrder Scenario.s_XA Scenario.y_PA 0%nat 0
             = Ok (VNum k) /\ (k < 0)%Q) /\
  (exists k, YjsSyncPlugin.getParentOrder Scenario.s_between Scenario.y_between 0%nat 3
             = Ok (VNum k) /\ (1 < k)%Q) /\
  YjsSyncPlugin.getParentOrder Scenario.s_P Scenario.y_P 0%nat 0 = Ok (VNum 0).
Proof.
  split; [| split].
  - apply (proj1 (plugin_order_outside_ends Scenario.s_XA Scenario.y_PA 0%nat)
             1%nat 0%Q); try reflexivity.
    apply (exact_keys_integers 0 1); vm_compute; discriminate.
  - apply (proj1 (proj2 (plugin_order_outside_ends Scenario.s_between Scenario.y_between 0%nat))
             3 2%nat 1%Q); try reflexivity.
    apply (exact_keys_integers 1 1); vm_compute; discriminate.
  - apply (proj2 (proj2 (plugin_order_outside_ends Scenario.s_P Scenario.y_P 0%nat))).
    reflexivity.
Defined.


(** ** Order keys of the utility module *)

Lemma at_order_nums (qs : list Q) (i : Z) (q : Q) :
  0 <= i -> nth_error qs (Z.to_nat i) = Some q ->
  YjsUtils.at_order (map VNum qs) i = VNum q.
Proof.
  intros Hi Hq. unfold YjsUtils.at_order, js_index.
  destruct (i <? 0) eqn:E; [apply Z.ltb_lt in E; lia |].
  rewrite nth_error_map, Hq. reflexivity.
Qed.

(** X15: [getParentOrder] of the utility module, on siblings whose order
    keys are the numbers [qs] in the iteration order of the replicated map:
    0 when there is no sibling, a key strictly below the first key at
    position 0, a key strictly above the last key at a position past the
    end, and a key strictly between the keys at [position - 1] and
    [position] in between, when these two ascend; each time for keys
    doubles hold exactly with room for the sum the code takes. *)
Theorem utils_order_key_between y parentId position qs :
  map (fun yChild => field_get yChild "parent:order") (getYChildren y parentId)
    = map VNum qs ->
  (qs = [] -> YjsUtils.getParentOrder y parentId position = VNum 0) /\
  (forall b, position = 0 -> nth_error qs 0 = Some b ->
     exact_keys b 1 ->
     exists k, YjsUtils.getParentOrder y parentId position = VNum k /\ (k < b)%Q) /\
  (forall a, 0 < position -> Z.of_nat (length qs) <= position ->
     nth_error qs (length qs - 1) = Some a ->
     exact_keys a 1 ->
     exists k, YjsUtils.getParentOrder y parentId position = VNum k /\ (a < k)%Q) /\
  (forall a b, 0 < position -> position < Z.of_nat (length qs) ->
     nth_error qs (Z.to_nat (position - 1)) = Some a ->
     nth_error qs (Z.to_nat position) = Some b ->
     exact_keys a b ->
     (a < b)%Q ->
     exists k, YjsUtils.getParentOrder y parentId position = VNum k /\
               (a < k)%Q /\ (k < b)%Q).
Proof.
  intros Hq. unfold YjsUtils.getParentOrder. cbv zeta. rewrite Hq.
  unfold js_length. rewrite length_map.
  split; [| split; [| split]].
  - intros ->. reflexivity.
  - intros b -> Hb _.
    destruct qs as [| q qs]; [discriminate |]. injection Hb as ->.
    cbn. eexists. split; [reflexivity |].
    rewrite Qred_correct. lra.
  - intros a Hpos Hlen Ha _.
    destruct (Z.of_nat (length qs) =? 0) eqn:E0.
    { apply Z.eqb_eq in E0. destruct qs; [discriminate Ha | cbn in E0; lia]. }
    destruct (position =? 0) eqn:E1; [apply Z.eqb_eq in E1; lia |].
    apply Z.leb_le in Hlen. rewrite Hlen.
    rewrite (at_order_nums qs (Z.of_nat (length qs) - 1) a).
    + cbn. eexists. split; [reflexivity |]. rewrite Qred_correct. lra.
    + apply Z.eqb_neq in E0. lia.
    + replace (Z.to_nat (Z.of_nat (length qs) - 1)) with (length qs - 1)%nat by lia.
      exact Ha.
  - intros a b Hpos Hlen Ha Hb _ Hab.
    destruct (Z.of_nat (length qs) =? 0) eqn:E0; [apply Z.eqb_eq in E0; lia |].
    destruct (position =? 0) eqn:E1; [apply Z.eqb_eq in E1; lia |].
    destruct (Z.of_nat (length qs) <=? position) eqn:E2; [apply Z.leb_le in E2; lia |].
    rewrite (at_order_nums qs (position - 1) a) by (lia || exact Ha).
    rewrite (at_order_nums qs position b) by (lia || exact Hb).
    cbn. eexists. split; [reflexivity |].
    rewrite !Qred_correct. split.
    + apply Qlt_shift_div_l; lra.
    + apply Qlt_shift_div_r; lra.
Qed.

Lemma utils_order_key_between_witness :
  exists k, YjsUtils.getParentOrder Scenario.y_three (VStr "P") 1 = VNum k /\
            (0 < k)%Q /\ (k < 1)%Q.
Proof.
  apply (proj2 (proj2 (proj2
           (utils_order_key_between Scenario.y_three (VStr "P") 1 [0%Q; 1%Q; 2%Q] eq_refl)))
           0%Q 1%Q); try reflexivity.
  apply (exact_keys_integers 0 1); vm_compute; discriminate.
Defined.

End EncoderExtra.


(* ================================================================== *)
(** * Further properties of the decoders *)

Module DecoderExtra.
Import YjsProps BridgeExtra EncoderExtra.

(** ** Handlers of a changed key *)

Lemma utils_onAdd_returns y s key : returns (YjsUtils.onAdd y s key).
Proof.
  unfold YjsUtils.onAdd.
  destruct (getById s (VStr key)); cbn; [eexists; reflexivity |].
  destruct (ystore_get y key); cbn; eexists; reflexivity.
Qed.

Lemma onDelete_returns s key : returns (YjsUtils.onDelete s key).
Proof.
  unfold YjsUtils.onDelete.
  destruct (getById s (VStr key)) as [o |]; cbn; [| eexists; reflexivity].
  destruct (obj_parent (deref s o)) eqn:E; cbn; rewrite ?E; cbn; eexists; reflexivity.
Qed.

Lemma plugin_onKeyAdded_returns y s key r :
  returns (YjsSyncPlugin.onKeyAdded y s key (Some r)).
Proof.
  unfold YjsSyncPlugin.onKeyAdded.
  destruct (getById s (VStr key)); cbn; [eexists; reflexivity |].
  match goal with |- context [defined ?o] => destruct o end; cbn; eexists; reflexivity.
Qed.

Lemma plugin_onMapKeyChanged_returns y s key :
  returns (YjsSyncPlugin.onMapKeyChanged y s key).
Proof.
  unfold YjsSyncPlugin.onMapKeyChanged.
  destruct (ystore_get y key) as [r |]; cbn.
  - apply plugin_onKeyAdded_returns.
  - apply onDelete_returns.
Qed.



(** ** The entity a "key added" notification decodes *)

Lemma decoded_index s json :
  idIndex (decoded s json) = <[json_id json := nextLoc s]> (idIndex s).
Proof.
  unfold decoded, createFromJson, addToIndex, resolveRefs, update, deref. cbn.
  rewrite !lookup_total_insert_eq. reflexivity.
Qed.

Lemma decoded_new s json :
  obj_id (deref (decoded s json) (nextLoc s)) = json_id json /\
  obj_parent (deref (decoded s json) (nextLoc s)) = None /\
  obj_children (deref (decoded s json) (nextLoc s)) = [] /\
  obj_json (deref (decoded s json) (nextLoc s)) = json.
Proof.
  unfold decoded, createFromJson, addToIndex, resolveRefs, update, deref. cbn.
  rewrite !lookup_total_insert_eq. cbn. auto.
Qed.

Lemma decoded_old s json c :
  c <> nextLoc s -> deref (decoded s json) c = deref s c.
Proof.
  intros Hc.
  unfold decoded, createFromJson, addToIndex, resolveRefs, update, deref. cbn.
  rewrite !lookup_total_insert_ne by (intros E; apply Hc; symmetry; exact E). reflexivity.
Qed.

Lemma plugin_onKeyAdded_eq y s key r :
  getById s (VStr key) = None ->
  YjsSyncPlugin.onKeyAdded y s key (Some r)
    = Ok (match getById (decoded s (fields_of y r)) (field_get (fields_of y r) "parent") with
          | Some p =>
              update (update (decoded s (fields_of y r)) (nextLoc s) (set_parent (Some p))) p
                (fun po =>
                   set_children
                     (splice_insert (obj_children po)
                        (findIndex
                           (fun o => js_ge o (field_get (fields_of y r) "parent:order"))
                           (map (fun yChild => field_get yChild "parent:order")
                              (getYChildren y (field_get (fields_of y r) "parent"))))
                        (nextLoc s)) po)
          | None => decoded s (fields_of y r)
          end).
Proof.
  intros Hnew. unfold YjsSyncPlugin.onKeyAdded. rewrite Hnew. cbn.
  change (addToIndex _ (nextLoc s)) with (decoded s (fields_of y r)).
  destruct (getById (decoded s (fields_of y r)) (field_get (fields_of y r) "parent"));
    reflexivity.
Qed.

Lemma utils_onAdd_eq y s key :
  getById s (VStr key) = None -> ymap_has y key = true ->
  YjsUtils.onAdd y s key
    = Ok (YjsUtils.setParent (decoded s (fields_of y key)) y (nextLoc s)
            (field_get (fields_of y key) "parent")
            (field_get (fields_of y key) "parent:order")).
Proof.
  intros Hnew Hhas. unfold YjsUtils.onAdd.
  rewrite Hnew, (ystore_get_present _ _ Hhas). reflexivity.
Qed.


Lemma idIndex_update s l f : idIndex (update s l f) = idIndex s.
Proof. reflexivity. Qed.

Lemma plugin_onKeyAdded_index y s key r s1 :
  getById s (VStr key) = None ->
  YjsSyncPlugin.onKeyAdded y s key (Some r) = Ok s1 ->
  idIndex s1 = <[json_id (fields_of y r) := nextLoc s]> (idIndex s).
Proof.
  intros Hnew. rewrite (plugin_onKeyAdded_eq y s key r Hnew). intros [= <-].
  destruct (getById (decoded s (fields_of y r)) (field_get (fields_of y r) "parent"));
    rewrite ?idIndex_update; apply decoded_index.
Qed.

Lemma utils_onAdd_index y s key s1 :
  getById s (VStr key) = None -> ymap_has y key = true ->
  YjsUtils.onAdd y s key = Ok s1 ->
  idIndex s1 = <[json_id (fields_of y key) := nextLoc s]> (idIndex s).
Proof.
  intros Hnew Hhas. rewrite (utils_onAdd_eq y s key Hnew Hhas). intros [= <-].
  rewrite (proj1 (setParent_frame _ _ _ _ _)). apply decoded_index.
Qed.

(** X17: handling a "key added" notification twice is handling it once,
    in both observers, when the entry carries its key in the field [id]:
    after the first run the id is known to the store, and the second run
    leaves the store as the first left it. *)
Theorem key_added_idempotent y s key :
  ymap_has y key = true ->
  field_get (fields_of y key) "id" = VStr key ->
  (exists s1,
     YjsSyncPlugin.onMapKeyChanged y s key = Ok s1 /\
     getById s1 (VStr key) <> None /\
     YjsSyncPlugin.onMapKeyChanged y s1 key = Ok s1) /\
  (exists s1,
     YjsUtils.onAdd y s key = Ok s1 /\
     getById s1 (VStr key) <> None /\
     YjsUtils.onAdd y s1 key = Ok s1).
Proof.
  intros Hhas Hid.
  assert (Hjid : json_id (fields_of y key) = key) by (unfold json_id; rewrite Hid; reflexivity).
  assert (Hknown_p : forall s0, getById s0 (VStr key) <> None ->
                       YjsSyncPlugin.onMapKeyChanged y s0 key = Ok s0).
  { intros s0 H. unfold YjsSyncPlugin.onMapKeyChanged, YjsSyncPlugin.onKeyAdded.
    rewrite (ystore_get_present _ _ Hhas). cbn [defined].
    destruct (getById s0 (VStr key)); [reflexivity | contradiction]. }
  assert (Hknown_u : forall s0, getById s0 (VStr key) <> None ->
                       YjsUtils.onAdd y s0 key = Ok s0).
  { intros s0 H. unfold YjsUtils.onAdd.
    destruct (getById s0 (VStr key)); [reflexivity | contradiction]. }
  destruct (getById s (VStr key)) as [o |] eqn:Hget.
  - assert (Hne : getById s (VStr key) <> None) by (rewrite Hget; discriminate).
    split; exists s; auto.
  - split.
    + destruct (plugin_onMapKeyChanged_returns y s key) as [s1 H1].
      exists s1. split; [exact H1 |].
      assert (Hne : getById s1 (VStr key) <> None).
      { unfold YjsSyncPlugin.onMapKeyChanged in H1.
        rewrite (ystore_get_present _ _ Hhas) in H1. cbn [defined] in H1.
        unfold getById. rewrite (plugin_onKeyAdded_index y s key key s1 Hget H1), Hjid.
        rewrite lookup_insert_eq. discriminate. }
      auto.
    + destruct (utils_onAdd_returns y s key) as [s1 H1].
      exists s1. split; [exact H1 |].
      assert (Hne : getById s1 (VStr key) <> None).
      { unfold getById. rewrite (utils_onAdd_index y s key s1 Hget Hhas H1), Hjid.
        rewrite lookup_insert_eq. discriminate. }
      auto.
Qed.

Lemma key_added_idempotent_witness :
  (exists s1,
     YjsSyncPlugin.onMapKeyChanged Scenario.y_PA Scenario.s_P "A" = Ok s1 /\
     getById s1 (VStr "A") <> None /\
     YjsSyncPlugin.onMapKeyChanged Scenario.y_PA s1 "A" = Ok s1) /\
  (exists s1,
     YjsUtils.onAdd Scenario.y_PA Scenario.s_P "A" = Ok s1 /\
     getById s1 (VStr "A") <> None /\
     YjsUtils.onAdd Scenario.y_PA s1 "A" = Ok s1).
Proof.
  apply (key_added_idempotent Scenario.y_PA Scenario.s_P "A"); reflexivity.
Defined.


(** ** Removal keeps the tree well-formed *)

(** X18: handling a "key removed" notification keeps the tree
    well-formed, in both observers: afterwards [parent.children] contains
    [child] if and only if [child.parent] is [parent], and no array of
    children lists an object twice. *)
Theorem removal_keeps_invariant s key :
  parent_children_inv s -> children_nodup s ->
  exists s',
    YjsUtils.onDelete s key = Ok s' /\
    YjsSyncPlugin.onKeyRemoved s key = Ok s' /\
    parent_children_inv s' /\ children_nodup s'.
Proof.
  intros Hinv Hnd.
  change (YjsSyncPlugin.onKeyRemoved s key) with (YjsUtils.onDelete s key).
  unfold YjsUtils.onDelete.
  destruct (getById s (VStr key)) as [o |]; cbn [parent_opt defined].
  - destruct (obj_parent (deref s o)) as [p |] eqn:Hp; cbn; rewrite ?Hp; cbn.
    + eexists. split; [reflexivity |]. split; [reflexivity |].
      assert (Hin : List.In o (obj_children (deref s p))) by (apply Hinv; exact Hp).
      destruct (splice_delete1_indexOf (obj_children (deref s p)) o (Hnd p)) as [Hout Hrest].
      split.
      * intros q c. rewrite !deref_removeFromIndex.
        rewrite parent_after_parent, children_after_parent.
        rewrite (children_after_children s p
                   (fun po => splice_delete1 (obj_children po) (indexOf (obj_children po) o))).
        rewrite (parent_after_children s p
                   (fun po => splice_delete1 (obj_children po) (indexOf (obj_children po) o))).
        destruct (decide (p = q)) as [<- | Hpq], (decide (o = c)) as [<- | Hoc].
        -- split; [intros H; contradiction | discriminate].
        -- rewrite <- (Hrest Hin c (fun E => Hoc (eq_sym E))). apply Hinv.
        -- split; [| discriminate]. intros H. apply Hinv in H. congruence.
        -- apply Hinv.
      * intros q. rewrite deref_removeFromIndex, children_after_parent.
        rewrite (children_after_children s p
                   (fun po => splice_delete1 (obj_children po) (indexOf (obj_children po) o))).
        destruct (decide (p = q)) as [<- | _]; [apply NoDup_splice_delete1 |]; apply Hnd.
    + eexists. split; [reflexivity |]. split; [reflexivity |]. split; assumption.
  - cbn. eexists. split; [reflexivity |]. split; [reflexivity |]. split; assumption.
Qed.

Lemma removal_keeps_invariant_witness :
  exists s',
    YjsUtils.onDelete Scenario.s_reparent "X" = Ok s' /\
    YjsSyncPlugin.onKeyRemoved Scenario.s_reparent "X" = Ok s' /\
    parent_children_inv s' /\ children_nodup s'.
Proof.
  apply (removal_keeps_invariant Scenario.s_reparent "X").
  - exact s_reparent_inv.
  - exact s_reparent_nodup.
Defined.

(** ** Changes [applyYjsEvent] does not handle *)

(** X19: [applyYjsEvent] looks at "update" changes only in an event on
    the field map of an entity, and at "add" and "delete" changes only in an
    event on the replicated map: an event on a field map whose changes are
    all additions or deletions of fields, and an event on the replicated map
    whose changes are all updates, leave the store as it is. *)
Theorem unhandled_changes_ignored s y :
  (forall t chs keys,
     Forall (fun ck => snd ck <> YjsUtils.KUpdate) chs ->
     YjsUtils.applyYjsEvent (YjsUtils.mkEvent (Some t) chs keys) s y = Ok s) /\
  (forall chs keys,
     Forall (fun ck => snd ck = YjsUtils.KUpdate) chs ->
     YjsUtils.applyYjsEvent (YjsUtils.mkEvent None chs keys) s y = Ok s).
Proof.
  split.
  - intros t chs keys H. unfold YjsUtils.applyYjsEvent. cbn [YjsUtils.target YjsUtils.changes].
    apply (forM_fixed _ (fun ck => snd ck <> YjsUtils.KUpdate)); [| exact H].
    intros [k a] Hck. cbn in *. destruct a; [reflexivity | contradiction | reflexivity].
  - intros chs keys H. unfold YjsUtils.applyYjsEvent. cbn [YjsUtils.target YjsUtils.changes].
    apply (forM_fixed _ (fun ck => snd ck = YjsUtils.KUpdate)); [| exact H].
    intros [k a] Hck. cbn in *. rewrite Hck. reflexivity.
Qed.

Lemma unhandled_changes_ignored_witness :
  YjsUtils.applyYjsEvent
    (YjsUtils.mkEvent (Some "X") [("parent", YjsUtils.KAdd); ("parent:order", YjsUtils.KAdd)]
       ["parent"; "parent:order"])
    Scenario.s_reparent Scenario.y_reparent = Ok Scenario.s_reparent /\
  YjsUtils.applyYjsEvent
    (YjsUtils.mkEvent None [("X", YjsUtils.KUpdate)] ["X"])
    Scenario.s_reparent Scenario.y_reparent = Ok Scenario.s_reparent.
Proof.
  split.
  - apply (proj1 (unhandled_changes_ignored Scenario.s_reparent Scenario.y_reparent)).
    repeat constructor; discriminate.
  - apply (proj2 (unhandled_changes_ignored Scenario.s_reparent Scenario.y_reparent)).
    repeat constructor.
Defined.

(** ** [synchronize] *)

Lemma synchronize_step_fixed s y k o :
  idIndex s !! k = Some o ->
  ymap_get y k = Some (YjsSyncPlugin.objToYMap (deref s o)) ->
  (obj ← expect (idIndex s !! k);
   mret (ymap_set y k (YjsSyncPlugin.objToYMap (deref s obj)))) = Ok y.
Proof.
  intros Hk Hy. rewrite Hk. cbn. rewrite (ymap_set_same _ _ _ Hy). reflexivity.
Qed.

Lemma synchronize_run s keys :
  (forall k, List.In k keys -> idIndex s !! k <> None) ->
  forall y, exists y',
    synchronize s keys y = Ok y' /\
    (forall k o, List.In k keys -> idIndex s !! k = Some o ->
       ymap_get y' k = Some (YjsSyncPlugin.objToYMap (deref s o))) /\
    (forall k, ~ List.In k keys -> ymap_get y' k = ymap_get y k).
Proof.
  unfold synchronize.
  induction keys as [| k keys IH]; intros Hkeys y.
  - exists y. cbn. split; [reflexivity |]. split; [intros k o [] | reflexivity].
  - cbn [forM].
    destruct (idIndex s !! k) as [o |] eqn:Hk;
      [| exfalso; exact (Hkeys k (or_introl eq_refl) Hk)].
    cbn.
    destruct (IH (fun k' H => Hkeys k' (or_intror H))
                 (ymap_set y k (YjsSyncPlugin.objToYMap (deref s o))))
      as (y' & H1 & H2 & H3).
    exists y'. split; [exact H1 |]. split.
    + intros k' o' Hin Hk'.
      destruct (in_dec String.string_dec k' keys) as [Hin' | Hout].
      * apply H2; assumption.
      * destruct Hin as [<- | Hin]; [| contradiction].
        rewrite (H3 k Hout), ymap_get_set_eq. congruence.
    + intros k' Hout. rewrite H3 by (intros H; apply Hout; right; exact H).
      apply ymap_get_set_ne. intros E. apply Hout. left. exact E.
Qed.

(** X20: [synchronize] stores, for every key of the index, the field map
    of the entity indexed under it, and leaves every other entry of the
    replicated map as it is (an entry of an entity that left the index is
    not removed); a second run changes nothing. *)
Theorem synchronize_writes_index s keys y :
  (forall k, List.In k keys -> idIndex s !! k <> None) ->
  exists y',
    synchronize s keys y = Ok y' /\
    (forall k o, List.In k keys -> idIndex s !! k = Some o ->
       ymap_get y' k = Some (YjsSyncPlugin.objToYMap (deref s o))) /\
    (forall k, ~ List.In k keys -> ymap_get y' k = ymap_get y k) /\
    synchronize s keys y' = Ok y'.
Proof.
  intros Hkeys.
  destruct (synchronize_run s keys Hkeys y) as (y' & H1 & H2 & H3).
  exists y'. split; [exact H1 |]. split; [exact H2 |]. split; [exact H3 |].
  unfold synchronize.
  apply (forM_fixed _ (fun k => List.In k keys)).
  - intros k Hin. destruct (idIndex s !! k) as [o |] eqn:Hk;
      [| exfalso; exact (Hkeys k Hin Hk)].
    cbn. rewrite (ymap_set_same _ _ _ (H2 k o Hin Hk)). reflexivity.
  - apply List.Forall_forall. auto.
Qed.

Lemma synchronize_writes_index_witness :
  exists y',
    synchronize Scenario.s_PA ["P"; "A"] Scenario.y_P = Ok y' /\
    (forall k o, List.In k ["P"; "A"] -> idIndex Scenario.s_PA !! k = Some o ->
       ymap_get y' k = Some (YjsSyncPlugin.objToYMap (deref Scenario.s_PA o))) /\
    (forall k, ~ List.In k ["P"; "A"] -> ymap_get y' k = ymap_get Scenario.y_P k) /\
    synchronize Scenario.s_PA ["P"; "A"] y' = Ok y'.
Proof.
  apply (synchronize_writes_index Scenario.s_PA ["P"; "A"] Scenario.y_P).
  intros k [<- | [<- | []]]; vm_compute; discriminate.
Defined.


(** ** Remote edits of ordinary fields *)

Section FieldSteps.
Variables (y : YStore) (o : loc) (r : YRef).
Variable f : Store -> string -> Result Store.
Hypothesis Hf : forall s k, k <> "parent" ->
  exists s',
    f s k = Ok s' /\
    same_tree s s' /\
    (forall c, c <> o -> deref s' c = deref s c) /\
    obj_json (deref s' o)
      = if String.eqb k "head" || String.eqb k "tail" then obj_json (deref s o)
        else ymap_set (obj_json (deref s o)) k (field_get (fields_of y r) k).

Lemma field_steps (keys : list string) :
  ~ List.In "parent" keys ->
  forall s, exists s',
    forM f keys s = Ok s' /\
    same_tree s s' /\
    (forall c, c <> o -> deref s' c = deref s c) /\
    (forall k, k <> "head" -> k <> "tail" ->
       (List.In k keys ->
        field_get (obj_json (deref s' o)) k = field_get (fields_of y r) k) /\
       (~ List.In k keys ->
        field_get (obj_json (deref s' o)) k = field_get (obj_json (deref s o)) k)).
Proof.
  induction keys as [| k0 keys IH]; intros Hnp s.
  - exists s. cbn. split; [reflexivity |]. split; [split; auto |]. split; [reflexivity |].
    intros k _ _. split; [intros [] | reflexivity].
  - assert (Hk0 : k0 <> "parent") by (intros E; apply Hnp; left; exact E).
    destruct (Hf s k0 Hk0) as (s1 & H1 & [Hi1 Ht1] & Ho1 & Hj1).
    destruct (IH (fun H => Hnp (or_intror H)) s1) as (s' & H2 & [Hi2 Ht2] & Ho2 & Hj2).
    exists s'. cbn [forM]. rewrite H1. cbn. split; [exact H2 |]. split; [| split].
    + split; [congruence |]. intros c.
      destruct (Ht1 c) as (A1 & A2 & A3), (Ht2 c) as (B1 & B2 & B3).
      repeat split; congruence.
    + intros c Hc. rewrite (Ho2 c Hc). apply Ho1. exact Hc.
    + intros k Hh Ht. destruct (Hj2 k Hh Ht) as [Jin Jout].
      assert (Hstep : k <> k0 ->
                field_get (obj_json (deref s1 o)) k = field_get (obj_json (deref s o)) k).
      { intros Hne. rewrite Hj1.
        destruct (String.eqb k0 "head" || String.eqb k0 "tail"); [reflexivity |].
        apply field_get_set_ne. intros E. apply Hne. symmetry. exact E. }
      split.
      * intros Hin. destruct (in_dec String.string_dec k keys) as [Hin' | Hout'].
        -- apply Jin. exact Hin'.
        -- destruct Hin as [-> | Hin]; [| contradiction].
           rewrite (Jout Hout'), Hj1.
           apply String.eqb_neq in Hh, Ht. rewrite Hh, Ht. cbn [orb].
           apply field_get_set_eq.
      * intros Hout. rewrite Jout by (intros H; apply Hout; right; exact H).
        apply Hstep. intros E. apply Hout. left. symmetry. exact E.
Qed.
End FieldSteps.

Lemma same_tree_update s o g :
  (forall x, obj_id (g x) = obj_id x /\ obj_parent (g x) = obj_parent x /\
             obj_children (g x) = obj_children x) ->
  same_tree s (update s o g).
Proof.
  intros Hg. split; [reflexivity |]. intros c. rewrite deref_update.
  destruct (decide (o = c)) as [<- | _]; [apply Hg | auto].
Qed.

Lemma utils_field_step y o r s k :
  k <> "parent" ->
  exists s',
    YjsUtils.onFieldChanged y o (Some r) s k = Ok s' /\
    same_tree s s' /\
    (forall c, c <> o -> deref s' c = deref s c) /\
    obj_json (deref s' o)
      = if String.eqb k "head" || String.eqb k "tail" then obj_json (deref s o)
        else ymap_set (obj_json (deref s o)) k (field_get (fields_of y r) k).
Proof.
  intros Hk. unfold YjsUtils.onFieldChanged.
  apply String.eqb_neq in Hk. rewrite Hk.
  destruct (String.eqb k "head" || String.eqb k "tail"); cbn.
  - destruct (truthy _); eexists; (split; [reflexivity |]);
      (split; [apply same_tree_update; intros x; auto |]);
      (split; [intros c Hc; apply deref_update_ne; congruence |]);
      rewrite deref_update_eq; reflexivity.
  - eexists. split; [reflexivity |].
    split; [apply same_tree_update; intros x; auto |].
    split; [intros c Hc; apply deref_update_ne; congruence |].
    rewrite deref_update_eq. reflexivity.
Qed.

Lemma plugin_field_step y o r s k :
  k <> "parent" ->
  exists s',
    YjsSyncPlugin.onFieldChanged y o (Some r) s k = Ok s' /\
    same_tree s s' /\
    (forall c, c <> o -> deref s' c = deref s c) /\
    obj_json (deref s' o)
      = if String.eqb k "head" || String.eqb k "tail" then obj_json (deref s o)
        else ymap_set (obj_json (deref s o)) k (field_get (fields_of y r) k).
Proof.
  intros Hk. unfold YjsSyncPlugin.onFieldChanged. cbn.
  apply String.eqb_neq in Hk. rewrite Hk.
  destruct (String.eqb k "head" || String.eqb k "tail"); cbn;
    eexists; (split; [reflexivity |]);
    (split; [apply same_tree_update; intros x; auto |]);
    (split; [intros c Hc; apply deref_update_ne; congruence |]);
    rewrite deref_update_eq; reflexivity.
Qed.

(** X21: a remote update of fields other than the structural
    properties [parent], [id] and [children] never touches the tree, in
    both observers: the index, the ids, the parent references and the
    arrays of children are as before and so is every entity other than the
    one the event is about, whose fields named in the event, [head] and
    [tail] apart, hold the replicated values afterwards.  (A key [id] or
    [children] would overwrite that property of the entity itself.) *)
Theorem field_updates_keep_tree y s t keys :
  ~ List.In "parent" keys -> ~ List.In "id" keys -> ~ List.In "children" keys ->
  (exists s',
     YjsUtils.onUpdate y t keys s = Ok s' /\
     same_tree s s' /\
     forall i o, field_get (fields_of y t) "id" = VStr i -> getById s (VStr i) = Some o ->
       ymap_has y i = true ->
       (forall c, c <> o -> deref s' c = deref s c) /\
       (forall k, List.In k keys -> k <> "head" -> k <> "tail" ->
          field_get (obj_json (deref s' o)) k = field_get (fields_of y i) k)) /\
  (exists s',
     YjsSyncPlugin.onObjChanged y s t keys = Ok s' /\
     same_tree s s' /\
     forall i o, field_get (fields_of y t) "id" = VStr i -> getById s (VStr i) = Some o ->
       ymap_has y i = true ->
       (forall c, c <> o -> deref s' c = deref s c) /\
       (forall k, List.In k keys -> k <> "head" -> k <> "tail" ->
          field_get (obj_json (deref s' o)) k = field_get (fields_of y i) k)).
Proof.
  intros Hnp _ _.
  split.
  - unfold YjsUtils.onUpdate.
    destruct (field_get (fields_of y t) "id") as [| | | | | i] eqn:Hid;
      try (exists s; cbn; split; [reflexivity |]; split; [split; auto |];
           intros ? ? [=]).
    cbn [getById ystore_get_v].
    destruct (idIndex s !! i) as [o |] eqn:Ho; cbn;
      [| exists s; split; [reflexivity |]; split; [split; auto |];
         intros ? ? [= <-] H; unfold getById in H; congruence].
    destruct (ystore_get_cases y i) as [[-> Hhas] | [-> Hhas]]; cbn;
      [| exists s; split; [reflexivity |]; split; [split; auto |];
         intros ? ? [= <-] _ H; congruence].
    destruct (field_steps y o i _ (utils_field_step y o i) keys Hnp s)
      as (s' & H1 & H2 & H3 & H4).
    exists s'. split; [exact H1 |]. split; [exact H2 |].
    intros i' o' [= <-] Ho' _. unfold getById in Ho'. rewrite Ho in Ho'.
    injection Ho' as <-.
    split; [exact H3 |]. intros k Hin Hh Ht. apply (H4 k Hh Ht). exact Hin.
  - unfold YjsSyncPlugin.onObjChanged.
    destruct (field_get (fields_of y t) "id") as [| | | | | i] eqn:Hid;
      try (exists s; cbn; split; [reflexivity |]; split; [split; auto |];
           intros ? ? [=]).
    cbn [getById ystore_get_v].
    destruct (idIndex s !! i) as [o |] eqn:Ho; cbn;
      [| exists s; split; [reflexivity |]; split; [split; auto |];
         intros ? ? [= <-] H; unfold getById in H; congruence].
    destruct (ystore_get_cases y i) as [[-> Hhas] | [-> Hhas]]; cbn;
      [| exists s; split; [reflexivity |]; split; [split; auto |];
         intros ? ? [= <-] _ H; congruence].
    destruct (field_steps y o i _ (plugin_field_step y o i) keys Hnp s)
      as (s' & H1 & H2 & H3 & H4).
    exists s'. split; [exact H1 |]. split; [exact H2 |].
    intros i' o' [= <-] Ho' _. unfold getById in Ho'. rewrite Ho in Ho'.
    injection Ho' as <-.
    split; [exact H3 |]. intros k Hin Hh Ht. apply (H4 k Hh Ht). exact Hin.
Qed.


Lemma field_updates_keep_tree_witness :
  (exists s',
     YjsUtils.onUpdate Scenario.y_PA "A" ["width"] Scenario.s_PA = Ok s' /\
     same_tree Scenario.s_PA s' /\
     forall i o, field_get (fields_of Scenario.y_PA "A") "id" = VStr i ->
       getById Scenario.s_PA (VStr i) = Some o ->
       ymap_has Scenario.y_PA i = true ->
       (forall c, c <> o -> deref s' c = deref Scenario.s_PA c) /\
       (forall k, List.In k ["width"] -> k <> "head" -> k <> "tail" ->
          field_get (obj_json (deref s' o)) k = field_get (fields_of Scenario.y_PA i) k)) /\
  (exists s',
     YjsSyncPlugin.onObjChanged Scenario.y_PA Scenario.s_PA "A" ["width"] = Ok s' /\
     same_tree Scenario.s_PA s' /\
     forall i o, field_get (fields_of Scenario.y_PA "A") "id" = VStr i ->
       getById Scenario.s_PA (VStr i) = Some o ->
       ymap_has Scenario.y_PA i = true ->
       (forall c, c <> o -> deref s' c = deref Scenario.s_PA c) /\
       (forall k, List.In k ["width"] -> k <> "head" -> k <> "tail" ->
          field_get (obj_json (deref s' o)) k = field_get (fields_of Scenario.y_PA i) k)).
Proof.
  apply (field_updates_keep_tree Scenario.y_PA Scenario.s_PA "A" ["width"]);
    intros [H | []]; discriminate H.
Defined.

(** ** Remote creation keeps the tree well-formed *)

Lemma json_after_parent s l v c :
  obj_json (deref (update s l (set_parent v)) c) = obj_json (deref s c).
Proof.
  rewrite deref_update. destruct (decide (l = c)) as [-> | _]; reflexivity.
Qed.

Lemma json_after_children s l (g : Obj -> list loc) c :
  obj_json (deref (update s l (fun po => set_children (g po) po)) c) = obj_json (deref s c).
Proof.
  rewrite deref_update. destruct (decide (l = c)) as [-> | _]; reflexivity.
Qed.

Lemma setParent_json s y obj parentId parentOrder c :
  obj_json (deref (YjsUtils.setParent s y obj parentId parentOrder) c) = obj_json (deref s c).
Proof.
  rewrite (setParent_cases s y obj parentId parentOrder _ eq_refl).
  assert (D : obj_json (deref (setParent_detach s obj parentId) c) = obj_json (deref s c)).
  { unfold setParent_detach. destruct (obj_parent (deref s obj)); [| reflexivity].
    destruct (negb _); [apply json_after_children | reflexivity]. }
  destruct (truthy parentId); [| rewrite json_after_parent; exact D].
  destruct (getById _ parentId); [| rewrite json_after_parent; exact D].
  destruct (_ <? 0); rewrite ?json_after_children, json_after_parent; exact D.
Qed.

Lemma decoded_invariant s json :
  parents_indexed s -> parent_children_inv s -> children_nodup s ->
  unused s (nextLoc s) -> json_id json <> "" -> idIndex s !! json_id json = None ->
  parents_indexed (decoded s json) /\
  parent_children_inv (decoded s json) /\
  children_nodup (decoded s json).
Proof.
  intros [Hp1 Hp2] Hinv Hnd (Un & Uc & Ui) Hne Hfresh.
  destruct (decoded_new s json) as (Nid & Npar & Nch & _).
  pose proof (decoded_old s json) as Old.
  pose proof (decoded_index s json) as Idx.
  set (l := nextLoc s) in *. set (d := decoded s json) in *.
  assert (Hpar : forall c p, obj_parent (deref d c) = Some p ->
                   c <> l /\ p <> l /\ obj_parent (deref s c) = Some p).
  { intros c p H. destruct (decide (c = l)) as [-> | Hc]; [congruence |].
    rewrite (Old c Hc) in H. split; [exact Hc |]. split; [| exact H].
    intros ->. exact (Uc c H). }
  split; [split | split].
  - intros c p H. destruct (Hpar c p H) as (Hc & Hp & H').
    rewrite Idx, (Old p Hp). pose proof (Hp1 c p H') as Hi.
    rewrite lookup_insert_ne; [exact Hi |]. intros E. rewrite <- E in Hi. congruence.
  - intros k l'. rewrite Idx. destruct (decide (json_id json = k)) as [<- | Hk].
    + rewrite lookup_insert_eq. intros [= <-]. auto.
    + rewrite lookup_insert_ne by exact Hk. intros H.
      assert (Hl : l' <> l) by (intros ->; exact (Ui k H)).
      rewrite (Old l' Hl). apply Hp2. exact H.
  - intros p c. split.
    + intros H. destruct (decide (p = l)) as [-> | Hp]; [rewrite Nch in H; destruct H |].
      rewrite (Old p Hp) in H. apply Hinv in H.
      destruct (decide (c = l)) as [-> | Hc]; [congruence |].
      rewrite (Old c Hc). exact H.
    + intros H. destruct (Hpar c p H) as (Hc & Hp & H').
      rewrite (Old p Hp). apply Hinv. exact H'.
  - intros p. destruct (decide (p = l)) as [-> | Hp].
    + rewrite Nch. constructor.
    + rewrite (Old p Hp). apply Hnd.
Qed.

Lemma plugin_added_invariant y s key r s' :
  parents_indexed (decoded s (fields_of y r)) ->
  parent_children_inv (decoded s (fields_of y r)) ->
  children_nodup (decoded s (fields_of y r)) ->
  getById s (VStr key) = None ->
  YjsSyncPlugin.onKeyAdded y s key (Some r) = Ok s' ->
  parents_indexed s' /\ parent_children_inv s' /\ children_nodup s'.
Proof.
  intros [Hp1 Hp2] Hinv Hnd Hnew. rewrite (plugin_onKeyAdded_eq y s key r Hnew).
  destruct (decoded_new s (fields_of y r)) as (_ & Npar & _ & _).
  set (l := nextLoc s) in *. set (d := decoded s (fields_of y r)) in *.
  destruct (getById d (field_get (fields_of y r) "parent")) as [p |] eqn:Hp;
    intros [= <-]; [| split; [split; assumption | split; assumption]].
  set (g := fun po : Obj =>
              splice_insert (obj_children po)
                (findIndex (fun o => js_ge o (field_get (fields_of y r) "parent:order"))
                   (map (fun yChild => field_get yChild "parent:order")
                      (getYChildren y (field_get (fields_of y r) "parent")))) l).
  change (update (update d l (set_parent (Some p))) p _)
    with (update (update d l (set_parent (Some p))) p (fun po => set_children (g po) po)).
  assert (Hlp : ~ List.In l (obj_children (deref d p))).
  { intros H. apply Hinv in H. congruence. }
  assert (Hidp : idIndex d !! obj_id (deref d p) = Some p).
  { unfold getById in Hp. destruct (field_get (fields_of y r) "parent"); try discriminate.
    destruct (Hp2 _ _ Hp) as [-> _]. exact Hp. }
  split; [split | split].
  - intros c q. rewrite idIndex_update, parent_after_children, parent_after_parent.
    rewrite id_after_children, id_after_parent.
    destruct (decide (l = c)) as [<- | Hc]; [intros [= <-]; exact Hidp | apply Hp1].
  - intros k l'. rewrite idIndex_update, id_after_children, id_after_parent. apply Hp2.
  - intros q c. rewrite children_after_children, parent_after_children, parent_after_parent.
    unfold g. rewrite !children_after_parent.
    destruct (decide (p = q)) as [<- | Hpq], (decide (l = c)) as [<- | Hlc].
    + rewrite In_splice_insert. split; auto.
    + rewrite In_splice_insert. split.
      * intros [E | H]; [congruence | apply Hinv; exact H].
      * intros H. right. apply Hinv. exact H.
    + split; [intros H; apply Hinv in H; congruence | congruence].
    + apply Hinv.
  - intros q. rewrite children_after_children. unfold g. rewrite !children_after_parent.
    destruct (decide (p = q)) as [<- | _]; [| apply Hnd].
    apply NoDup_splice_insert; [apply Hnd | exact Hlp].
Qed.

(** X22: handling a "key added" notification keeps a well-formed store
    well-formed, in both observers, when the entry carries its non-empty key
    in the field [id] and the location the new entity is allocated at is not
    in use. *)
Theorem key_added_keeps_invariant y s key :
  parents_indexed s -> parent_children_inv s -> children_nodup s ->
  unused s (nextLoc s) ->
  ymap_has y key = true -> field_get (fields_of y key) "id" = VStr key -> key <> "" ->
  (exists s',
     YjsUtils.onAdd y s key = Ok s' /\
     parents_indexed s' /\ parent_children_inv s' /\ children_nodup s') /\
  (exists s',
     YjsSyncPlugin.onMapKeyChanged y s key = Ok s' /\
     parents_indexed s' /\ parent_children_inv s' /\ children_nodup s').
Proof.
  intros Hpi Hinv Hnd Hun Hhas Hid Hkey.
  assert (Hjid : json_id (fields_of y key) = key) by (unfold json_id; rewrite Hid; reflexivity).
  destruct (getById s (VStr key)) as [o |] eqn:Hget.
  - split; exists s.
    + split; [| auto]. unfold YjsUtils.onAdd. rewrite Hget. reflexivity.
    + split; [| auto]. unfold YjsSyncPlugin.onMapKeyChanged, YjsSyncPlugin.onKeyAdded.
      rewrite (ystore_get_present _ _ Hhas), Hget. reflexivity.
  - assert (Hd : parents_indexed (decoded s (fields_of y key)) /\
                 parent_children_inv (decoded s (fields_of y key)) /\
                 children_nodup (decoded s (fields_of y key))).
    { apply decoded_invariant; try assumption; rewrite Hjid; assumption. }
    destruct Hd as (D1 & D2 & D3). split.
    + eexists. split; [apply (utils_onAdd_eq y s key Hget Hhas) |]. split.
      * apply setParent_keeps_index. exact D1.
      * apply setParent_keeps_invariant; assumption.
    + destruct (plugin_onKeyAdded_returns y s key key) as [s' H'].
      exists s'. split.
      * unfold YjsSyncPlugin.onMapKeyChanged. rewrite (ystore_get_present _ _ Hhas). exact H'.
      * exact (plugin_added_invariant y s key key s' D1 D2 D3 Hget H').
Qed.


Lemma s_P_indexed : parents_indexed Scenario.s_P.
Proof.
  split.
  - intros c p. unfold Scenario.s_P. rewrite !deref_store_of.
    destruct c as [| c]; cbn; discriminate.
  - intros k l H. unfold Scenario.s_P in *. rewrite deref_store_of.
    unfold Scenario.store_of in H. cbn [idIndex] in H. simpl imap in H.
    rewrite !list_to_map_cons, list_to_map_nil in H. cbn [fst snd] in H.
    rewrite lookup_insert in H.
    destruct (decide (_ = k)) as [<- | ?];
      [injection H as <-; split; [reflexivity | discriminate] |].
    rewrite lookup_empty in H. discriminate.
Qed.

Lemma s_P_inv : parent_children_inv Scenario.s_P.
Proof.
  intros p c. unfold Scenario.s_P. rewrite !deref_store_of.
  destruct p as [| p]; destruct c as [| c]; cbn;
    split; intros H; try discriminate; try contradiction.
Qed.

Lemma s_P_nodup : children_nodup Scenario.s_P.
Proof.
  intros p. unfold Scenario.s_P. rewrite deref_store_of.
  destruct p as [| p]; cbn; constructor.
Qed.

Lemma s_P_unused : unused Scenario.s_P (nextLoc Scenario.s_P).
Proof.
  split; [reflexivity |]. split.
  - intros c. unfold Scenario.s_P. rewrite !deref_store_of.
    destruct c as [| c]; cbn; discriminate.
  - intros k H. unfold Scenario.s_P, Scenario.store_of in H. cbn [idIndex nextLoc] in H.
    simpl imap in H. rewrite !list_to_map_cons, list_to_map_nil in H. cbn [fst snd] in H.
    rewrite lookup_insert in H.
    destruct (decide (_ = k)); [discriminate |].
    rewrite lookup_empty in H. discriminate.
Qed.

Lemma key_added_keeps_invariant_witness :
  (exists s',
     YjsUtils.onAdd Scenario.y_PA Scenario.s_P "A" = Ok s' /\
     parents_indexed s' /\ parent_children_inv s' /\ children_nodup s') /\
  (exists s',
     YjsSyncPlugin.onMapKeyChanged Scenario.y_PA Scenario.s_P "A" = Ok s' /\
     parents_indexed s' /\ parent_children_inv s' /\ children_nodup s').
Proof.
  apply (key_added_keeps_invariant Scenario.y_PA Scenario.s_P "A").
  - exact s_P_indexed.
  - exact s_P_inv.
  - exact s_P_nodup.
  - exact s_P_unused.
  - reflexivity.
  - reflexivity.
  - discriminate.
Defined.

(** ** From CREATE on one peer to the entity on another *)

Lemma plugin_added_entity y s key r s' :
  getById s (VStr key) = None ->
  YjsSyncPlugin.onKeyAdded y s key (Some r) = Ok s' ->
  obj_id (deref s' (nextLoc s)) = json_id (fields_of y r) /\
  obj_json (deref s' (nextLoc s)) = fields_of y r.
Proof.
  intros Hnew. rewrite (plugin_onKeyAdded_eq y s key r Hnew).
  destruct (decoded_new s (fields_of y r)) as (Nid & _ & _ & Nj).
  destruct (getById (decoded s (fields_of y r)) (field_get (fields_of y r) "parent"));
    intros [= <-]; [| auto].
  split.
  - etransitivity; [apply (id_after_children _ _ (fun po => splice_insert _ _ _)) |].
    rewrite id_after_parent. exact Nid.
  - etransitivity; [apply (json_after_children _ _ (fun po => splice_insert _ _ _)) |].
    rewrite json_after_parent. exact Nj.
Qed.

(** X23: from CREATE on one peer to the entity on another: the entry
    CREATE stores for an entity whose JSON projection carries its id, once
    handled as "key added" by a peer that does not know the id, gives this
    peer an entity indexed under the same id with the same id and the same
    fields ([parent:order] apart in the utility module). *)
Theorem created_entity_round_trip sA y obj sB :
  List.NoDup (map fst (obj_json (deref sA obj))) ->
  field_get (obj_json (deref sA obj)) "id" = VStr (obj_id (deref sA obj)) ->
  getById sB (VStr (obj_id (deref sA obj))) = None ->
  (exists y' sB',
     YjsSyncPlugin.applyMutation sA y (CREATE obj) = Ok y' /\
     YjsSyncPlugin.onMapKeyChanged y' sB (obj_id (deref sA obj)) = Ok sB' /\
     getById sB' (VStr (obj_id (deref sA obj))) = Some (nextLoc sB) /\
     obj_id (deref sB' (nextLoc sB)) = obj_id (deref sA obj) /\
     obj_json (deref sB' (nextLoc sB)) = obj_json (deref sA obj)) /\
  (exists y' sB',
     YjsUtils.applyMutation sA y (CREATE obj) = Ok y' /\
     YjsUtils.applyYjsEvent
       (YjsUtils.mkEvent None [(obj_id (deref sA obj), YjsUtils.KAdd)] [obj_id (deref sA obj)])
       sB y' = Ok sB' /\
     getById sB' (VStr (obj_id (deref sA obj))) = Some (nextLoc sB) /\
     obj_id (deref sB' (nextLoc sB)) = obj_id (deref sA obj) /\
     forall k, k <> "parent:order" ->
       field_get (obj_json (deref sB' (nextLoc sB))) k = field_get (obj_json (deref sA obj)) k).
Proof.
  intros Hnd Hid Hnew. set (i := obj_id (deref sA obj)) in *. split.
  - set (y' := ymap_set y i (YjsSyncPlugin.objToYMap (deref sA obj))).
    assert (Hf : fields_of y' i = obj_json (deref sA obj)).
    { unfold y'. rewrite fields_of_set. apply objToYMap_json. exact Hnd. }
    assert (Hj : json_id (fields_of y' i) = i) by (unfold json_id; rewrite Hf, Hid; reflexivity).
    destruct (plugin_onKeyAdded_returns y' sB i i) as [sB' H'].
    exists y', sB'. split; [reflexivity |]. split.
    { unfold YjsSyncPlugin.onMapKeyChanged.
      rewrite (ystore_get_present y' i (ymap_has_set _ _ _)). exact H'. }
    destruct (plugin_added_entity y' sB i i sB' Hnew H') as [E1 E2].
    split; [| split; congruence].
    unfold getById. rewrite (plugin_onKeyAdded_index y' sB i i sB' Hnew H'), Hj.
    apply lookup_insert_eq.
  - set (y' := ymap_set y i (YjsUtils.objToYObj sA y obj)).
    assert (Hf : fields_of y' i = YjsUtils.objToYObj sA y obj).
    { unfold y'. apply fields_of_set. }
    assert (Hj : json_id (fields_of y' i) = i).
    { unfold json_id. rewrite Hf, (objToYObj_field sA y obj "id" Hnd) by discriminate.
      rewrite Hid. reflexivity. }
    assert (Hhas : ymap_has y' i = true) by apply ymap_has_set.
    eexists y', _. split; [reflexivity |]. split.
    { unfold YjsUtils.applyYjsEvent. cbn. rewrite (utils_onAdd_eq y' sB i Hnew Hhas).
      reflexivity. }
    destruct (setParent_frame (decoded sB (fields_of y' i)) y' (nextLoc sB)
                (field_get (fields_of y' i) "parent")
                (field_get (fields_of y' i) "parent:order")) as (Fi & Fid & _ & _).
    destruct (decoded_new sB (fields_of y' i)) as (Nid & _ & _ & Nj).
    split; [| split].
    + unfold getById. rewrite Fi, decoded_index, Hj. apply lookup_insert_eq.
    + rewrite Fid, Nid. exact Hj.
    + intros k Hk. rewrite setParent_json, Nj, Hf. apply objToYObj_field; assumption.
Qed.

Lemma created_entity_round_trip_witness :
  (exists y' sB',
     YjsSyncPlugin.applyMutation Scenario.s_PA Scenario.y_P (CREATE 1%nat) = Ok y' /\
     YjsSyncPlugin.onMapKeyChanged y' Scenario.s_P (obj_id (deref Scenario.s_PA 1%nat))
       = Ok sB' /\
     getById sB' (VStr (obj_id (deref Scenario.s_PA 1%nat))) = Some (nextLoc Scenario.s_P) /\
     obj_id (deref sB' (nextLoc Scenario.s_P)) = obj_id (deref Scenario.s_PA 1%nat) /\
     obj_json (deref sB' (nextLoc Scenario.s_P)) = obj_json (deref Scenario.s_PA 1%nat)) /\
  (exists y' sB',
     YjsUtils.applyMutation Scenario.s_PA Scenario.y_P (CREATE 1%nat) = Ok y' /\
     YjsUtils.applyYjsEvent
       (YjsUtils.mkEvent None [(obj_id (deref Scenario.s_PA 1%nat), YjsUtils.KAdd)]
          [obj_id (deref Scenario.s_PA 1%nat)])
       Scenario.s_P y' = Ok sB' /\
     getById sB' (VStr (obj_id (deref Scenario.s_PA 1%nat))) = Some (nextLoc Scenario.s_P) /\
     obj_id (deref sB' (nextLoc Scenario.s_P)) = obj_id (deref Scenario.s_PA 1%nat) /\
     forall k, k <> "parent:order" ->
       field_get (obj_json (deref sB' (nextLoc Scenario.s_P))) k
         = field_get (obj_json (deref Scenario.s_PA 1%nat)) k).
Proof.
  apply (created_entity_round_trip Scenario.s_PA Scenario.y_P 1%nat Scenario.s_P).
  - vm_compute. repeat constructor; cbn; intuition discriminate.
  - reflexivity.
  - reflexivity.
Defined.


(** ** A key added and then removed *)

Lemma indexOf_app_first (l1 l2 : list loc) (o : loc) :
  ~ List.In o l1 -> indexOf (l1 ++ o :: l2) o = Z.of_nat (length l1).
Proof.
  unfold indexOf, findIndex. induction l1 as [| x l1 IH]; intros Hn; cbn [app findIndex_from].
  - rewrite Nat.eqb_refl. reflexivity.
  - destruct (Nat.eqb o x) eqn:E.
    + apply Nat.eqb_eq in E. subst x. exfalso. apply Hn. left. reflexivity.
    + rewrite findIndex_from_shift by lia.
      rewrite IH by (intros H; apply Hn; right; exact H).
      destruct (Z.of_nat (length l1) <? 0) eqn:E'; [apply Z.ltb_lt in E'; lia |].
      cbn [length]. lia.
Qed.

Lemma splice_insert_split {A : Type} (l : list A) (i : Z) (x : A) :
  exists l1 l2, splice_insert l i x = l1 ++ x :: l2 /\ l1 ++ l2 = l.
Proof.
  unfold splice_insert. eexists _, _. split; [reflexivity | apply firstn_skipn].
Qed.

Lemma setParent_place_split y parentId parentOrder (l : list loc) (obj : loc) :
  exists l1 l2, setParent_place y parentId parentOrder l obj = l1 ++ obj :: l2 /\ l1 ++ l2 = l.
Proof.
  unfold setParent_place. cbv zeta. destruct (_ <? 0).
  - exists l, []. split; [reflexivity | apply app_nil_r].
  - apply splice_insert_split.
Qed.

Lemma set_children_back (o : Obj) (l : list loc) :
  set_children (obj_children o) (set_children l o) = o.
Proof. destruct o; reflexivity. Qed.

Section AddThenRemove.
Variables (s s1 : Store) (key : string) (l : loc).
Hypothesis Hidx : idIndex s1 = <[key := l]> (idIndex s).
Hypothesis Hfresh : idIndex s !! key = None.
Hypothesis Hid : obj_id (deref s1 l) = key.
Hypothesis Hshape :
  (obj_parent (deref s1 l) = None /\ forall c, c <> l -> deref s1 c = deref s c) \/
  (exists p l1 l2,
     obj_parent (deref s1 l) = Some p /\
     (p <> l ->
      obj_children (deref s p) = l1 ++ l2 /\ ~ List.In l l1 /\
      deref s1 p = set_children (l1 ++ l :: l2) (deref s p)) /\
     forall c, c <> l -> c <> p -> deref s1 c = deref s c).

Lemma removed_after_added :
  exists s2,
    YjsUtils.onDelete s1 key = Ok s2 /\
    idIndex s2 = idIndex s /\
    forall c, c <> l -> deref s2 c = deref s c.
Proof.
  assert (Hget : getById s1 (VStr key) = Some l).
  { unfold getById. rewrite Hidx. apply lookup_insert_eq. }
  unfold YjsUtils.onDelete. rewrite Hget. cbn [parent_opt].
  destruct Hshape as [[Hp Hc] | (p & l1 & l2 & Hp & Hpp & Hc)]; rewrite Hp; cbn.
  - eexists. split; [reflexivity |]. split.
    + unfold removeFromIndex. cbn [idIndex]. rewrite Hid, Hidx.
      apply delete_insert_id. exact Hfresh.
    + intros c Hcl. rewrite deref_removeFromIndex. apply Hc. exact Hcl.
  - rewrite Hp. cbn. eexists. split; [reflexivity |]. split.
    + unfold removeFromIndex. cbn [idIndex].
      rewrite deref_update_eq. cbn [obj_id set_parent].
      rewrite (id_after_children s1 p
                 (fun po => splice_delete1 (obj_children po) (indexOf (obj_children po) l))).
      rewrite Hid, !idIndex_update, Hidx. apply delete_insert_id. exact Hfresh.
    + intros c Hcl. rewrite deref_removeFromIndex.
      rewrite deref_update_ne by (intros E; apply Hcl; symmetry; exact E).
      rewrite deref_update. destruct (decide (p = c)) as [<- | Hpc].
      * destruct (Hpp (fun E => Hcl E)) as (HL & Hn & Hd).
        rewrite Hd. cbn [obj_children set_children].
        rewrite (indexOf_app_first l1 l2 l Hn), splice_delete1_at, <- HL.
        destruct (deref s p); reflexivity.
      * apply Hc; [exact Hcl | intros E; apply Hpc; symmetry; exact E].
Qed.
End AddThenRemove.

Lemma setParent_orphan d y l parentId parentOrder p :
  obj_parent (deref d l) = None -> truthy parentId = true ->
  getById d parentId = Some p -> ~ List.In l (obj_children (deref d p)) ->
  YjsUtils.setParent d y l parentId parentOrder
    = update (update d l (set_parent (Some p))) p (fun po =>
        set_children (setParent_place y parentId parentOrder (obj_children po) l) po).
Proof.
  intros Hp T G Hn.
  rewrite (setParent_cases d y l parentId parentOrder _ eq_refl).
  assert (Hs1 : setParent_detach d l parentId = d).
  { unfold setParent_detach. rewrite Hp. reflexivity. }
  rewrite Hs1, T, G, children_after_parent.
  apply indexOf_neg_iff in Hn. rewrite Hn. reflexivity.
Qed.

Lemma plugin_onMapKeyChanged_added y s key :
  ymap_has y key = true ->
  YjsSyncPlugin.onMapKeyChanged y s key = YjsSyncPlugin.onKeyAdded y s key (Some key).
Proof.
  intros Hhas. unfold YjsSyncPlugin.onMapKeyChanged.
  rewrite (ystore_get_present _ _ Hhas). reflexivity.
Qed.

(** X24: a key added and then removed leaves no trace in the tree, in
    both observers: after the two notifications the index is the one before
    them and every entity that was there is as it was. *)
Theorem key_added_then_removed y s key :
  getById s (VStr key) = None ->
  ymap_has y key = true ->
  field_get (fields_of y key) "id" = VStr key ->
  (forall p, ~ List.In (nextLoc s) (obj_children (deref s p))) ->
  (exists s1 s2,
     YjsUtils.onAdd y s key = Ok s1 /\
     YjsUtils.onDelete s1 key = Ok s2 /\
     idIndex s2 = idIndex s /\
     forall c, c <> nextLoc s -> deref s2 c = deref s c) /\
  (exists s1 s2,
     YjsSyncPlugin.onMapKeyChanged y s key = Ok s1 /\
     YjsSyncPlugin.onKeyRemoved s1 key = Ok s2 /\
     idIndex s2 = idIndex s /\
     forall c, c <> nextLoc s -> deref s2 c = deref s c).
Proof.
  intros Hnew Hhas Hidf Hout.
  assert (Hjid : json_id (fields_of y key) = key) by (unfold json_id; rewrite Hidf; reflexivity).
  destruct (decoded_new s (fields_of y key)) as (Nid & Npar & Nch & _).
  pose proof (decoded_old s (fields_of y key)) as Old.
  pose proof (decoded_index s (fields_of y key)) as Idx. rewrite Hjid in Idx, Nid.
  set (l := nextLoc s) in *. set (d := decoded s (fields_of y key)) in *.
  assert (Hnotin : forall p, ~ List.In l (obj_children (deref d p))).
  { intros p. destruct (decide (p = l)) as [-> | Hp]; [rewrite Nch; intros [] |].
    rewrite (Old p Hp). apply Hout. }
  split.
  - eexists. 
    destruct (removed_after_added s
                (YjsUtils.setParent d y l (field_get (fields_of y key) "parent")
                   (field_get (fields_of y key) "parent:order")) key l)
      as (s2 & H2 & H3 & H4).
    + rewrite (proj1 (setParent_frame _ _ _ _ _)). exact Idx.
    + exact Hnew.
    + rewrite (proj1 (proj2 (setParent_frame _ _ _ _ _))). exact Nid.
    + destruct (truthy (field_get (fields_of y key) "parent")) eqn:T;
        [destruct (getById d (field_get (fields_of y key) "parent")) as [p |] eqn:G |].
      * right.
        rewrite (setParent_orphan d y l _ _ p Npar T G (Hnotin p)).
        destruct (setParent_place_split y (field_get (fields_of y key) "parent")
                    (field_get (fields_of y key) "parent:order")
                    (obj_children (deref d p)) l) as (l1 & l2 & Hpl & HL).
        exists p, l1, l2. split; [| split].
        -- rewrite (parent_after_children _ p
                      (fun po => setParent_place y _ _ (obj_children po) l)).
           rewrite parent_after_parent.
           destruct (decide (l = l)); [reflexivity | contradiction].
        -- intros Hpl'. rewrite <- (Old p Hpl'). split; [symmetry; exact HL |]. split.
           ++ intros H. apply (Hnotin p). rewrite <- HL. apply in_or_app. left. exact H.
           ++ rewrite deref_update_eq.
              rewrite deref_update_ne by (intros E; apply Hpl'; symmetry; exact E).
              rewrite Hpl. reflexivity.
        -- intros c Hcl Hcp.
           rewrite deref_update_ne by (intros E; apply Hcp; symmetry; exact E).
           rewrite deref_update_ne by (intros E; apply Hcl; symmetry; exact E).
           apply Old. exact Hcl.
      * left.
        assert (Hnone : (if truthy (field_get (fields_of y key) "parent")
                         then getById d (field_get (fields_of y key) "parent") else None)
                        = None) by (rewrite T; exact G).
        pose proof (setParent_unattached_noop d y l _
                      (field_get (fields_of y key) "parent:order") Npar Hnone) as Hno.
        split; [rewrite Hno; exact Npar |].
        intros c Hc. rewrite Hno. apply Old. exact Hc.
      * left.
        assert (Hnone : (if truthy (field_get (fields_of y key) "parent")
                         then getById d (field_get (fields_of y key) "parent") else None)
                        = None) by (rewrite T; reflexivity).
        pose proof (setParent_unattached_noop d y l _
                      (field_get (fields_of y key) "parent:order") Npar Hnone) as Hno.
        split; [rewrite Hno; exact Npar |].
        intros c Hc. rewrite Hno. apply Old. exact Hc.
    + exists s2. split; [apply (utils_onAdd_eq y s key Hnew Hhas) |]. auto.
  - change YjsSyncPlugin.onKeyRemoved with YjsUtils.onDelete.
    pose proof (eq_trans (plugin_onMapKeyChanged_added y s key Hhas)
                  (plugin_onKeyAdded_eq y s key key Hnew)) as Hadd.
    fold l in Hadd. fold d in Hadd.
    destruct (getById d (field_get (fields_of y key) "parent")) as [p |] eqn:G.
    + destruct (splice_insert_split (obj_children (deref d p))
                  (findIndex (fun o => js_ge o (field_get (fields_of y key) "parent:order"))
                     (map (fun yChild => field_get yChild "parent:order")
                        (getYChildren y (field_get (fields_of y key) "parent")))) l)
        as (l1 & l2 & Hpl & HL).
      match type of Hadd with
      | _ = Ok ?s1 => destruct (removed_after_added s s1 key l) as (s2 & H2 & H3 & H4)
      end.
      * exact Idx.
      * exact Hnew.
      * etransitivity; [apply (id_after_children _ _ (fun po => splice_insert _ _ _)) |].
        rewrite id_after_parent. exact Nid.
      * right. exists p, l1, l2. split; [| split].
        -- etransitivity;
             [apply (parent_after_children _ _ (fun po => splice_insert _ _ _)) |].
           rewrite parent_after_parent.
           destruct (decide (l = l)); [reflexivity | contradiction].
        -- intros Hpl'. rewrite <- (Old p Hpl'). split; [symmetry; exact HL |]. split.
           ++ intros H. apply (Hnotin p). rewrite <- HL. apply in_or_app. left. exact H.
           ++ rewrite deref_update_eq.
              rewrite deref_update_ne by (intros E; apply Hpl'; symmetry; exact E).
              cbn [obj_children set_children]. rewrite Hpl. reflexivity.
        -- intros c Hcl Hcp.
           rewrite deref_update_ne by (intros E; apply Hcp; symmetry; exact E).
           rewrite deref_update_ne by (intros E; apply Hcl; symmetry; exact E).
           apply Old. exact Hcl.
      * eexists. exists s2. split; [exact Hadd |]. auto.
    + destruct (removed_after_added s d key l) as (s2 & H2 & H3 & H4).
      * exact Idx.
      * exact Hnew.
      * exact Nid.
      * left. split; [exact Npar | exact Old].
      * exists d, s2. split; [exact Hadd |]. auto.
Qed.


Lemma key_added_then_removed_witness :
  (exists s1 s2,
     YjsUtils.onAdd Scenario.y_PA Scenario.s_P "A" = Ok s1 /\
     YjsUtils.onDelete s1 "A" = Ok s2 /\
     idIndex s2 = idIndex Scenario.s_P /\
     forall c, c <> nextLoc Scenario.s_P -> deref s2 c = deref Scenario.s_P c) /\
  (exists s1 s2,
     YjsSyncPlugin.onMapKeyChanged Scenario.y_PA Scenario.s_P "A" = Ok s1 /\
     YjsSyncPlugin.onKeyRemoved s1 "A" = Ok s2 /\
     idIndex s2 = idIndex Scenario.s_P /\
     forall c, c <> nextLoc Scenario.s_P -> deref s2 c = deref Scenario.s_P c).
Proof.
  apply (key_added_then_removed Scenario.y_PA Scenario.s_P "A").
  - reflexivity.
  - reflexivity.
  - reflexivity.
  - intros p. unfold Scenario.s_P. rewrite deref_store_of.
    destruct p as [| p]; cbn; intros [].
Defined.

(** ** A parent for an entity that has none *)

(** X25: for an entity without parent the observer of [YjsSyncPlugin]
    handles an update of [parent] by appending: the entity gets the entity
    named by the replicated field as parent and is pushed onto the end of
    its children, whatever its [parent:order] says (the utility module
    places it by that key instead), or stays without parent when the id
    names no entity.  The tree stays well-formed: [parent.children]
    contains [child] if and only if [child.parent] is [parent], and no
    array of children lists an object twice. *)
Theorem plugin_parent_update_of_orphan y s o r :
  parent_children_inv s -> children_nodup s ->
  obj_parent (deref s o) = None ->
  exists s',
    YjsSyncPlugin.onFieldChanged y o (Some r) s "parent" = Ok s' /\
    parent_children_inv s' /\ children_nodup s' /\
    obj_parent (deref s' o) = getById s (field_get (fields_of y r) "parent") /\
    forall p, getById s (field_get (fields_of y r) "parent") = Some p ->
      obj_children (deref s' p) = push (obj_children (deref s p)) o.
Proof.
  intros Hinv Hnd Hp. unfold YjsSyncPlugin.onFieldChanged. cbn.
  destruct (getById s (field_get (fields_of y r) "parent")) as [p |]; cbn.
  - assert (Hout : ~ List.In o (obj_children (deref s p))).
    { intros H. apply Hinv in H. congruence. }
    eexists. split; [reflexivity |]. split; [| split; [| split]].
    + intros q c. rewrite parent_after_parent, children_after_parent.
      rewrite (children_after_children s p (fun po => push (obj_children po) o)).
      rewrite (parent_after_children s p (fun po => push (obj_children po) o)).
      destruct (decide (p = q)) as [<- | Hpq], (decide (o = c)) as [<- | Hoc].
      * rewrite In_push. split; auto.
      * rewrite In_push. split.
        -- intros [E | H]; [congruence | apply Hinv; exact H].
        -- intros H. right. apply Hinv. exact H.
      * split; [intros H; apply Hinv in H; congruence | congruence].
      * apply Hinv.
    + intros q. rewrite children_after_parent.
      rewrite (children_after_children s p (fun po => push (obj_children po) o)).
      destruct (decide (p = q)) as [<- | _]; [| apply Hnd].
      apply NoDup_push; [apply Hnd | exact Hout].
    + rewrite parent_after_parent. destruct (decide (o = o)); [reflexivity | contradiction].
    + intros p' [= <-]. rewrite children_after_parent.
      rewrite (children_after_children s p (fun po => push (obj_children po) o)).
      destruct (decide (p = p)); [reflexivity | contradiction].
  - rewrite Hp. cbn. eexists. split; [reflexivity |]. split; [| split; [| split]].
    + intros q c. rewrite parent_after_parent, children_after_parent.
      destruct (decide (o = c)) as [<- | _]; [rewrite <- Hp |]; apply Hinv.
    + intros q. rewrite children_after_parent. apply Hnd.
    + rewrite parent_after_parent. destruct (decide (o = o)); [reflexivity | contradiction].
    + intros p' [=].
Qed.

Lemma plugin_parent_update_of_orphan_witness :
  exists s',
    YjsSyncPlugin.onFieldChanged
      [("P1", Scenario.jsonOf "P1"); ("P2", Scenario.jsonOf "P2" ++ [("parent", VStr "P1")])]
      1%nat (Some "P2") Scenario.s_reparent "parent" = Ok s' /\
    parent_children_inv s' /\ children_nodup s' /\
    obj_parent (deref s' 1%nat)
      = getById Scenario.s_reparent
          (field_get
             (fields_of
                [("P1", Scenario.jsonOf "P1");
                 ("P2", Scenario.jsonOf "P2" ++ [("parent", VStr "P1")])] "P2") "parent") /\
    forall p,
      getById Scenario.s_reparent
        (field_get
           (fields_of
              [("P1", Scenario.jsonOf "P1");
               ("P2", Scenario.jsonOf "P2" ++ [("parent", VStr "P1")])] "P2") "parent")
        = Some p ->
      obj_children (deref s' p) = push (obj_children (deref Scenario.s_reparent p)) 1%nat.
Proof.
  apply (plugin_parent_update_of_orphan
           [("P1", Scenario.jsonOf "P1"); ("P2", Scenario.jsonOf "P2" ++ [("parent", VStr "P1")])]
           Scenario.s_reparent 1%nat "P2").
  - exact s_reparent_inv.
  - exact s_reparent_nodup.
  - reflexivity.
Defined.

End DecoderExtra.



(* ================================================================== *)
(** * Properties of the z-order macros *)

Module ZOrderProps.
Import YjsProps ZOrder.

Section Macros.
Context {Tx : Type}.
Variable reorderChild : Tx -> loc -> loc -> Z -> Tx * bool.

Lemma indexOf_bounds (l : list loc) (o : loc) :
  List.In o l -> 0 <= indexOf l o < js_length l.
Proof.
  intros Hin. destruct (indexOf_first l o Hin) as (l1 & l2 & -> & _ & ->).
  unfold js_length. rewrite length_app. cbn [length]. lia.
Qed.

(** X26: in a store where [parent.children] contains [child] if and only
    if [child.parent] is [parent], a z-order macro called for a shape with
    a parent asks [reorderChild] only for a position inside the array of
    children: the last one for [bringToFront], the first for [sendToBack],
    the next one for [bringForward] unless the shape is in front already,
    the one before for [sendBackward] unless the shape is at the back
    already.  [bringToFront] and [sendToBack] report what [reorderChild]
    reports; [bringForward] and [sendBackward] report [false] whatever
    [reorderChild] did. *)
Theorem z_order_positions_in_bounds s tx shape parent :
  parent_children_inv s ->
  obj_parent (deref s shape) = Some parent ->
  exists pos, indexOf (obj_children (deref s parent)) shape = pos /\
    0 <= pos < js_length (obj_children (deref s parent)) /\
    bringToFront reorderChild s tx shape
      = reorderChild tx parent shape (js_length (obj_children (deref s parent)) - 1) /\
    sendToBack reorderChild s tx shape = reorderChild tx parent shape 0 /\
    bringForward reorderChild s tx shape
      = (if pos <? js_length (obj_children (deref s parent)) - 1
         then (fst (reorderChild tx parent shape (pos + 1)), false)
         else (tx, false)) /\
    sendBackward reorderChild s tx shape
      = (if 0 <? pos then (fst (reorderChild tx parent shape (pos - 1)), false)
         else (tx, false)) /\
    snd (bringForward reorderChild s tx shape) = false /\
    snd (sendBackward reorderChild s tx shape) = false.
Proof.
  intros Hinv Hp.
  assert (Hin : List.In shape (obj_children (deref s parent))) by (apply Hinv; exact Hp).
  exists (indexOf (obj_children (deref s parent)) shape).
  split; [reflexivity |]. split; [apply indexOf_bounds; exact Hin |].
  unfold bringToFront, sendToBack, bringForward, sendBackward. rewrite Hp. cbv zeta.
  split; [| split; [| split; [| split; [| split]]]].
  - destruct (reorderChild tx parent shape _) as [tx' b]. rewrite orb_false_r. reflexivity.
  - destruct (reorderChild tx parent shape 0) as [tx' b]. rewrite orb_false_r. reflexivity.
  - reflexivity.
  - reflexivity.
  - destruct (_ <? _); reflexivity.
  - destruct (_ <? _); reflexivity.
Qed.

End Macros.

Lemma z_order_positions_in_bounds_witness :
  exists pos, indexOf (obj_children (deref Scenario.s_between 0%nat)) 4%nat = pos /\
    0 <= pos < js_length (obj_children (deref Scenario.s_between 0%nat)) /\
    bringToFront (fun tx p o i => (i :: tx, true)) Scenario.s_between [] 4%nat
      = (fun tx (p o : loc) i => (i :: tx, true)) [] 0%nat 4%nat
          (js_length (obj_children (deref Scenario.s_between 0%nat)) - 1) /\
    sendToBack (fun tx p o i => (i :: tx, true)) Scenario.s_between [] 4%nat
      = (fun tx (p o : loc) i => (i :: tx, true)) [] 0%nat 4%nat 0 /\
    bringForward (fun tx p o i => (i :: tx, true)) Scenario.s_between [] 4%nat
      = (if pos <? js_length (obj_children (deref Scenario.s_between 0%nat)) - 1
         then (fst ((fun tx (p o : loc) i => (i :: tx, true)) [] 0%nat 4%nat (pos + 1)), false)
         else ([], false)) /\
    sendBackward (fun tx p o i => (i :: tx, true)) Scenario.s_between [] 4%nat
      = (if 0 <? pos
         then (fst ((fun tx (p o : loc) i => (i :: tx, true)) [] 0%nat 4%nat (pos - 1)), false)
         else ([], false)) /\
    snd (bringForward (fun tx p o i => (i :: tx, true)) Scenario.s_between [] 4%nat) = false /\
    snd (sendBackward (fun tx p o i => (i :: tx, true)) Scenario.s_between [] 4%nat) = false.
Proof.
  apply (z_order_positions_in_bounds (fun tx p o i => (i :: tx, true))
           Scenario.s_between [] 4%nat 0%nat).
  - intros p c. unfold Scenario.s_between. rewrite !BridgeExtra.deref_store_of.
    destruct p as [| [| [| [| [| p]]]]]; destruct c as [| [| [| [| [| c]]]]]; cbn;
      split; intros H; try discriminate; try reflexivity;
      repeat (destruct H as [H | H]; try discriminate); try contradiction; auto.
  - reflexivity.
Defined.

End ZOrderProps.
